(** * Orchestration core of minecraft-mcp-mineflayer

    A shallow embedding of the per-bot orchestration layer of the MCP
    server (task guard, suspension counter, status reporter, progress
    watchdog, crafting planner, smelting fallback chain, auto-shield poller
    and bot registry), with the properties the specification states about
    them.  Every definition follows the TypeScript source; collaborator
    calls (mineflayer, the clock) are inputs of the functions that make
    them. *)

From Stdlib Require Import ZArith Bool List Ascii String Lia Floats.
From stdpp Require Import base option list gmap strings.

Set Default Proof Using "Type".

(** ** JavaScript string helpers used by the source *)

Module JsString.

Local Open Scope string_scope.

(** [s.startsWith(p)] *)
Definition startsWith (s p : string) : bool := String.prefix p s.

(** [s.includes(sub)] *)
Fixpoint includes (s sub : string) : bool :=
  String.prefix sub s ||
  match s with
  | EmptyString => false
  | String _ s' => includes s' sub
  end.

(** [s.endsWith(suf)] *)
Fixpoint endsWith (s suf : string) : bool :=
  String.eqb s suf ||
  match s with
  | EmptyString => false
  | String _ s' => endsWith s' suf
  end.

Definition lower_ascii (c : ascii) : ascii :=
  let n := N_of_ascii c in
  if ((65 <=? n) && (n <=? 90))%N then ascii_of_N (n + 32) else c.

(** [s.toLowerCase()] on ASCII text *)
Fixpoint toLowerCase (s : string) : string :=
  match s with
  | EmptyString => EmptyString
  | String c s' => String (lower_ascii c) (toLowerCase s')
  end.

(** JavaScript truthiness of a string: only [""] is falsy. *)
Definition truthy (s : string) : bool := negb (String.eqb s "").

(** [list.some(x => n.includes(x))] *)
Definition includes_any (n : string) (xs : list string) : bool :=
  existsb (includes n) xs.

Example includes_examples :
  includes "cooked_beef" "beef" = true /\ includes "beef" "cooked_beef" = false
  /\ startsWith "raw_iron" "raw_" = true /\ endsWith "iron_ore" "_ore" = true
  /\ endsWith "ore_block" "_ore" = false /\ toLowerCase "Spectral_Arrow" = "spectral_arrow".
Proof. vm_compute. repeat split; reflexivity. Qed.

End JsString.

(** ** Results of code that may throw *)

Inductive Result (A : Type) : Type :=
| Ok (a : A)
| Throw (msg : string).
Arguments Ok {A} a.
Arguments Throw {A} msg.

(** ** Reference-counted auto-eat suspension and the equip helpers *)

Module Suspend.

Local Open Scope Z_scope.

Record Item := mkItem { item_name : string; item_type : Z; item_count : Z }.

(** What the collaborator is asked to do, with the value of
    [bot.__suspendAutoEat] (as the auto-feed poller would read it, line 552)
    while the call is pending. *)
Inductive Event :=
| EvEquip (name destination : string) (suspended : bool).

(** The dynamic properties of the bot object the helpers touch.  A property
    never assigned is [None] ([undefined]). *)
Record Bot := mkBot {
  suspendAutoEatCount : option Z;
  suspendAutoEat : option bool;
  inventory : list Item;
  calls : list Event
}.

Definition fresh_bot (inv : list Item) : Bot :=
  mkBot None None inv [].

(** [Number(x || 0)] for a counter property. *)
Definition number_or_zero (x : option Z) : Z :=
  match x with
  | Some c => c
  | None => 0
  end.

(** [!!bot.__suspendAutoEat] *)
Definition suspended (b : Bot) : bool :=
  match suspendAutoEat b with
  | Some f => f
  | None => false
  end.

Definition pushSuspendAutoEat (b : Bot) : Bot :=
  let c := number_or_zero (suspendAutoEatCount b) in
  mkBot (Some (c + 1)) (Some true) (inventory b) (calls b).

Definition popSuspendAutoEat (b : Bot) : Bot :=
  let c := number_or_zero (suspendAutoEatCount b) in
  let n := Z.max 0 (c - 1) in
  mkBot (Some n) (Some (0 <? n)) (inventory b) (calls b).

Inductive Op := Push | Pop.

Definition apply_op (b : Bot) (o : Op) : Bot :=
  match o with
  | Push => pushSuspendAutoEat b
  | Pop => popSuspendAutoEat b
  end.

(** A sequence of calls, first call first. *)
Definition run_ops (ops : list Op) (b : Bot) : Bot := fold_left apply_op ops b.

(** State and exceptions for the async helpers: a computation takes the bot
    and returns its result (or the thrown error) and the bot afterwards. *)
Definition M (A : Type) : Type := Bot -> Result A * Bot.

Definition ret {A} (a : A) : M A := fun b => (Ok a, b).
Definition throw {A} (msg : string) : M A := fun b => (Throw msg, b).
Definition bind {A B} (m : M A) (k : A -> M B) : M B :=
  fun b => match m b with
           | (Ok a, b') => k a b'
           | (Throw e, b') => (Throw e, b')
           end.
Definition modify (f : Bot -> Bot) : M unit := fun b => (Ok tt, f b).

(** [try { body } finally { fin }] where [fin] cannot throw. *)
Definition try_finally {A} (body : M A) (fin : Bot -> Bot) : M A :=
  fun b => let (r, b') := body b in (r, fin b').

Notation "'let!' x ':=' m 'in' k" := (bind m (fun x => k))
  (at level 10, x name, m at level 200, k at level 200).
Notation "'run!' m 'in' k" := (bind m (fun _ => k))
  (at level 10, m at level 200, k at level 200).

(** [await bot.equip(item, destination)]: the collaborator either resolves
    or rejects; [outcome] is its answer ([Some msg] = rejects with [msg]).
    The call is recorded together with the suspension flag in force. *)
Definition bot_equip (it : Item) (destination : string) (outcome : option string) : M unit :=
  fun b =>
    let b' := mkBot (suspendAutoEatCount b) (suspendAutoEat b) (inventory b)
                    (calls b ++ [EvEquip (item_name it) destination (suspended b)]) in
    match outcome with
    | None => (Ok tt, b')
    | Some msg => (Throw msg, b')
    end.

(** [bot.inventory.items().find(i => i.name === name)] *)
Definition find_item (name : string) (b : Bot) : option Item :=
  List.find (fun i => String.eqb (item_name i) name) (inventory b).

Definition hasArrows (b : Bot) : bool :=
  existsb (fun i => JsString.includes (item_name i) "arrow") (inventory b).

(** The guarded equip every helper but one uses:
    [pushSuspendAutoEat(bot); try { await bot.equip(..) } finally { popSuspendAutoEat(bot) }] *)
Definition guarded_equip (it : Item) (destination : string) (outcome : option string) : M unit :=
  run! modify pushSuspendAutoEat in
  try_finally (bot_equip it destination outcome) popSuspendAutoEat.

Definition equipBowIfAvailable (outcome : option string) : M bool :=
  fun b =>
    match find_item "bow" b with
    | Some bow =>
        if hasArrows b
        then (run! guarded_equip bow "hand" outcome in ret true) b
        else ret false b
    | None => ret false b
    end.

Definition melee_preference : list string :=
  [ "netherite_sword"; "diamond_sword"; "iron_sword"; "stone_sword";
    "golden_sword"; "wooden_sword";
    "netherite_axe"; "diamond_axe"; "iron_axe"; "stone_axe";
    "golden_axe"; "wooden_axe" ]%string.

Fixpoint equipBestMeleeWeapon_from (names : list string) (outcome : option string) : M bool :=
  match names with
  | [] => ret false
  | name :: rest =>
      fun b =>
        match find_item name b with
        | Some it => (run! bot_equip it "hand" outcome in ret true) b
        | None => equipBestMeleeWeapon_from rest outcome b
        end
  end.

Definition equipBestMeleeWeapon (outcome : option string) : M bool :=
  equipBestMeleeWeapon_from melee_preference outcome.

(** The part of the [equipItem] tool up to the equip (the durability lookup
    that follows reads only). *)
Definition equipItem (itemName destination : string) (outcome : option string) : M (bool * string) :=
  fun b =>
    match find_item itemName b with
    | None => throw ("Item '" +:+ itemName +:+ "' not found in inventory") b
    | Some it => (run! guarded_equip it destination outcome in ret (true, destination)) b
    end.

(** The equip step of the damage-triggered retaliation (the [entityHurt]
    handler): [if (!(await equipBowIfAvailable(bot)) || dist <= 8) await
    equipBestMeleeWeapon(bot)].  [within_melee] is [dist <= 8]. *)
Definition retaliate_equip (within_melee : bool) (bow_outcome melee_outcome : option string) : M unit :=
  let! hasBow := equipBowIfAvailable bow_outcome in
  if negb hasBow || within_melee
  then run! equipBestMeleeWeapon melee_outcome in ret tt
  else ret tt.

(** Every equip the computation asked for was made with the flag set. *)
Definition all_equips_suspended (evs : list Event) : bool :=
  forallb (fun e => match e with EvEquip _ _ f => f end) evs.

(** The count is a non-negative integer or still unassigned. *)
Definition count_ok (b : Bot) : Prop := 0 <= number_or_zero (suspendAutoEatCount b).

Lemma push_count (b : Bot) :
  number_or_zero (suspendAutoEatCount (pushSuspendAutoEat b))
  = number_or_zero (suspendAutoEatCount b) + 1.
Proof. reflexivity. Qed.

Lemma pop_count (b : Bot) :
  number_or_zero (suspendAutoEatCount (popSuspendAutoEat b))
  = Z.max 0 (number_or_zero (suspendAutoEatCount b) - 1).
Proof. reflexivity. Qed.

Lemma apply_op_count_ok (b : Bot) (o : Op) : count_ok b -> count_ok (apply_op b o).
Proof.
  unfold count_ok. destruct o; simpl.
  - intros H. lia.
  - intros _. lia.
Qed.

Lemma apply_op_flag (b : Bot) (o : Op) :
  count_ok b ->
  suspendAutoEat (apply_op b o)
  = Some (0 <? number_or_zero (suspendAutoEatCount (apply_op b o))).
Proof.
  unfold count_ok. destruct o; simpl; intros H; [|reflexivity].
  f_equal. symmetry. apply Z.ltb_lt. lia.
Qed.

Lemma run_ops_count_ok (ops : list Op) (b : Bot) : count_ok b -> count_ok (run_ops ops b).
Proof.
  revert b. induction ops as [|o ops IH]; intros b H; simpl; [exact H|].
  apply IH. now apply apply_op_count_ok.
Qed.

Lemma run_ops_snoc (ops : list Op) (o : Op) (b : Bot) :
  run_ops (ops ++ [o]) b = apply_op (run_ops ops b) o.
Proof. unfold run_ops. now rewrite fold_left_app. Qed.

Lemma fresh_count_ok (inv : list Item) : count_ok (fresh_bot inv).
Proof. unfold count_ok. simpl. lia. Qed.

(** C4. For every sequence of pushSuspendAutoEat / popSuspendAutoEat calls
    on a session (any order, balanced or not), the counter
    [__suspendAutoEatCount] is a non-negative number after the sequence,
    and after each call the flag [__suspendAutoEat] equals [count > 0]. *)
Theorem suspend_count_never_negative (inv : list Item) (ops : list Op) (o : Op) :
  let b := run_ops (ops ++ [o]) (fresh_bot inv) in
  0 <= number_or_zero (suspendAutoEatCount (run_ops ops (fresh_bot inv)))
  /\ (exists n, suspendAutoEatCount b = Some n /\ 0 <= n
                /\ suspendAutoEat b = Some (0 <? n)).
Proof.
  simpl. pose proof (run_ops_count_ok ops _ (fresh_count_ok inv)) as Hc.
  split; [exact Hc|].
  rewrite run_ops_snoc.
  pose proof (apply_op_flag _ o Hc) as Hf.
  pose proof (apply_op_count_ok _ o Hc) as Hc'.
  set (b := apply_op _ o) in *.
  assert (Hs : exists n, suspendAutoEatCount b = Some n).
  { subst b. destruct o; simpl; eauto. }
  destruct Hs as [n Hn]. exists n. unfold count_ok in Hc'.
  rewrite Hn in *. simpl in *. auto.
Qed.

(** The guarded equip raises the flag before the collaborator is called and
    restores the counter afterwards, whether the equip resolves or rejects. *)
Lemma guarded_equip_spec (it : Item) (d : string) (outcome : option string) (b : Bot) :
  count_ok b ->
  let (r, b') := guarded_equip it d outcome b in
  calls b' = calls b ++ [EvEquip (item_name it) d true]
  /\ suspendAutoEatCount b' = Some (number_or_zero (suspendAutoEatCount b))
  /\ suspendAutoEat b' = Some (0 <? number_or_zero (suspendAutoEatCount b))
  /\ r = match outcome with None => Ok tt | Some msg => Throw msg end.
Proof.
  unfold count_ok. intros Hc.
  unfold guarded_equip, bind, modify, try_finally, bot_equip, pushSuspendAutoEat.
  destruct outcome; simpl; unfold number_or_zero in *;
    (repeat split; [f_equal; lia | do 2 f_equal; lia]).
Qed.

Lemma equipBowIfAvailable_guarded (outcome : option string) (b : Bot) :
  count_ok b ->
  let (r, b') := equipBowIfAvailable outcome b in
  (exists evs, calls b' = calls b ++ evs /\ all_equips_suspended evs = true)
  /\ number_or_zero (suspendAutoEatCount b') = number_or_zero (suspendAutoEatCount b).
Proof.
  intros Hc. unfold equipBowIfAvailable.
  destruct (find_item "bow" b) as [bow|]; [destruct (hasArrows b)|].
  - pose proof (guarded_equip_spec bow "hand" outcome b Hc) as H.
    unfold bind. destruct (guarded_equip bow "hand" outcome b) as [r b1].
    destruct H as (Hcalls & Hcnt & _ & Hr).
    destruct r; simpl.
    + split; [exists [EvEquip (item_name bow) "hand" true]; auto | now rewrite Hcnt].
    + split; [exists [EvEquip (item_name bow) "hand" true]; auto | now rewrite Hcnt].
  - simpl. split; [exists []; split; [now rewrite app_nil_r | reflexivity] | reflexivity].
  - simpl. split; [exists []; split; [now rewrite app_nil_r | reflexivity] | reflexivity].
Qed.

Lemma equipItem_guarded (itemName d : string) (outcome : option string) (b : Bot) :
  count_ok b ->
  let (r, b') := equipItem itemName d outcome b in
  (exists evs, calls b' = calls b ++ evs /\ all_equips_suspended evs = true)
  /\ number_or_zero (suspendAutoEatCount b') = number_or_zero (suspendAutoEatCount b).
Proof.
  intros Hc. unfold equipItem.
  destruct (find_item itemName b) as [it|].
  - pose proof (guarded_equip_spec it d outcome b Hc) as H.
    unfold bind. destruct (guarded_equip it d outcome b) as [r b1].
    destruct H as (Hcalls & Hcnt & _ & Hr).
    destruct r; simpl;
      (split; [exists [EvEquip (item_name it) d true]; auto | now rewrite Hcnt]).
  - simpl. split; [exists []; split; [now rewrite app_nil_r | reflexivity] | reflexivity].
Qed.

(** [equipBestMeleeWeapon] never touches the counter: whatever it equips is
    equipped under the flag the caller left. *)
Lemma equipBestMeleeWeapon_from_unguarded (names : list string) (outcome : option string) (b : Bot) :
  let (r, b') := equipBestMeleeWeapon_from names outcome b in
  suspendAutoEatCount b' = suspendAutoEatCount b
  /\ suspendAutoEat b' = suspendAutoEat b
  /\ (calls b' = calls b
      \/ exists name, In name names /\ calls b' = calls b ++ [EvEquip name "hand" (suspended b)]).
Proof.
  induction names as [|name rest IH]; simpl.
  - auto.
  - destruct (find_item name b) as [it|] eqn:Hf.
    + unfold find_item in Hf. apply find_some in Hf as [_ Hn].
      apply String.eqb_eq in Hn.
      unfold bind, bot_equip. destruct outcome; simpl;
        (repeat split; auto; right; exists name; split; [now left | now rewrite Hn]).
    + destruct (equipBestMeleeWeapon_from rest outcome b) as [r b'].
      destruct IH as (H1 & H2 & [H3 | (n & Hin & H3)]); repeat split; auto.
      right. exists n. split; [now right | exact H3].
Qed.

(** C3 (the code departs from the claim).  [equipBestMeleeWeapon], the melee
    branch of the damage-triggered retaliation, calls [bot.equip] without
    pushSuspendAutoEat / popSuspendAutoEat: on a bot that holds an iron
    sword and no bow, a hit makes the retaliation equip the sword while
    [__suspendAutoEat] is still unset, so the auto-feed poller can observe
    suspended = false during the swap.  The sibling [equipBowIfAvailable]
    on the same path does raise the flag. *)
Theorem equipBestMeleeWeapon_equips_unsuspended :
  let b := fresh_bot [mkItem "iron_sword" 800 1] in
  retaliate_equip true None None b
  = (Ok tt, mkBot None None [mkItem "iron_sword" 800 1] [EvEquip "iron_sword" "hand" false])
  /\ (forall outcome, all_equips_suspended (calls (snd (equipBestMeleeWeapon outcome b))) = false)
  /\ (let b2 := fresh_bot [mkItem "bow" 700 1; mkItem "arrow" 701 5] in
      all_equips_suspended (calls (snd (equipBowIfAvailable None b2))) = true
      /\ calls (snd (equipBowIfAvailable None b2)) = [EvEquip "bow" "hand" true]).
Proof.
  simpl. split; [reflexivity|]. split.
  - intros outcome. destruct outcome; reflexivity.
  - split; reflexivity.
Qed.

End Suspend.

(** ** Single-flight task guard ([getTask] / [withTask]) *)

Module TaskGuard.

(** [bot.__task]: the [running] flag and the [abort] closure.  Every call of
    [withTask] that gets past the check builds a new closure; closures are
    told apart by the number they were created under. *)
Record Task := mkTask { running : bool; abort : option nat }.

(** How the guarded action [fn] settled: its promise resolved or rejected.
    A cancelled action is one that settles after [task.abort()] was
    called; the guard itself never forces it. *)
Inductive Outcome :=
| Returned
| Threw (msg : string).

(** Where one invocation of [withTask] stands. *)
Inductive Invocation :=
| InBody (handle : nat)          (* past the check, awaiting [fn] *)
| Finished (o : Outcome)         (* [finally] has run *)
| Rejected (msg : string).       (* threw before touching the task *)

Record State := mkState {
  task : Task;
  invocations : gmap nat Invocation;   (* absent: not called yet *)
  next_handle : nat;
  aborted : list nat                    (* closures [stopAllTasks] has called *)
}.

(** [getTask] on a bot that has no [__task] yet. *)
Definition init : State := mkState (mkTask false None) ∅ 0 [].

(** The scheduler's moves.  The runtime never preempts synchronous code, so
    the prefix of [withTask] up to its [await] ([Call]) and its [finally]
    block ([Settle]) are single steps; [Abort] is [stopAllTasks] reaching
    [t.abort()]. *)
Inductive Label :=
| Call (i : nat)
| Settle (i : nat) (o : Outcome)
| Abort.

(** [withTask] from its first line to the call of [fn]:
    [if (task.running) throw new Error('another_task_running');
     task.running = true; task.abort = () => {..}]; [closure] names the
    closure built. *)
Definition withTask_enter (t : Task) (closure : nat) : Result Task :=
  if running t then Throw "another_task_running"
  else Ok (mkTask true (Some closure)).

(** The [finally] block: [task.running = false; task.abort = null]. *)
Definition withTask_finally (t : Task) : Task := mkTask false None.

Definition step (s : State) (l : Label) : State :=
  match l with
  | Call i =>
      match invocations s !! i with
      | Some _ => s
      | None =>
          match withTask_enter (task s) (next_handle s) with
          | Throw msg =>
              mkState (task s) (<[i := Rejected msg]> (invocations s))
                      (next_handle s) (aborted s)
          | Ok t =>
              mkState t (<[i := InBody (next_handle s)]> (invocations s))
                      (S (next_handle s)) (aborted s)
          end
      end
  | Settle i o =>
      match invocations s !! i with
      | Some (InBody _) =>
          mkState (withTask_finally (task s)) (<[i := Finished o]> (invocations s))
                  (next_handle s) (aborted s)
      | _ => s
      end
  | Abort =>
      match abort (task s) with
      | Some h => mkState (task s) (invocations s) (next_handle s) (h :: aborted s)
      | None => s
      end
  end.

Definition run (tr : list Label) (s : State) : State := fold_left step tr s.

(** Did invocation [i] get to run the action body? *)
Definition ran (s : State) (i : nat) : bool :=
  match invocations s !! i with
  | Some (InBody _) | Some (Finished _) => true
  | _ => false
  end.

(** Has invocation [i] completed (its promise settled)? *)
Definition completed (s : State) (i : nat) : bool :=
  match invocations s !! i with
  | Some (Finished _) | Some (Rejected _) => true
  | _ => false
  end.

Definition in_body (s : State) (i : nat) : Prop :=
  exists h, invocations s !! i = Some (InBody h).

(** The guard's invariant. *)
Record guard_inv (s : State) : Prop := {
  inv_body_running :
    forall i h, invocations s !! i = Some (InBody h) ->
                task s = mkTask true (Some h) /\ h < next_handle s;
  inv_body_unique :
    forall i j h h', invocations s !! i = Some (InBody h) ->
                     invocations s !! j = Some (InBody h') -> i = j;
  inv_running_body :
    running (task s) = true -> exists i, in_body s i;
  inv_idle :
    running (task s) = false -> abort (task s) = None;
  inv_rejected :
    forall i msg, invocations s !! i = Some (Rejected msg) ->
                  msg = "another_task_running"%string;
  inv_aborted :
    forall h, In h (aborted s) -> h < next_handle s
}.

Lemma guard_inv_init : guard_inv init.
Proof.
  split; simpl.
  - intros i h H. rewrite lookup_empty in H. discriminate.
  - intros i j h h' H. rewrite lookup_empty in H. discriminate.
  - discriminate.
  - reflexivity.
  - intros i msg H. rewrite lookup_empty in H. discriminate.
  - intros h [].
Qed.

Ltac split_lookup H i j :=
  let E := fresh "E" in
  destruct (decide (i = j)) as [E|E];
  [ rewrite E in H; rewrite lookup_insert_eq in H
  | rewrite lookup_insert_ne in H by done ].

Lemma guard_inv_call (s : State) (i : nat) : guard_inv s -> guard_inv (step s (Call i)).
Proof.
  intros [Hb Hu Hr Hi Hj Ha]. simpl. unfold withTask_enter.
  destruct (invocations s !! i) as [x|] eqn:Hx; [now split|].
  destruct (running (task s)) eqn:Hrun.
  - split; simpl; [| | | | |exact Ha].
    + intros j h H. split_lookup H i j; [discriminate | exact (Hb _ _ H)].
    + intros j k h h' H H'.
      split_lookup H i j; [discriminate|]. split_lookup H' i k; [discriminate|]. eauto.
    + intros _. destruct (Hr eq_refl) as (j & h & Hjh). exists j, h. simpl.
      rewrite lookup_insert_ne; [done|]. intros ->. congruence.
    + rewrite Hrun. discriminate.
    + intros j msg H. split_lookup H i j; [congruence | eauto].
  - assert (Hnone : forall j h, invocations s !! j = Some (InBody h) -> False).
    { intros j h H. destruct (Hb j h H) as [Ht _]. rewrite Ht in Hrun. discriminate. }
    split; simpl; [| | | | |intros h Hh; specialize (Ha h Hh); lia].
    + intros j h H. split_lookup H i j.
      * inversion H; subst. split; [done|lia].
      * exfalso. eauto.
    + intros j k h h' H H'.
      split_lookup H i j; split_lookup H' i k; try congruence; exfalso; eauto.
    + intros _. exists i, (next_handle s). simpl. now rewrite lookup_insert_eq.
    + discriminate.
    + intros j msg H. split_lookup H i j; [discriminate | eauto].
Qed.

Lemma guard_inv_settle (s : State) (i : nat) (o : Outcome) :
  guard_inv s -> guard_inv (step s (Settle i o)).
Proof.
  intros [Hb Hu Hr Hi Hj Ha]. simpl. unfold withTask_finally.
  destruct (invocations s !! i) as [[h| |]|] eqn:Hx; try now split.
  split; simpl; [| | | | |exact Ha].
  - intros j h' H. split_lookup H i j; [discriminate|].
    exfalso. pose proof (Hu _ _ _ _ Hx H). done.
  - intros j k h1 h2 H H'.
    split_lookup H i j; [discriminate|]. split_lookup H' i k; [discriminate|]. eauto.
  - discriminate.
  - reflexivity.
  - intros j msg H. split_lookup H i j; [discriminate | eauto].
Qed.

Lemma guard_inv_step (s : State) (l : Label) : guard_inv s -> guard_inv (step s l).
Proof.
  destruct l as [i|i o|].
  - apply guard_inv_call.
  - apply guard_inv_settle.
  - intros H. simpl. destruct (abort (task s)) as [h|] eqn:Hab; [|exact H].
    destruct H as [Hb Hu Hr Hi Hj Ha]. split; simpl; try done.
    intros h' [<-|Hin]; [|now apply Ha].
    destruct (running (task s)) eqn:Hrun.
    + destruct (Hr eq_refl) as (k & hk & Hk). destruct (Hb _ _ Hk) as [Ht Hlt].
      rewrite Ht in Hab. simpl in Hab. congruence.
    + rewrite (Hi eq_refl) in Hab. discriminate.
Qed.

Lemma guard_inv_run (tr : list Label) (s : State) : guard_inv s -> guard_inv (run tr s).
Proof.
  revert s. induction tr as [|l tr IH]; intros s H; simpl; [exact H|].
  apply IH. now apply guard_inv_step.
Qed.

(** A settled invocation stays as it is. *)
Lemma step_keeps_finished (s : State) (l : Label) (i : nat) (x : Invocation) :
  invocations s !! i = Some x -> (forall h, x <> InBody h) ->
  invocations (step s l) !! i = Some x.
Proof.
  intros Hx Hn. destruct l as [j|j o|]; simpl; unfold withTask_enter.
  - destruct (invocations s !! j) eqn:Hj; [exact Hx|].
    destruct (running (task s)); simpl;
      (rewrite lookup_insert_ne; [exact Hx | intros ->; congruence]).
  - destruct (invocations s !! j) as [[h| |]|] eqn:Hj; try exact Hx.
    simpl. rewrite lookup_insert_ne; [exact Hx|]. intros ->.
    rewrite Hx in Hj. inversion Hj. subst x. now apply (Hn h).
  - destruct (abort (task s)); exact Hx.
Qed.

Lemma run_keeps_finished (tr : list Label) (s : State) (i : nat) (x : Invocation) :
  invocations s !! i = Some x -> (forall h, x <> InBody h) ->
  invocations (run tr s) !! i = Some x.
Proof.
  revert s. induction tr as [|l tr IH]; intros s Hx Hn; simpl; [exact Hx|].
  apply IH; [|exact Hn]. now apply step_keeps_finished.
Qed.

Lemma run_trace_app (tr1 tr2 : list Label) (s : State) :
  run (tr1 ++ tr2) s = run tr2 (run tr1 s).
Proof. unfold run. apply fold_left_app. Qed.

(** The claim read to the letter: of any two completed invocations at most
    one ran the action body. *)
Definition at_most_one_ran (s : State) (i j : nat) : Prop :=
  ran s i = false \/ ran s j = false.

(** C1, as stated, fails: two invocations made one after the other both
    complete and both run the action body. *)
Lemma withTask_sequential_both_run :
  let s := run [Call 0; Settle 0 Returned; Call 1; Settle 1 (Threw "boom")] init in
  completed s 0 = true /\ completed s 1 = true /\ running (task s) = false
  /\ ~ at_most_one_ran s 0 1.
Proof.
  vm_compute. repeat split; intros [H|H]; discriminate.
Qed.

(** C1 (amended).  At every state the guard can reach, a new invocation [i]
    of [withTask]
    - fails at once with 'another_task_running', leaving the task untouched
      and never running the action body afterwards, when [running] is set;
    - otherwise sets [running = true] and installs an abort closure no
      earlier invocation or [stopAllTasks] call has seen;
    and whenever the guarded action of an invocation settles (returned,
    threw, or settled after an abort) [running] is reset to false and the
    closure cleared.  Hence at most one invocation is in the action body at
    any time, of two overlapping invocations exactly one runs the body, and
    [running] is false exactly when no invocation is in its body. *)
Theorem withTask_single_flight (tr : list Label) (i : nat) :
  let s := run tr init in
  invocations s !! i = None ->
  (if running (task s)
   then step s (Call i)
        = mkState (task s) (<[i := Rejected "another_task_running"]> (invocations s))
                  (next_handle s) (aborted s)
        /\ (exists k, k <> i /\ in_body s k /\ ran s k = true)
        /\ (forall tr', ran (run tr' (step s (Call i))) i = false
                        /\ completed (run tr' (step s (Call i))) i = true)
   else task (step s (Call i)) = mkTask true (Some (next_handle s))
        /\ in_body (step s (Call i)) i
        /\ (forall k h, invocations s !! k = Some (InBody h) -> h <> next_handle s)
        /\ ~ In (next_handle s) (aborted s))
  /\ (forall k h o, invocations s !! k = Some (InBody h) ->
         task (step s (Settle k o)) = mkTask false None
         /\ invocations (step s (Settle k o)) !! k = Some (Finished o))
  /\ (forall k k', in_body s k -> in_body s k' -> k = k')
  /\ (running (task s) = true <-> exists k, in_body s k)
  /\ (running (task s) = false -> abort (task s) = None).
Proof.
  intros s Hnew.
  pose proof (guard_inv_run tr init guard_inv_init) as Hinv. fold s in Hinv.
  destruct Hinv as [Hb Hu Hr Hi Hj Ha].
  split; [|split; [|split; [|split]]].
  - destruct (running (task s)) eqn:Hrun.
    + assert (Hstep : step s (Call i)
        = mkState (task s) (<[i := Rejected "another_task_running"]> (invocations s))
                  (next_handle s) (aborted s)).
      { simpl. unfold withTask_enter. now rewrite Hnew, Hrun. }
      split; [exact Hstep|]. split.
      * destruct (Hr eq_refl) as (k & h & Hk). exists k. split; [|split].
        -- intros ->. congruence.
        -- now exists h.
        -- unfold ran. now rewrite Hk.
      * intros tr'.
        assert (Hl : invocations (run tr' (step s (Call i))) !! i
                     = Some (Rejected "another_task_running")).
        { apply run_keeps_finished; [|discriminate].
          rewrite Hstep. simpl. apply lookup_insert_eq. }
        unfold ran, completed. now rewrite Hl.
    + simpl. unfold withTask_enter. rewrite Hnew, Hrun. simpl. split; [reflexivity|]. split.
      * exists (next_handle s). simpl. apply lookup_insert_eq.
      * split.
        -- intros k h Hk. destruct (Hb _ _ Hk) as [_ Hlt]. lia.
        -- intros Hin. specialize (Ha _ Hin). lia.
  - intros k h o Hk. simpl. rewrite Hk. simpl. split; [reflexivity|].
    apply lookup_insert_eq.
  - intros k k' [h Hk] [h' Hk']. eauto.
  - split; [exact Hr|]. intros (k & h & Hk). destruct (Hb _ _ Hk) as [Ht _].
    now rewrite Ht.
  - exact Hi.
Qed.

(** The scenario of the specification: invocation 1 arrives while
    invocation 0 is in its action body. *)
Lemma withTask_single_flight_witness :
  invocations (run [Call 0] init) !! 1 = None
  /\ forall tr', ran (run tr' (step (run [Call 0] init) (Call 1))) 1 = false
                 /\ completed (run tr' (step (run [Call 0] init) (Call 1))) 1 = true.
Proof.
  split; [reflexivity|].
  pose proof (withTask_single_flight [Call 0] 1 eq_refl) as H.
  apply proj1 in H. simpl in H. apply proj2 in H. apply proj2 in H. exact H.
Defined.

End TaskGuard.

(** ** The bot registry ([bots : Map<string, Bot>]) and [getBotOrThrow] *)

Module Registry.

Local Open Scope string_scope.

(** A JavaScript [Map] keeps its entries in insertion order; setting an
    existing key keeps the key's place. *)
Section JsMap.
Context {V : Type}.

Definition JsMap : Type := list (string * V).

Fixpoint get (k : string) (m : JsMap) : option V :=
  match m with
  | [] => None
  | (k', v) :: rest => if String.eqb k' k then Some v else get k rest
  end.

Definition has (k : string) (m : JsMap) : bool :=
  match get k m with Some _ => true | None => false end.

Fixpoint set (k : string) (v : V) (m : JsMap) : JsMap :=
  match m with
  | [] => [(k, v)]
  | (k', v') :: rest =>
      if String.eqb k' k then (k', v) :: rest else (k', v') :: set k v rest
  end.

Fixpoint delete (k : string) (m : JsMap) : JsMap :=
  match m with
  | [] => []
  | (k', v') :: rest =>
      if String.eqb k' k then rest else (k', v') :: delete k rest
  end.

Definition values (m : JsMap) : list V := map snd m.

(** [getBotOrThrow(username?)]; [None] is an omitted argument. *)
Definition getBotOrThrow (username : option string) (bots : JsMap) : Result V :=
  let given := match username with Some u => JsString.truthy u | None => false end in
  let u := match username with Some u => u | None => "" end in
  match given, get u bots with
  | true, Some b => Ok b                                  (* has(username) *)
  | true, None => Throw ("Bot '" +:+ u +:+ "' not found")  (* !has(username) *)
  | false, _ =>
      match values bots with
      | first :: _ => Ok first
      | [] => Throw "No active bots. Use joinGame first."
      end
  end.

End JsMap.
Arguments JsMap V : clear implicits.

(** A bot object as the registry holds it.  The registry stores references
    to the objects [createBot] returned; [stamp] tells them apart: the
    [n]-th call of [joinGame] that got past its check made the bot with
    stamp [n]. *)
Record Bot := mkBot { stamp : nat }.

(** [bots.get(username) === bot] *)
Definition bot_eqb (a b : Bot) : bool := Nat.eqb (stamp a) (stamp b).

(** The registry, the number of bots made so far, and what has happened to
    the bot objects: whose ["login"] event has fired and whose ["end"]
    event has fired. *)
Record State := mkState {
  bots : JsMap Bot;
  joined : nat;
  logged_in : list nat;
  ended : list nat
}.

Definition empty : State := mkState [] 0 [] [].

(** What changes the registry or the connection of a bot. *)
Inductive Op :=
| JoinGame (params_username : string)
      (* [joinGame] up to [bots.set]; the wait for the login comes after it *)
| Login (b : Bot)                     (* the ["login"] event of bot [b] *)
| End (key : string) (b : Bot)
      (* the ["end"] handler of bot [b], which [joinGame] registered under [key] *)
| LeaveGame (params_username : string) (bot_username : option string)
      (* [leaveGame] without disconnectAll; [bot_username] is what
         [bot.username], a property the game client keeps, holds when
         [bots.delete(bot.username)] reads it ([None]: undefined) *)
| LeaveAll.                           (* [leaveGame] with disconnectAll *)

(** [String(params.username || "Agent")] *)
Definition join_name (params_username : string) : string :=
  if JsString.truthy params_username then params_username else "Agent".

Definition apply_op (s : State) (o : Op) : State :=
  match o with
  | JoinGame pu =>
      let name := join_name pu in
      if has name (bots s) then s   (* throws: Bot '<name>' already exists *)
      else mkState (set name (mkBot (joined s)) (bots s)) (S (joined s))
                   (logged_in s) (ended s)
  | Login b => mkState (bots s) (joined s) (stamp b :: logged_in s) (ended s)
  | End key b =>
      let reg := match get key (bots s) with
                 | Some b' => if bot_eqb b' b then delete key (bots s) else bots s
                 | None => bots s
                 end in
      mkState reg (joined s) (logged_in s) (stamp b :: ended s)
  | LeaveGame pu bot_username =>
      match getBotOrThrow (Some pu) (bots s) with
      | Ok _ =>
          match bot_username with
          | Some name => mkState (delete name (bots s)) (joined s) (logged_in s) (ended s)
          | None => s                (* [bots.delete(undefined)] finds no entry *)
          end
      | Throw _ => s
      end
  | LeaveAll => mkState [] (joined s) (logged_in s) (ended s)
  end.

Definition run (ops : list Op) (s : State) : State := fold_left apply_op ops s.

(** The bot has logged in and its connection has not ended. *)
Definition connected (s : State) (b : Bot) : bool :=
  existsb (Nat.eqb (stamp b)) (logged_in s)
  && negb (existsb (Nat.eqb (stamp b)) (ended s)).

(** Registered bots are listed in the order they joined. *)
Fixpoint stamps_ascending (lo : nat) (m : JsMap Bot) : Prop :=
  match m with
  | [] => True
  | (_, b) :: rest => lo <= stamp b /\ stamps_ascending (S (stamp b)) rest
  end.

Definition below (hi : nat) (m : JsMap Bot) : Prop :=
  forall k b, In (k, b) m -> stamp b < hi.

Lemma stamps_ascending_weaken (lo lo' : nat) (m : JsMap Bot) :
  lo' <= lo -> stamps_ascending lo m -> stamps_ascending lo' m.
Proof. destruct m as [|[k b] rest]; simpl; [auto|]. intros ? [? ?]. split; [lia|auto]. Qed.

Lemma stamps_ascending_all (lo : nat) (m : JsMap Bot) :
  stamps_ascending lo m -> forall k b, In (k, b) m -> lo <= stamp b.
Proof.
  revert lo. induction m as [|[k' b'] rest IH]; simpl; intros lo H k b Hin; [done|].
  destruct H as [Hlo Hrest]. destruct Hin as [Heq|Hin].
  - inversion Heq; subst. exact Hlo.
  - specialize (IH _ Hrest _ _ Hin). lia.
Qed.

Lemma delete_subset (k : string) (m : JsMap Bot) :
  forall k' b, In (k', b) (delete k m) -> In (k', b) m.
Proof.
  induction m as [|[k0 b0] rest IH]; simpl; intros k' b H; [done|].
  destruct (String.eqb k0 k); [now right|].
  destruct H as [H|H]; [now left | right; eauto].
Qed.

Lemma delete_ascending (k : string) (lo : nat) (m : JsMap Bot) :
  stamps_ascending lo m -> stamps_ascending lo (delete k m).
Proof.
  revert lo. induction m as [|[k0 b0] rest IH]; simpl; intros lo H; [done|].
  destruct H as [Hlo Hrest]. destruct (String.eqb k0 k).
  - eapply stamps_ascending_weaken; [|exact Hrest]. lia.
  - simpl. split; [exact Hlo | now apply IH].
Qed.

Lemma set_fresh_ascending (k : string) (b : Bot) (lo : nat) (m : JsMap Bot) :
  has k m = false -> lo <= stamp b -> below (stamp b) m ->
  stamps_ascending lo m -> stamps_ascending lo (set k b m).
Proof.
  unfold has. revert lo. induction m as [|[k0 b0] rest IH]; simpl; intros lo Hhas Hlo Hbelow H.
  - split; [exact Hlo|exact I].
  - destruct (String.eqb k0 k); [discriminate|]. destruct H as [H0 Hrest].
    simpl. split; [exact H0|]. apply IH; auto.
    + specialize (Hbelow k0 b0 (or_introl eq_refl)). lia.
    + intros k' b' Hin. apply (Hbelow k' b'). now right.
Qed.

Lemma set_members (k : string) (b : Bot) (m : JsMap Bot) :
  forall k' b', In (k', b') (set k b m) -> In (k', b') m \/ b' = b.
Proof.
  induction m as [|[k0 b0] rest IH]; simpl; intros k' b' H.
  - destruct H as [H|[]]. inversion H. now right.
  - destruct (String.eqb k0 k); simpl in H.
    + destruct H as [H|H]; [inversion H; now right | left; now right].
    + destruct H as [H|H]; [left; now left|].
      destruct (IH _ _ H); [left; now right | now right].
Qed.

Record reg_inv (s : State) : Prop := {
  inv_ascending : stamps_ascending 0 (bots s);
  inv_below : below (joined s) (bots s)
}.

Lemma reg_inv_delete (s : State) (k : string) :
  reg_inv s -> reg_inv (mkState (delete k (bots s)) (joined s) (logged_in s) (ended s)).
Proof.
  intros [Ha Hb]. split; simpl; [now apply delete_ascending|].
  intros k' b0 Hin. apply delete_subset in Hin. eauto.
Qed.

Lemma reg_inv_step (s : State) (o : Op) : reg_inv s -> reg_inv (apply_op s o).
Proof.
  intros H. pose proof H as [Ha Hb]. destruct o as [pu|b|key b|pu u|]; simpl.
  - destruct (has (join_name pu) (bots s)) eqn:Hhas; [exact H|].
    split; simpl.
    + apply set_fresh_ascending; simpl; auto with lia.
    + intros k b Hin. apply set_members in Hin as [Hin| ->]; simpl; [|lia].
      specialize (Hb _ _ Hin). lia.
  - now split.
  - destruct (get key (bots s)) as [b'|]; [|now split].
    destruct (bot_eqb b' b); [|now split].
    destruct (reg_inv_delete s key H) as [Ha' Hb']. now split.
  - destruct (getBotOrThrow (Some pu) (bots s)) as [b|]; [|exact H].
    destruct u as [name|]; [|exact H]. now apply reg_inv_delete.
  - split; simpl; [exact I | intros k b []].
Qed.

Lemma reg_inv_run (ops : list Op) (s : State) : reg_inv s -> reg_inv (run ops s).
Proof.
  revert s. induction ops as [|o ops IH]; intros s H; simpl; [exact H|].
  apply IH. now apply reg_inv_step.
Qed.

Lemma reg_inv_empty : reg_inv empty.
Proof. split; simpl; [exact I | intros k b []]. Qed.

(** C10, as stated, fails: [joinGame] files the bot in the registry before
    it waits for the login.  Bot A has been registered and has not logged
    in (its login is pending, or has failed and no ["end"] event has come
    yet); bot B joined after it and is logged in.  A call without a
    username is resolved to A, which is not connected; the earliest-joined
    connected bot is B. *)
Lemma getBotOrThrow_resolves_unconnected_bot :
  let s := run [JoinGame "A"; JoinGame "B"; Login (mkBot 1)] empty in
  bots s = [("A", mkBot 0); ("B", mkBot 1)]
  /\ getBotOrThrow None (bots s) = Ok (mkBot 0)
  /\ connected s (mkBot 0) = false
  /\ connected s (mkBot 1) = true.
Proof. vm_compute. repeat split; reflexivity. Qed.

(** C10 (amended).  [getBotOrThrow] with a (non-empty) username returns
    exactly the bot registered under that name, or throws
    "Bot '<username>' not found"; with the username omitted or empty it
    returns the first bot of the registry in insertion order and throws
    only when the registry is empty.  On every registry the server can
    reach, that first bot is the earliest-joined of the bots still
    registered, whether or not it has logged in. *)
Theorem getBotOrThrow_resolution (ops : list Op) (c : ascii) (u : string) :
  let reg := bots (run ops empty) in
  let name := String c u in
  getBotOrThrow (Some name) reg
    = match get name reg with
      | Some b => Ok b
      | None => Throw ("Bot '" +:+ name +:+ "' not found")
      end
  /\ getBotOrThrow (Some "") reg = getBotOrThrow None reg
  /\ getBotOrThrow None reg
     = match reg with
       | (_, first) :: _ => Ok first
       | [] => Throw "No active bots. Use joinGame first."
       end
  /\ (forall first, getBotOrThrow None reg = Ok first ->
        (exists k, In (k, first) reg)
        /\ forall k b, In (k, b) reg -> stamp first <= stamp b).
Proof.
  intros reg name. split; [|split; [|split]].
  - unfold getBotOrThrow. subst name. simpl JsString.truthy.
    destruct (get (String c u) reg); reflexivity.
  - reflexivity.
  - unfold getBotOrThrow. simpl. destruct reg as [|[k b] rest]; reflexivity.
  - intros first Hfirst.
    pose proof (reg_inv_run ops empty reg_inv_empty) as [Ha _]. fold reg in Ha.
    unfold getBotOrThrow in Hfirst. simpl in Hfirst.
    destruct reg as [|[k0 b0] rest]; simpl in Hfirst; [discriminate|].
    inversion Hfirst; subst b0. split; [exists k0; now left|].
    intros k b [Heq|Hin]; [inversion Heq; lia|].
    simpl in Ha. destruct Ha as [_ Hrest].
    pose proof (stamps_ascending_all _ _ Hrest _ _ Hin). lia.
Qed.

(** Three bots join and the first one's connection ends: a call without a
    username is resolved to the second, the earliest-joined of the two
    that remain. *)
Lemma getBotOrThrow_resolution_witness :
  let reg := bots (run [JoinGame "A"; JoinGame "B"; JoinGame "C"; End "A" (mkBot 0)] empty) in
  getBotOrThrow None reg = Ok (mkBot 1)
  /\ forall k b, In (k, b) reg -> 1 <= stamp b.
Proof.
  intros reg.
  destruct (getBotOrThrow_resolution
              [JoinGame "A"; JoinGame "B"; JoinGame "C"; End "A" (mkBot 0)]
              "x"%char "") as (_ & _ & _ & H).
  split; [reflexivity|].
  exact (proj2 (H (mkBot 1) eq_refl)).
Defined.

End Registry.

(** ** Status reporter ([getStatus]) and the tool dispatcher ([sendToolCall]) *)

Module Status.

Local Open Scope Z_scope.

Record Damage := mkDamage { dmg_from : string; dmg_time : Z }.
Record Broken := mkBroken { brk_slot : Z; brk_itemName : string; brk_time : Z }.
Record Defense := mkDefense { def_target : string; def_time : Z }.
Record Death := mkDeath { death_position : option (Z * Z * Z); death_time : Z; death_cause : string }.
Record HungerWarning := mkHunger { hw_needed : Z; hw_current : Z; hw_time : Z }.
Record Effect := mkEffect { eff_id : Z; eff_amplifier : Z; eff_duration : Z }.

(** The status-related properties of a bot object.  A one-shot slot is
    [None] when it holds [null] (or was never assigned). *)
Record Bot := mkBot {
  health : Z;
  food : Z;
  lastDamage : option Damage;
  lastBroken : option Broken;
  lastDefense : option Defense;
  lastDeath : option Death;
  lastHungerWarning : option HungerWarning;
  effects : list Effect;
  selfDefense_enabled : bool
}.

(** What [getStatus] returns (the [env] block is computed from world reads
    only and is left out). *)
Record StatusReport := mkStatus {
  st_health : Z;
  st_food : Z;
  st_lastDamage : option Damage;
  st_lastBroken : option Broken;
  st_lastDefense : option Defense;
  st_lastDeath : option Death;
  st_lastHungerWarning : option HungerWarning;
  st_effects : list Effect
}.

(** [getStatus(bot)]: reads the five slots, assigns [null] to each of them
    and returns what it read. *)
Definition getStatus (b : Bot) : StatusReport * Bot :=
  let last := lastDamage b in
  let lastBroken' := lastBroken b in
  let lastDefense' := lastDefense b in
  let lastDeath' := lastDeath b in
  let lastHungerWarning' := lastHungerWarning b in
  let b' := mkBot (health b) (food b) None None None None None (effects b)
                  (selfDefense_enabled b) in
  (mkStatus (health b) (food b) last lastBroken' lastDefense' lastDeath'
            lastHungerWarning' (effects b), b').

(** The ["entityHurt"] handler, for a hit on the bot itself: [attacker] is
    the attacker's name when there is an attacker. *)
Definition on_entityHurt (attacker : option string) (now : Z) (b : Bot) : Bot :=
  let from := match attacker with Some n => n | None => "unknown"%string end in
  let defense :=
    match attacker with
    | Some n => if selfDefense_enabled b then Some (mkDefense n now) else lastDefense b
    | None => lastDefense b
    end in
  mkBot (health b) (food b) (Some (mkDamage from now)) (lastBroken b) defense
        (lastDeath b) (lastHungerWarning b) (effects b) (selfDefense_enabled b).

Record Delta := mkDelta {
  healthDelta : Z;
  foodDelta : Z;
  delta_lastDamage : option Damage
}.

Section Dispatcher.

(** The payload a tool returns. *)
Context {A : Type}.

Definition World : Type := Registry.JsMap Bot.

(** The body a tool call returns as JSON text. *)
Inductive Response :=
| UnknownTool                                   (* { ok: false, error: "Unknown tool" } *)
| Failed (error : string)                       (* { ok: false, error } *)
| Done (action : A) (bot : option string)
       (status : option StatusReport) (delta : option Delta).

(** [b ? getStatus(b) : null] for [b = botName ? bots.get(botName) : undefined] *)
Definition snapshot (botName : string) (w : World) : option StatusReport * World :=
  if JsString.truthy botName then
    match Registry.get botName w with
    | Some b => let (st, b') := getStatus b in (Some st, Registry.set botName b' w)
    | None => (None, w)
    end
  else (None, w).

(** [sendToolCall(req)].  [tool] is the case of the [switch] the request's
    name selects ([None]: the default case); a tool runs against the world,
    which may change under it (events arrive while it awaits), and returns
    or throws. *)
Definition sendToolCall (args_username : string)
    (tool : option (World -> Result A * World)) (w : World) : Response * World :=
  let botName := args_username in
  let (statusBefore, w1) := snapshot botName w in
  match tool with
  | None => (UnknownTool, w1)
  | Some run_tool =>
      match run_tool w1 with
      | (Throw e, w2) => (Failed e, w2)
      | (Ok action, w2) =>
          let (after, w3) := snapshot botName w2 in
          let delta :=
            match after, statusBefore with
            | Some a, Some b =>
                Some (mkDelta (st_health a - st_health b) (st_food a - st_food b)
                              (st_lastDamage a))
            | _, _ => None
            end in
          (Done action (if JsString.truthy botName then Some botName else None)
                after delta, w3)
      end
  end.

End Dispatcher.

(** Was the damage event [d] shown to the caller of this response? *)
Definition surfaces_damage {A} (r : @Response A) (d : Damage) : bool :=
  match r with
  | Done _ _ (Some st) _ =>
      match st_lastDamage st with
      | Some d' => String.eqb (dmg_from d') (dmg_from d) && (dmg_time d' =? dmg_time d)
      | None => false
      end
  | _ => false
  end.

Definition slots_clear (b : Bot) : Prop :=
  lastDamage b = None /\ lastBroken b = None /\ lastDefense b = None
  /\ lastDeath b = None /\ lastHungerWarning b = None.

(** Read-and-clear: the report carries the slots as they were, the bot is
    left with every slot [null], and a second read reports [null]. *)
Lemma getStatus_read_and_clear (b : Bot) :
  let (st, b') := getStatus b in
  st_lastDamage st = lastDamage b /\ st_lastBroken st = lastBroken b
  /\ st_lastDefense st = lastDefense b /\ st_lastDeath st = lastDeath b
  /\ st_lastHungerWarning st = lastHungerWarning b
  /\ slots_clear b'
  /\ (let (st2, b'') := getStatus b' in
      st_lastDamage st2 = None /\ st_lastBroken st2 = None
      /\ st_lastDefense st2 = None /\ st_lastDeath st2 = None
      /\ st_lastHungerWarning st2 = None /\ slots_clear b'').
Proof. unfold slots_clear. simpl. repeat split; reflexivity. Qed.

Lemma getStatus_after_damage (attacker : option string) (now : Z) (b : Bot) :
  let hurt := on_entityHurt attacker now b in
  st_lastDamage (fst (getStatus hurt))
    = Some (mkDamage (match attacker with Some n => n | None => "unknown"%string end) now)
  /\ st_lastDamage (fst (getStatus (snd (getStatus hurt)))) = None.
Proof. split; reflexivity. Qed.

Lemma get_set_same {V} (k : string) (v : V) (m : Registry.JsMap V) :
  Registry.has k m = true -> Registry.get k (Registry.set k v m) = Some v.
Proof.
  unfold Registry.has. induction m as [|[k0 v0] rest IH]; simpl; [discriminate|].
  destruct (String.eqb k0 k) eqn:E; simpl; rewrite E; [reflexivity|exact IH].
Qed.

(** Whatever was pending in the slots when a call for a registered bot
    starts is consumed by the snapshot taken before the action: a tool that
    leaves the bot alone answers with every slot [null]. *)
Lemma sendToolCall_drops_pending {A} (name : string) (b : Bot) (action : A) (w : World) :
  JsString.truthy name = true -> Registry.get name w = Some b ->
  let (r, w') := sendToolCall name (Some (fun w0 => (Ok action, w0))) w in
  (forall d, surfaces_damage r d = false)
  /\ exists b', Registry.get name w' = Some b' /\ slots_clear b'.
Proof.
  intros Ht Hg. unfold sendToolCall, snapshot. rewrite Ht, Hg. simpl.
  assert (Hhas : Registry.has name w = true) by (unfold Registry.has; now rewrite Hg).
  rewrite get_set_same by exact Hhas. simpl.
  split; [reflexivity|]. eexists. split.
  - apply get_set_same. unfold Registry.has. now rewrite get_set_same.
  - unfold slots_clear. simpl. auto.
Qed.

(** C2 (the code departs from the claim).  [getStatus] itself is
    read-and-clear, but [sendToolCall] also calls it for the snapshot taken
    before the action, whose slots are thrown away.  A bot hit while idle
    has the damage pending; the next call for that bot (here a tool that
    only reads, such as getPosition) answers with [lastDamage: null], and
    so does the call after it: the event reaches no caller. *)
Theorem sendToolCall_loses_pending_damage :
  let idle := mkBot 20 20 None None None None None [] true in
  let hurt := on_entityHurt (Some "zombie"%string) 1000 idle in
  let w := [("Agent"%string, hurt)] in
  let tool := Some (fun w0 : World => (Ok tt, w0)) in
  let (r1, w1) := sendToolCall "Agent" tool w in
  let (r2, w2) := sendToolCall "Agent" tool w1 in
  lastDamage hurt = Some (mkDamage "zombie" 1000)
  /\ surfaces_damage r1 (mkDamage "zombie" 1000) = false
  /\ surfaces_damage r2 (mkDamage "zombie" 1000) = false
  /\ r1 = Done tt (Some "Agent"%string)
            (Some (mkStatus 20 20 None None None None None []))
            (Some (mkDelta 0 0 None))
  /\ Registry.get "Agent" w2 = Some idle.
Proof. vm_compute. repeat split; reflexivity. Qed.

End Status.

(** ** Progress watchdog of the navigation loops *)

Module Watchdog.

Local Open Scope Z_scope.

(** [Math.max(a, b)] on doubles. *)
Definition js_max (a b : float) : float :=
  if PrimFloat.is_nan a then a
  else if PrimFloat.is_nan b then b
  else if PrimFloat.ltb a b then b else a.

(** [Math.max(1, range) + 0.5]: close enough to stop. *)
Definition reach (range : float) : float :=
  PrimFloat.add (js_max 1%float range) 0.5%float.

(** What one turn of the loop reads from the world, in reading order:
    [Date.now()] of the loop condition, the distance to the target,
    [Date.now()] stored on progress, [Date.now()] of the idle check. *)
Record Poll := mkPoll {
  t_cond : Z;
  dist : float;
  t_progress : Z;
  t_idle : Z
}.

Record Watch := mkWatch { best : float; lastProgressAt : Z }.

(** [if (dist + 0.25 < best) { best = dist; lastProgressAt = Date.now(); }] *)
Definition note_progress (w : Watch) (p : Poll) : Watch :=
  if PrimFloat.ltb (PrimFloat.add (dist p) 0.25%float) (best w)
  then mkWatch (dist p) (t_progress p)
  else w.

(** How the [while] loop is left. *)
Inductive LoopEnd :=
| Arrived            (* the distance test broke out of the loop *)
| IdleTooLong        (* the idle test fired *)
| DeadlinePassed.    (* the loop condition was false *)

(** The loop shared, statement for statement, by [pathfindToPredicate] and
    [goToKnownLocation]; they differ in what they do when the idle test
    fires.  [None]: the loop is still running when the readings end. *)
Fixpoint watch_loop (deadlineMs idleMs : Z) (range : float) (start : Z)
    (w : Watch) (polls : list Poll) : option LoopEnd :=
  match polls with
  | [] => None
  | p :: rest =>
      if negb (t_cond p - start <? deadlineMs) then Some DeadlinePassed
      else if PrimFloat.leb (dist p) (reach range) then Some Arrived
      else
        let w' := note_progress w p in
        if t_idle p - lastProgressAt w' >? idleMs then Some IdleTooLong
        else watch_loop deadlineMs idleMs range start w' rest
  end.

(** The readings of one navigation: [Date.now()] at [start], the turns of
    the loop, and what is read after the loop. *)
Record Readings := mkReadings {
  t_start : Z;
  polls : list Poll;
  t_after : Z;
  dist_after : float
}.

Definition initial_watch (r : Readings) : Watch := mkWatch infinity (t_start r).

(** [pathfindToPredicate], from [const start = Date.now()] on ([found]: the
    block search found a target). *)
Definition pathfindToPredicate (found : bool) (range : float) (timeoutMs : Z)
    (r : Readings) : option (Result unit) :=
  if negb found then Some (Throw "Target not found nearby")
  else
    match watch_loop timeoutMs 15000 range (t_start r) (initial_watch r) (polls r) with
    | None => None
    | Some IdleTooLong => Some (Throw "navigation_stalled")
    | Some _ =>
        if t_after r - t_start r >=? timeoutMs
        then Some (Throw "navigation_timeout")
        else Some (Ok tt)
    end.

Record GoToResult := mkGoTo {
  ok : bool;
  arrived : bool;
  distance : float;
  timedOut : bool
}.

(** [goToKnownLocation], from [const start = Date.now()] on. *)
Definition goToKnownLocation (range : float) (maxMs : Z) (r : Readings) : option GoToResult :=
  match watch_loop maxMs 15000 range (t_start r) (initial_watch r) (polls r) with
  | None => None
  | Some e =>
      let arrived := match e with Arrived => true | _ => false end in
      Some (mkGoTo arrived arrived (dist_after r) (negb arrived))
  end.

(** The bot does not move: readings every 250 ms, always 10 blocks away. *)
Fixpoint frozen_polls (n : nat) (t : Z) : list Poll :=
  match n with
  | O => []
  | S n' => mkPoll t 10%float t t :: frozen_polls n' (t + 250)
  end.

(** The bot creeps closer by half a block every 10 s and never arrives. *)
Definition creeping_polls : list Poll :=
  [ mkPoll 0 10%float 0 0; mkPoll 10000 9.5%float 10000 10000;
    mkPoll 20000 9%float 20000 20000; mkPoll 30000 8.5%float 30000 30000;
    mkPoll 40000 8%float 40000 40000; mkPoll 50000 7.5%float 50000 50000;
    mkPoll 60000 7%float 60000 60000 ].

(** The last-improvement time moves only on an improvement of more than a
    quarter block over the best distance seen. *)
Lemma note_progress_resets (w : Watch) (p : Poll) :
  note_progress w p
  = if PrimFloat.ltb (PrimFloat.add (dist p) 0.25%float) (best w)
    then mkWatch (dist p) (t_progress p) else w.
Proof. reflexivity. Qed.

(** When the idle test fires, the deadline had not passed at that turn and
    more than the idle window had gone by since the last improvement. *)
Lemma watch_loop_idle (deadlineMs idleMs : Z) (range : float) (start : Z)
    (w : Watch) (ps : list Poll) :
  watch_loop deadlineMs idleMs range start w ps = Some IdleTooLong ->
  exists p w', In p ps /\ t_cond p - start < deadlineMs
               /\ t_idle p - lastProgressAt w' > idleMs.
Proof.
  revert w. induction ps as [|p rest IH]; intros w; simpl; [discriminate|].
  destruct (t_cond p - start <? deadlineMs) eqn:Hc; simpl; [|discriminate].
  destruct (PrimFloat.leb (dist p) (reach range)); [discriminate|].
  destruct (t_idle p - lastProgressAt (note_progress w p) >? idleMs) eqn:Hi.
  - intros _. exists p, (note_progress w p). repeat split; [now left|lia|lia].
  - intros H. destruct (IH _ H) as (p' & w' & Hin & H1 & H2).
    exists p', w'. repeat split; [now right|lia|lia].
Qed.

(** When the loop is left because the deadline passed, no turn before that
    arrived and none saw the idle window exceeded. *)
Lemma watch_loop_deadline (deadlineMs idleMs : Z) (range : float) (start : Z)
    (w : Watch) (ps : list Poll) :
  watch_loop deadlineMs idleMs range start w ps = Some DeadlinePassed ->
  exists p, In p ps /\ deadlineMs <= t_cond p - start.
Proof.
  revert w. induction ps as [|p rest IH]; intros w; simpl; [discriminate|].
  destruct (t_cond p - start <? deadlineMs) eqn:Hc; simpl.
  - destruct (PrimFloat.leb (dist p) (reach range)); [discriminate|].
    destruct (t_idle p - lastProgressAt (note_progress w p) >? idleMs); [discriminate|].
    intros H. destruct (IH _ H) as (p' & Hin & H1). exists p'. split; [now right|lia].
  - intros _. exists p. split; [now left|lia].
Qed.

(** [pathfindToPredicate] keeps the two failures apart. *)
Lemma pathfindToPredicate_distinct (range : float) (timeoutMs : Z) (r : Readings) :
  match watch_loop timeoutMs 15000 range (t_start r) (initial_watch r) (polls r) with
  | Some IdleTooLong =>
      pathfindToPredicate true range timeoutMs r = Some (Throw "navigation_stalled")
  | Some DeadlinePassed =>
      timeoutMs <= t_after r - t_start r ->
      pathfindToPredicate true range timeoutMs r = Some (Throw "navigation_timeout")
  | Some Arrived =>
      t_after r - t_start r < timeoutMs ->
      pathfindToPredicate true range timeoutMs r = Some (Ok tt)
  | None => pathfindToPredicate true range timeoutMs r = None
  end.
Proof.
  unfold pathfindToPredicate. simpl.
  destruct (watch_loop _ _ _ _ _ _) as [[| |]|]; try reflexivity; intros H.
  - destruct (t_after r - t_start r >=? timeoutMs) eqn:E; [lia|reflexivity].
  - destruct (t_after r - t_start r >=? timeoutMs) eqn:E; [reflexivity|lia].
Qed.

(** [goToKnownLocation] does not: however the loop was left short of the
    target, the answer is [timedOut: true]. *)
Lemma goToKnownLocation_conflates (range : float) (maxMs : Z) (r : Readings) (g : GoToResult) :
  goToKnownLocation range maxMs r = Some g ->
  timedOut g = negb (arrived g) /\ ok g = arrived g.
Proof.
  unfold goToKnownLocation.
  destruct (watch_loop _ _ _ _ _ _); [|discriminate].
  intros H. inversion H. simpl. auto.
Qed.

(** C5 (the code departs from the claim).  The watchdog loop tells a stall
    from a passed deadline, and [pathfindToPredicate] reports them as
    'navigation_stalled' and 'navigation_timeout'.  [goToKnownLocation]
    runs the same loop but answers [timedOut: !arrived]: a bot frozen 10
    blocks from the target leaves the loop on the idle test after 15.25 s
    of a 60 s budget and is reported [timedOut: true], exactly as a bot
    that kept creeping closer until the 60 s deadline. *)
Theorem goToKnownLocation_reports_stall_as_timeout :
  let frozen := mkReadings 0 (frozen_polls 80 0) 15250 10%float in
  let creeping := mkReadings 0 creeping_polls 60000 7%float in
  watch_loop 60000 15000 1%float 0 (initial_watch frozen) (polls frozen) = Some IdleTooLong
  /\ watch_loop 60000 15000 1%float 0 (initial_watch creeping) (polls creeping) = Some DeadlinePassed
  /\ pathfindToPredicate true 1%float 60000 frozen = Some (Throw "navigation_stalled")
  /\ pathfindToPredicate true 1%float 60000 creeping = Some (Throw "navigation_timeout")
  /\ goToKnownLocation 1%float 60000 frozen = Some (mkGoTo false false 10%float true)
  /\ goToKnownLocation 1%float 60000 creeping = Some (mkGoTo false false 7%float true).
Proof. vm_compute. repeat split; reflexivity. Qed.

End Watchdog.

(** ** Auto-shield: the projectile scan and the damage reaction *)

Module AutoShield.

Local Open Scope Z_scope.

(** [bot.__autoShield] *)
Record Config := mkConfig { enabled : bool; durationMs : option Z }.

(** An entry of [bot.entities]: its names and, when it has a position, its
    distance to the bot ([e.position.distanceTo(bot.entity.position)]). *)
Record Entity := mkEntity {
  e_name : option string;
  e_displayName : option string;
  e_distance : option float
}.

Record Bot := mkBot {
  autoShield : option Config;
  shieldLastRaised : option Z
}.

(** As [joinGame] leaves the bot. *)
Definition joined : Bot := mkBot (Some (mkConfig true (Some 800))) None.

(** The period of the scan timer: [setInterval(.., 400)]. *)
Definition scan_interval_ms : Z := 400.

(** [String(e.name || e.displayName || '').toLowerCase()] *)
Definition entity_label (e : Entity) : string :=
  let pick (o : option string) :=
    match o with Some s => if JsString.truthy s then Some s else None | None => None end in
  JsString.toLowerCase
    match pick (e_name e) with
    | Some s => s
    | None => match pick (e_displayName e) with Some s => s | None => ""%string end
    end.

Definition isProj (n : string) : bool :=
  JsString.includes n "arrow" || JsString.includes n "trident"
  || JsString.includes n "snowball" || JsString.includes n "fireball"
  || JsString.includes n "projectile".

(** The callback of [Object.values(bot.entities).some(..)]; a [None] entry
    is a missing entity. *)
Definition is_near_projectile (oe : option Entity) : bool :=
  match oe with
  | None => false
  | Some e =>
      match e_distance e with
      | None => false
      | Some d => if isProj (entity_label e) then PrimFloat.leb d 6%float else false
      end
  end.

(** [Number(as.durationMs ?? 800)] *)
Definition duration_of (c : Config) : Z :=
  match durationMs c with Some d => d | None => 800 end.

(** Who asked for the shield to be raised. *)
Inductive Source := Poller | Damage.

(** A call of [raiseShieldFor(bot, duration)]. *)
Record Raise := mkRaise { source : Source; at_time : Z; duration : Z }.

(** One firing of the [__shieldScan] interval ([setInterval(.., 400)]);
    [now] is its [Date.now()]. *)
Definition scan_tick (now : Z) (entities : list (option Entity)) (b : Bot)
  : option Raise * Bot :=
  match autoShield b with
  | None => (None, b)
  | Some cfg =>
      if negb (enabled cfg) then (None, b)
      else
        let last := match shieldLastRaised b with Some t => t | None => 0 end in
        if now - last <? 600 then (None, b)
        else if existsb is_near_projectile entities
             then (Some (mkRaise Poller now (duration_of cfg)),
                   mkBot (autoShield b) (Some now))
             else (None, b)
  end.

(** The auto-shield block of the ["entityHurt"] handler. *)
Definition hurt_shield (now : Z) (b : Bot) : option Raise * Bot :=
  match autoShield b with
  | Some cfg => if enabled cfg
                then (Some (mkRaise Damage now (duration_of cfg)), b)
                else (None, b)
  | None => (None, b)
  end.

(** The [autoShield] tool. *)
Definition configure (enable : bool) (d : option Z) (b : Bot) : Bot :=
  mkBot (Some (mkConfig enable (Some (match d with Some x => x | None => 800 end))))
        (shieldLastRaised b).

Inductive Event :=
| ScanTick (now : Z) (entities : list (option Entity))
| Hurt (now : Z)
| Configure (enable : bool) (d : option Z).

Definition handle (e : Event) (b : Bot) : option Raise * Bot :=
  match e with
  | ScanTick now ents => scan_tick now ents b
  | Hurt now => hurt_shield now b
  | Configure en d => (None, configure en d b)
  end.

(** The raises a sequence of events produces, in order, and the bot after. *)
Fixpoint run (evs : list Event) (b : Bot) : list Raise * Bot :=
  match evs with
  | [] => ([], b)
  | e :: rest =>
      let (r, b') := handle e b in
      let (rs, b'') := run rest b' in
      (match r with Some x => x :: rs | None => rs end, b'')
  end.

Definition by_poller (r : Raise) : bool :=
  match source r with Poller => true | Damage => false end.

Definition poller_times (rs : list Raise) : list Z :=
  map at_time (List.filter by_poller rs).

(** Every time in the list is at least 600 ms after [t], and consecutive
    times are at least 600 ms apart. *)
Fixpoint spaced_after (t : Z) (ts : list Z) : Prop :=
  match ts with
  | [] => True
  | t' :: rest => t + 600 <= t' /\ spaced_after t' rest
  end.

Definition last_or_zero (b : Bot) : Z :=
  match shieldLastRaised b with Some t => t | None => 0 end.

Lemma spaced_after_all (t : Z) (ts : list Z) :
  spaced_after t ts -> forall t', In t' ts -> t + 600 <= t'.
Proof.
  revert t. induction ts as [|a rest IH]; simpl; intros t H t' Hin; [done|].
  destruct H as [H1 H2]. destruct Hin as [<-|Hin]; [exact H1|].
  specialize (IH _ H2 _ Hin). lia.
Qed.

Lemma handle_last (e : Event) (b : Bot) :
  match fst (handle e b) with
  | Some r =>
      if by_poller r
      then last_or_zero b + 600 <= at_time r /\ last_or_zero (snd (handle e b)) = at_time r
      else last_or_zero (snd (handle e b)) = last_or_zero b
  | None => last_or_zero (snd (handle e b)) = last_or_zero b
  end.
Proof.
  destruct e as [now ents|now|en d]; simpl; [| |reflexivity].
  - unfold scan_tick. destruct (autoShield b) as [cfg|]; [|reflexivity].
    destruct (enabled cfg); simpl; [|reflexivity].
    fold (last_or_zero b).
    destruct (now - last_or_zero b <? 600) eqn:E; [reflexivity|].
    destruct (existsb is_near_projectile ents); simpl; [|reflexivity].
    split; [lia|reflexivity].
  - unfold hurt_shield. destruct (autoShield b) as [cfg|]; [|reflexivity].
    destruct (enabled cfg); reflexivity.
Qed.

(** The raises the poller makes in any run are at least 600 ms after the
    last raise recorded before the run, and 600 ms apart from each other. *)
Lemma run_spaced (evs : list Event) (b : Bot) :
  spaced_after (last_or_zero b) (poller_times (fst (run evs b))).
Proof.
  revert b. induction evs as [|e rest IH]; intros b; simpl; [exact I|].
  pose proof (handle_last e b) as H.
  destruct (handle e b) as [r b'] eqn:Hh. simpl in H.
  specialize (IH b'). destruct (run rest b') as [rs b''] eqn:Hr. simpl in *.
  destruct r as [r|].
  - unfold poller_times. simpl. destruct (by_poller r) eqn:Hp.
    + simpl. destruct H as [H1 H2].
      split; [exact H1|]. rewrite <- H2. exact IH.
    + rewrite <- H. exact IH.
  - rewrite <- H. exact IH.
Qed.

(** Of two firings of the scan less than 600 ms apart, whatever the
    entities around the bot and whatever happens in between (further
    firings, hits, reconfiguration), at most one raises the shield: if the
    first raised, the second returns at the rate-limit test and leaves the
    bot as it was. *)
Lemma close_scans_raise_once (before between : list Event)
    (now1 now2 : Z) (ents1 ents2 : list (option Entity)) (b0 : Bot) :
  now2 - now1 < 600 ->
  let b1 := snd (run before b0) in
  let first := scan_tick now1 ents1 b1 in
  let b2 := snd (run between (snd first)) in
  let second := scan_tick now2 ents2 b2 in
  (fst first = None \/ fst second = None)
  /\ (fst first <> None -> fst second = None /\ snd second = b2)
  /\ (forall r, fst first = Some r ->
        existsb is_near_projectile ents1 = true
        /\ source r = Poller /\ at_time r = now1
        /\ shieldLastRaised (snd first) = Some now1).
Proof.
  intros Hclose b1 first b2 second.
  assert (Hraise : forall r, fst first = Some r ->
            existsb is_near_projectile ents1 = true
            /\ source r = Poller /\ at_time r = now1
            /\ shieldLastRaised (snd first) = Some now1).
  { intros r. subst first. unfold scan_tick.
    destruct (autoShield b1) as [cfg|]; [|discriminate].
    destruct (enabled cfg); [|discriminate]. simpl.
    destruct (now1 - _ <? 600); [discriminate|].
    destruct (existsb is_near_projectile ents1); [|discriminate].
    simpl. intros H. inversion H. auto. }
  assert (Hskip : fst first <> None -> fst second = None /\ snd second = b2).
  { intros Hraised.
    assert (Hlast : last_or_zero (snd first) = now1).
    { subst first. unfold scan_tick in *. destruct (autoShield b1) as [cfg|]; [|done].
      destruct (enabled cfg); [|done]. simpl in *.
      destruct (now1 - _ <? 600); [done|].
      destruct (existsb is_near_projectile ents1); [reflexivity|done]. }
    pose proof (run_spaced between (snd first)) as Hsp. rewrite Hlast in Hsp.
    assert (Hb2 : now1 <= last_or_zero b2).
    { subst b2. clear -Hsp Hlast. revert Hsp Hlast.
      generalize (snd first) as b. generalize now1 as t.
      induction between as [|e rest IH]; intros t b Hsp Hlast; simpl; [lia|].
      simpl in Hsp. pose proof (handle_last e b) as H.
      destruct (handle e b) as [r b'] eqn:Hh. simpl in H.
      destruct (run rest b') as [rs b''] eqn:Hr. simpl in *.
      specialize (IH (last_or_zero b') b'). rewrite Hr in IH. simpl in IH.
      destruct r as [r|].
      - unfold poller_times in Hsp. simpl in Hsp. destruct (by_poller r) eqn:Hp.
        + simpl in Hsp.
          destruct H as [H1 H2]. destruct Hsp as [Hs1 Hs2].
          rewrite <- H2 in Hs2. specialize (IH Hs2 eq_refl). lia.
        + rewrite <- Hlast, <- H in Hsp. specialize (IH Hsp eq_refl). lia.
      - rewrite <- Hlast, <- H in Hsp. specialize (IH Hsp eq_refl). lia. }
    subst second. unfold scan_tick. destruct (autoShield b2) as [cfg|]; [|done].
    destruct (enabled cfg); [|done]. simpl. fold (last_or_zero b2).
    destruct (now2 - last_or_zero b2 <? 600) eqn:E; [done|]. lia. }
  split; [|split; [exact Hskip|exact Hraise]].
  destruct (fst first) eqn:Hf; [right|now left].
  apply Hskip. discriminate.
Qed.

(** The damage reaction neither consults nor updates the poller's
    [__shieldLastRaised]: it raises the shield on every hit. *)
Lemma hurt_shield_unlimited (now : Z) (b : Bot) (cfg : Config) :
  autoShield b = Some cfg -> enabled cfg = true ->
  hurt_shield now b = (Some (mkRaise Damage now (duration_of cfg)), b).
Proof. intros H1 H2. unfold hurt_shield. now rewrite H1, H2. Qed.

(** *** The scan's condition in the specification's words *)

Definition projectile_words : list string :=
  ["arrow"; "trident"; "snowball"; "fireball"; "projectile"]%string.

(** A projectile entity within [radius] of the bot: an entity that is
    there, has a position at distance at most [radius], and whose name (or
    display name when it has no name), in lower case, contains one of the
    projectile words. *)
Definition projectile_within (radius : float) (oe : option Entity) : Prop :=
  exists e d, oe = Some e /\ e_distance e = Some d
              /\ PrimFloat.leb d radius = true
              /\ exists w, In w projectile_words
                           /\ JsString.includes (entity_label e) w = true.

Lemma is_near_projectile_spec (oe : option Entity) :
  is_near_projectile oe = true <-> projectile_within 6%float oe.
Proof.
  unfold projectile_within, is_near_projectile, projectile_words. split.
  - destruct oe as [e|]; [|discriminate].
    destruct (e_distance e) as [d|] eqn:Hd; [|discriminate].
    destruct (isProj (entity_label e)) eqn:Hp; [|discriminate].
    intros Hle. exists e, d. repeat split; auto.
    unfold isProj in Hp.
    repeat (apply orb_true_iff in Hp as [Hp|Hp]);
      eexists; (split; [|exact Hp]); simpl; tauto.
  - intros (e & d & -> & Hd & Hle & w & Hw & Hinc). rewrite Hd.
    assert (Hp : isProj (entity_label e) = true).
    { unfold isProj. simpl in Hw.
      destruct Hw as [<-|[<-|[<-|[<-|[<-|[]]]]]]; rewrite Hinc;
        rewrite ?orb_true_r; reflexivity. }
    now rewrite Hp.
Qed.

(** Every raise the scan makes answers a firing of the scan, at that time,
    that found a nearby projectile among the entities. *)
Lemma poller_raise_from_scan (evs : list Event) (b : Bot) (r : Raise) :
  In r (fst (run evs b)) -> source r = Poller ->
  exists ents, In (ScanTick (at_time r) ents) evs
               /\ existsb is_near_projectile ents = true.
Proof.
  revert b. induction evs as [|e rest IH]; intros b; simpl; [intros []|].
  destruct (handle e b) as [r0 b'] eqn:Hh.
  specialize (IH b'). destruct (run rest b') as [rs b''] eqn:Hr. simpl in *.
  assert (Hrest : In r rs -> source r = Poller ->
            exists ents, (e = ScanTick (at_time r) ents \/ In (ScanTick (at_time r) ents) rest)
                         /\ existsb is_near_projectile ents = true).
  { intros Hin Hs. destruct (IH Hin Hs) as (ents & H1 & H2). exists ents. auto. }
  destruct r0 as [r0|]; [|exact Hrest].
  intros [<-|Hin] Hs; [|now apply Hrest].
  destruct e as [now ents|now|en d]; simpl in Hh.
  - unfold scan_tick in Hh. destruct (autoShield b) as [cfg|]; [|discriminate].
    destruct (enabled cfg); [|discriminate]. simpl in Hh.
    destruct (_ <? 600); [discriminate|].
    destruct (existsb is_near_projectile ents) eqn:E; [|discriminate].
    inversion Hh. subst r0. simpl. exists ents. auto.
  - unfold hurt_shield in Hh. destruct (autoShield b) as [cfg|]; [|discriminate].
    destruct (enabled cfg); [|discriminate]. inversion Hh. subst r0. discriminate.
  - discriminate.
Qed.

(** Times that are 600 ms apart: a window shorter than 600 ms holds at most
    one of them. *)
Definition in_window (lo hi t : Z) : bool := (lo <=? t) && (t <=? hi).

Lemma spaced_window (lo hi t : Z) (ts : list Z) :
  hi - lo < 600 -> spaced_after t ts ->
  (length (List.filter (in_window lo hi) ts) <= 1)%nat.
Proof.
  intros Hw. revert t. induction ts as [|a rest IH]; intros t; simpl; [lia|].
  intros [Ha Hrest]. destruct (in_window lo hi a) eqn:E; [|now apply (IH a)].
  assert (Hnone : List.filter (in_window lo hi) rest = []).
  { pose proof (spaced_after_all _ _ Hrest) as Hall.
    clear -Hall E Hw. unfold in_window in *. apply andb_true_iff in E as [E1 E2].
    induction rest as [|x rest IH]; simpl; [reflexivity|].
    assert (a + 600 <= x) by (apply Hall; now left).
    replace (x <=? hi) with false by (symmetry; apply Z.leb_gt; lia).
    rewrite andb_false_r. apply IH. intros t' Hin. apply Hall. now right. }
  rewrite Hnone. simpl. lia.
Qed.

(** C9, as stated, fails: the damage reaction raises the shield without
    looking at the time of the last raise.  The scan sees an arrow 3
    blocks away at time 1000 and raises the shield; the bot is hit 100 ms
    later and the shield is raised again: two qualifying triggers less
    than 600 ms apart, two raises. *)
Lemma auto_shield_hit_within_600ms_raises_again :
  let arrow := [Some (mkEntity (Some "arrow"%string) None (Some 3%float))] in
  fst (run [ScanTick 1000 arrow; Hurt 1100] joined)
  = [mkRaise Poller 1000 800; mkRaise Damage 1100 800].
Proof. vm_compute. reflexivity. Qed.

(** C9 (amended).  The scan runs on a 400 ms timer and raises the shield
    only when it finds a projectile entity within 6 blocks, and it is
    rate-limited: whatever reaches the bot (firings of the scan, hits,
    reconfiguration, in any order and at any times), the raises made by
    the scan are at least 600 ms apart, so any window shorter than 600 ms
    holds at most one of them: of two firings of the scan that find a
    projectile less than 600 ms apart only one raises the shield.  (The
    raise made by the damage reaction is not part of the limit.) *)
Theorem auto_shield_rate_limit (evs : list Event) (b0 : Bot) (lo hi : Z) :
  hi - lo < 600 ->
  let raises := fst (run evs b0) in
  scan_interval_ms = 400
  /\ (length (List.filter (in_window lo hi) (poller_times raises)) <= 1)%nat
  /\ spaced_after (last_or_zero b0) (poller_times raises)
  /\ (forall r, In r raises -> source r = Poller ->
        exists ents oe, In (ScanTick (at_time r) ents) evs
                        /\ In oe ents /\ projectile_within 6%float oe).
Proof.
  intros Hw raises.
  pose proof (run_spaced evs b0) as Hsp. fold raises in Hsp.
  split; [reflexivity|]. split; [now apply (spaced_window lo hi (last_or_zero b0))|].
  split; [exact Hsp|].
  intros r Hin Hs. destruct (poller_raise_from_scan evs b0 r Hin Hs) as (ents & H1 & H2).
  apply existsb_exists in H2 as (oe & Hoe & Hnear).
  exists ents, oe. split; [exact H1|]. split; [exact Hoe|].
  now apply is_near_projectile_spec.
Qed.

(** Two consecutive firings of the timer with an arrow 3 blocks away, and
    a hit between them: the first firing raises the shield, the second,
    400 ms later, does not. *)
Lemma auto_shield_rate_limit_witness :
  let arrow := [Some (mkEntity (Some "arrow"%string) None (Some 3%float))] in
  let t := 1700000000000 in
  let evs := [ScanTick t arrow; Hurt (t + 100); ScanTick (t + scan_interval_ms) arrow] in
  (t + scan_interval_ms) - t < 600
  /\ fst (run evs joined) = [mkRaise Poller t 800; mkRaise Damage (t + 100) 800]
  /\ (length (List.filter (in_window t (t + scan_interval_ms))
                (poller_times (fst (run evs joined)))) <= 1)%nat.
Proof.
  intros arrow t evs.
  assert (Hclose : (t + scan_interval_ms) - t < 600) by (unfold scan_interval_ms; lia).
  split; [exact Hclose|]. split; [vm_compute; reflexivity|].
  exact (proj1 (proj2 (auto_shield_rate_limit evs joined t (t + scan_interval_ms) Hclose))).
Defined.

End AutoShield.

(** ** Crafting planner ([craftItems] and its helpers) *)

Module Crafting.

Local Open Scope Z_scope.

Record Item := mkItem { item_name : string; item_type : Z; item_count : Z }.

(** An entry of [recipe.ingredients] or a cell of [recipe.inShape];
    [ri_count = None] is a missing [count]. *)
Record RecipeItem := mkRI { ri_id : Z; ri_count : option Z }.

(** [ingredients] and [inShape] are arrays or absent; an entry, a row or a
    cell can be missing ([null]). *)
Record Recipe := mkRecipe {
  ingredients : option (list (option RecipeItem));
  inShape : option (list (option (list (option RecipeItem))));
  requiresTable : bool
}.

Record Missing := mkMissing { m_id : Z; m_name : string; m_count : Z }.

(** [m[id] || 0] *)
Definition at_or_zero (m : gmap Z Z) (id : Z) : Z :=
  match m !! id with Some v => v | None => 0 end.

(** [m[id] = (m[id] || 0) + c] *)
Definition bump (m : gmap Z Z) (id c : Z) : gmap Z Z :=
  <[id := at_or_zero m id + c]> m.

(** [ing.count ?? 1] *)
Definition count_or_one (i : RecipeItem) : Z :=
  match ri_count i with Some c => c | None => 1 end.

(** [for (const it of bot.inventory.items()) invMap[it.type] = (invMap[it.type] || 0) + it.count] *)
Definition invMap (inv : list Item) : gmap Z Z :=
  fold_left (fun m it => bump m (item_type it) (item_count it)) inv ∅.

(** The two loops of [computeMaxCraftable] that fill [perUnitReq]. *)
Definition add_ingredients (weight : Z -> Z) (ings : option (list (option RecipeItem)))
    (m : gmap Z Z) : gmap Z Z :=
  match ings with
  | None => m
  | Some l =>
      fold_left (fun m oi => match oi with
                             | None => m
                             | Some ing => bump m (ri_id ing) (weight (count_or_one ing))
                             end) l m
  end.

Definition add_row (one : Z) (m : gmap Z Z) (row : list (option RecipeItem)) : gmap Z Z :=
  fold_left (fun m oc => match oc with
                         | None => m
                         | Some cell => bump m (ri_id cell) one
                         end) row m.

Definition add_shape (one : Z) (shape : option (list (option (list (option RecipeItem)))))
    (m : gmap Z Z) : gmap Z Z :=
  match shape with
  | None => m
  | Some rows =>
      fold_left (fun m orow => match orow with
                               | None => m
                               | Some row => add_row one m row
                               end) rows m
  end.

(** [perUnitReq] of [computeMaxCraftable]. *)
Definition perUnitReq (r : Recipe) : gmap Z Z :=
  add_shape 1 (inShape r) (add_ingredients (fun c => c) (ingredients r) ∅).

(** [reqMap] of [computeMissingFor(units)]. *)
Definition reqMap (r : Recipe) (units : Z) : gmap Z Z :=
  add_shape (1 * units) (inShape r)
            (add_ingredients (fun c => c * units) (ingredients r) ∅).

Section Planner.

(** [(mcData.items[id]?.name) || String(id)] *)
Variable name_of : Z -> string.

(** The entries [{ id, name, count: need - have }] pushed for the keys of
    [req] with [have < need]. *)
Definition shortfalls (req inv : gmap Z Z) : list Missing :=
  omap (fun '(id, need) =>
          let have := at_or_zero inv id in
          if have <? need then Some (mkMissing id (name_of id) (need - have)) else None)
       (map_to_list req).

Definition computeMissingFor (r : Recipe) (inv : list Item) (units : Z) : list Missing :=
  shortfalls (reqMap r units) (invMap inv).

(** The loop [max = Math.min(max, Math.floor(have / needPer))] over the
    keys of [perUnitReq], for requirements other than 0 (where the
    quotient of the source is not a number the model has). *)
Definition min_units (req inv : gmap Z Z) (limit : Z) : Z :=
  fold_left (fun acc '(id, needPer) => Z.min acc (at_or_zero inv id / needPer))
            (map_to_list req) limit.

(** [computeMaxCraftable(unitsLimit)] for a finite [unitsLimit]. *)
Definition computeMaxCraftable (r : Recipe) (inv : list Item) (unitsLimit : Z)
  : Z * list Missing :=
  let req := perUnitReq r in
  let max := min_units req (invMap inv) unitsLimit in
  let missing := if max <=? 0 then shortfalls req (invMap inv) else [] in
  (Z.max 0 (Z.min max unitsLimit), missing).

(** What one turn of the crafting loop reads from the world. *)
Inductive CraftOutcome :=
| CraftResolved (inv_now : Z)     (* [bot.craft] resolved; the item count read after it *)
| CraftRejected (msg : string).   (* [craftWithTimeout] rejected *)

Record Attempt := mkAttempt {
  a_t_cond : Z;             (* [Date.now()] of the loop condition *)
  a_outcome : CraftOutcome;
  a_t_progress : Z;         (* [Date.now()] stored on progress *)
  a_t_idle : Z              (* [Date.now()] of the idle check *)
}.

Record CraftState := mkCraftState {
  crafted : Z;
  lastProgressAt : Z;
  reason : option string;
  errors : list string
}.

(** [reason = reason || r] *)
Definition reason_or (s : option string) (r : string) : option string :=
  match s with
  | Some x => if JsString.truthy x then Some x else Some r
  | None => Some r
  end.

(** The [while (crafted < count && Date.now() < deadline)] loop; [None]:
    still running when the readings end. *)
Fixpoint craft_loop (count deadline countBefore : Z) (st : CraftState)
    (attempts : list Attempt) : option CraftState :=
  if negb (crafted st <? count) then Some st
  else
    match attempts with
    | [] => None
    | a :: rest =>
        if negb (a_t_cond a <? deadline) then Some st
        else
          match a_outcome a with
          | CraftResolved now =>
              let delta := Z.max 0 (now - (countBefore + crafted st)) in
              if delta <=? 0
              then Some (mkCraftState (crafted st) (lastProgressAt st)
                           (reason_or (reason st) "unknown")
                           (errors st ++ ["no_output_from_craft"%string]))
              else
                let st' := mkCraftState (crafted st + delta) (a_t_progress a)
                                        (reason st) (errors st) in
                if a_t_idle a - lastProgressAt st' >? 12000
                then Some (mkCraftState (crafted st') (lastProgressAt st')
                             (reason_or (reason st') "craft_stalled") (errors st'))
                else craft_loop count deadline countBefore st' rest
          | CraftRejected msg =>
              let r := if JsString.includes msg "timeout" || JsString.includes msg "craft_timeout"
                       then Some "craft_timeout"%string
                       else reason_or (reason st) "missing_resources" in
              Some (mkCraftState (crafted st) (lastProgressAt st) r (errors st ++ [msg]))
          end
    end.

Record CraftResult := mkResult {
  ok : bool;
  requested : Z;
  res_crafted : Z;
  remaining : Z;
  usedTable : bool;
  timedOut : bool;
  res_reason : option string;
  missingItems : list Missing;
  res_errors : list string
}.

(** The readings of one [craftItems] call once a recipe is selected. *)
Record Readings := mkReadings {
  t_deadline : Z;            (* [Date.now()] the deadline is computed from *)
  countBefore : Z;           (* [invCountByName(item.name)] before the loop *)
  t_loop : Z;                (* [Date.now()] stored in [lastProgressAt] *)
  attempts : list Attempt;
  t_end : Z;                 (* [Date.now()] of [timedOut] *)
  inv_end : list Item        (* the inventory [computeMissingFor] reads *)
}.

(** [craftItems] from [const errors = []] to its [return], for the selected
    [recipe]; [maxMs = None] is an absent [params.maxMs]. *)
Definition craftItems (recipe : Recipe) (count : Z) (maxMs : option Z)
    (tableBlock : bool) (rd : Readings) : option CraftResult :=
  let deadline := t_deadline rd + match maxMs with Some x => x | None => 60000 end in
  match craft_loop count deadline (countBefore rd)
                   (mkCraftState 0 (t_loop rd) None []) (attempts rd) with
  | None => None
  | Some st =>
      let crafted := crafted st in
      let timedOut := (t_end rd >=? deadline) && (crafted <? count) in
      let missingItems :=
        if crafted <? count
        then computeMissingFor recipe (inv_end rd) (Z.max 1 (count - crafted))
        else [] in
      Some (mkResult (0 <? crafted) count crafted (Z.max 0 (count - crafted))
                     tableBlock timedOut (reason st) missingItems (errors st))
  end.

End Planner.

(** *** The planner in the specification's words *)

(** The entries of the shapeless ingredient list, and the cells of the
    shaped grid, that are present. *)
Definition ingredient_entries (r : Recipe) : list RecipeItem :=
  match ingredients r with
  | None => []
  | Some l => omap (fun x => x) l
  end.

Definition shape_cells (r : Recipe) : list RecipeItem :=
  match inShape r with
  | None => []
  | Some rows =>
      concat (map (fun orow => match orow with
                               | None => []
                               | Some row => omap (fun x => x) row
                               end) rows)
  end.

(** The sum of [f] over the entries whose id is [id]. *)
Fixpoint sum_where (id : Z) (f : RecipeItem -> Z) (es : list RecipeItem) : Z :=
  match es with
  | [] => 0
  | e :: rest => (if ri_id e =? id then f e else 0) + sum_where id f rest
  end.

(** Per-unit requirement of ingredient [id]: the counts of its ingredient
    entries, plus one for each grid cell that holds it. *)
Definition required_units (r : Recipe) (id : Z) : Z :=
  sum_where id count_or_one (ingredient_entries r)
  + sum_where id (fun _ => 1) (shape_cells r).

Definition is_required (r : Recipe) (id : Z) : bool :=
  existsb (fun e => ri_id e =? id) (ingredient_entries r ++ shape_cells r).

(** Quantity of item [id] in the inventory: the counts of its stacks. *)
Fixpoint available (inv : list Item) (id : Z) : Z :=
  match inv with
  | [] => 0
  | it :: rest => (if item_type it =? id then item_count it else 0) + available rest id
  end.

(** Every ingredient entry asks for a positive count. *)
Definition positive_counts (r : Recipe) : Prop :=
  Forall (fun e => 0 < count_or_one e) (ingredient_entries r).

(** *** Bookkeeping in the maps *)

Definition bump_all (es : list (Z * Z)) (m : gmap Z Z) : gmap Z Z :=
  fold_left (fun m '(i, c) => bump m i c) es m.

Fixpoint total_for (id : Z) (es : list (Z * Z)) : Z :=
  match es with
  | [] => 0
  | (i, c) :: rest => (if i =? id then c else 0) + total_for id rest
  end.

Lemma at_or_zero_bump (m : gmap Z Z) (i c id : Z) :
  at_or_zero (bump m i c) id = at_or_zero m id + (if i =? id then c else 0).
Proof.
  unfold bump, at_or_zero at 1. destruct (Z.eqb_spec i id) as [->|Hne].
  - now rewrite lookup_insert_eq.
  - rewrite lookup_insert_ne by done. unfold at_or_zero. destruct (m !! id); lia.
Qed.

Lemma bump_is_Some (m : gmap Z Z) (i c id : Z) :
  is_Some (bump m i c !! id) <-> is_Some (m !! id) \/ i = id.
Proof.
  unfold bump. destruct (decide (i = id)) as [->|Hne].
  - rewrite lookup_insert_eq. split; [now right | intros _; eauto].
  - rewrite lookup_insert_ne by done. split; [now left | intros [?|?]; done].
Qed.

Lemma bump_all_total (es : list (Z * Z)) (m : gmap Z Z) (id : Z) :
  at_or_zero (bump_all es m) id = at_or_zero m id + total_for id es.
Proof.
  revert m. induction es as [|[i c] rest IH]; intros m; simpl; [lia|].
  unfold bump_all in *. simpl. rewrite IH, at_or_zero_bump. lia.
Qed.

Lemma bump_all_is_Some (es : list (Z * Z)) (m : gmap Z Z) (id : Z) :
  is_Some (bump_all es m !! id)
  <-> is_Some (m !! id) \/ existsb (fun e => fst e =? id) es = true.
Proof.
  revert m. induction es as [|[i c] rest IH]; intros m; simpl.
  - split; [now left | intros [?|?]; done].
  - unfold bump_all in *. simpl. rewrite IH, bump_is_Some.
    destruct (Z.eqb_spec i id); simpl; tauto.
Qed.

Lemma bump_all_app (es1 es2 : list (Z * Z)) (m : gmap Z Z) :
  bump_all (es1 ++ es2) m = bump_all es2 (bump_all es1 m).
Proof. unfold bump_all. apply fold_left_app. Qed.

Lemma total_for_app (id : Z) (es1 es2 : list (Z * Z)) :
  total_for id (es1 ++ es2) = total_for id es1 + total_for id es2.
Proof. induction es1 as [|[i c] rest IH]; simpl; lia. Qed.

(** The pairs the loops add, in the order they add them. *)
Definition weighted (f : RecipeItem -> Z) (es : list RecipeItem) : list (Z * Z) :=
  map (fun e => (ri_id e, f e)) es.

Lemma add_ingredients_flat (w : Z -> Z) (r : Recipe) (m : gmap Z Z) :
  add_ingredients w (ingredients r) m
  = bump_all (weighted (fun e => w (count_or_one e)) (ingredient_entries r)) m.
Proof.
  unfold add_ingredients, ingredient_entries. destruct (ingredients r) as [l|]; [|reflexivity].
  revert m. induction l as [|[e|] rest IH]; intros m; simpl; [reflexivity| |]; apply IH.
Qed.

Lemma add_row_flat (one : Z) (row : list (option RecipeItem)) (m : gmap Z Z) :
  add_row one m row = bump_all (weighted (fun _ => one) (omap (fun x => x) row)) m.
Proof.
  unfold add_row. revert m.
  induction row as [|[e|] rest IH]; intros m; simpl; [reflexivity| |]; apply IH.
Qed.

Lemma add_shape_flat (one : Z) (r : Recipe) (m : gmap Z Z) :
  add_shape one (inShape r) m = bump_all (weighted (fun _ => one) (shape_cells r)) m.
Proof.
  unfold add_shape, shape_cells. destruct (inShape r) as [rows|]; [|reflexivity].
  revert m. induction rows as [|orow rest IH]; intros m; [reflexivity|].
  cbn [fold_left map concat]. rewrite IH. destruct orow as [row|].
  - unfold weighted at 2. rewrite map_app, bump_all_app.
    now rewrite add_row_flat.
  - reflexivity.
Qed.

Lemma total_for_weighted (id : Z) (f : RecipeItem -> Z) (es : list RecipeItem) :
  total_for id (weighted f es) = sum_where id f es.
Proof. induction es as [|e rest IH]; simpl; [reflexivity|]. now rewrite IH. Qed.

Lemma existsb_weighted (id : Z) (f : RecipeItem -> Z) (es : list RecipeItem) :
  existsb (fun e => fst e =? id) (weighted f es) = existsb (fun e => ri_id e =? id) es.
Proof. induction es as [|e rest IH]; simpl; [reflexivity|]. now rewrite IH. Qed.

Lemma sum_where_scale (id k : Z) (f : RecipeItem -> Z) (es : list RecipeItem) :
  sum_where id (fun e => f e * k) es = sum_where id f es * k.
Proof.
  induction es as [|e rest IH]; simpl; [reflexivity|].
  rewrite IH. destruct (ri_id e =? id); lia.
Qed.

Lemma sum_where_positive (id : Z) (f : RecipeItem -> Z) (es : list RecipeItem) :
  Forall (fun e => 0 < f e) es ->
  0 <= sum_where id f es
  /\ (existsb (fun e => ri_id e =? id) es = true -> 0 < sum_where id f es).
Proof.
  induction 1 as [|e rest He Hrest IH]; simpl; [split; [lia|discriminate]|].
  destruct IH as [IH1 IH2]. destruct (ri_id e =? id); simpl; split; try lia.
  intros H. specialize (IH2 H). lia.
Qed.

(** The requirement map for [units] units holds, for exactly the required
    ids, [units] times the per-unit requirement. *)
Lemma reqMap_lookup (r : Recipe) (units id : Z) :
  reqMap r units !! id
  = if is_required r id then Some (required_units r id * units) else None.
Proof.
  unfold reqMap. rewrite add_ingredients_flat, add_shape_flat, <- bump_all_app.
  set (es := _ ++ _).
  assert (Htot : total_for id es = required_units r id * units).
  { subst es. rewrite total_for_app, !total_for_weighted.
    rewrite (sum_where_scale id units count_or_one).
    replace (fun _ : RecipeItem => 1 * units) with (fun e : RecipeItem => (fun _ => 1) e * units)
      by reflexivity.
    rewrite (sum_where_scale id units (fun _ => 1)). unfold required_units. lia. }
  assert (Hex : existsb (fun e => fst e =? id) es = is_required r id).
  { subst es. unfold is_required. rewrite !existsb_app, !existsb_weighted. reflexivity. }
  pose proof (bump_all_total es ∅ id) as H1.
  pose proof (bump_all_is_Some es ∅ id) as H2.
  rewrite Htot in H1. rewrite Hex in H2.
  unfold at_or_zero in H1. rewrite lookup_empty in H1, H2.
  destruct (bump_all es ∅ !! id) as [v|] eqn:Hv.
  - destruct (is_required r id).
    + f_equal. lia.
    + destruct H2 as [H2 _]. destruct (H2 (ltac:(eauto))) as [[? ?]|?]; discriminate.
  - destruct (is_required r id); [|reflexivity].
    destruct H2 as [_ H2]. destruct (H2 (or_intror eq_refl)) as [? ?]. discriminate.
Qed.

Lemma perUnitReq_reqMap (r : Recipe) : perUnitReq r = reqMap r 1.
Proof.
  unfold perUnitReq, reqMap. rewrite !add_ingredients_flat. simpl (1 * 1).
  do 2 f_equal. unfold weighted. apply map_ext. intros e. f_equal. lia.
Qed.

Lemma perUnitReq_lookup (r : Recipe) (id : Z) :
  perUnitReq r !! id = if is_required r id then Some (required_units r id) else None.
Proof.
  rewrite perUnitReq_reqMap, reqMap_lookup. destruct (is_required r id); [|reflexivity].
  f_equal. lia.
Qed.

Lemma invMap_available (inv : list Item) (id : Z) :
  at_or_zero (invMap inv) id = available inv id.
Proof.
  unfold invMap.
  assert (H : forall m, at_or_zero (fold_left (fun m it => bump m (item_type it) (item_count it)) inv m) id
                        = at_or_zero m id + available inv id).
  { induction inv as [|it rest IH]; intros m; simpl; [lia|].
    rewrite IH, at_or_zero_bump. lia. }
  rewrite H. unfold at_or_zero. rewrite lookup_empty. lia.
Qed.

Lemma required_units_positive (r : Recipe) (id : Z) :
  positive_counts r -> is_required r id = true -> 0 < required_units r id.
Proof.
  unfold positive_counts, is_required, required_units. intros Hpos Hreq.
  rewrite existsb_app in Hreq.
  destruct (sum_where_positive id count_or_one _ Hpos) as [H1 H2].
  assert (Hcells : Forall (fun e : RecipeItem => 0 < (fun _ => 1) e) (shape_cells r)).
  { apply Forall_forall. intros; lia. }
  destruct (sum_where_positive id (fun _ => 1) _ Hcells) as [H3 H4].
  apply orb_true_iff in Hreq as [Hreq|Hreq]; [specialize (H2 Hreq) | specialize (H4 Hreq)]; lia.
Qed.

Lemma min_units_spec (req inv : gmap Z Z) (limit : Z) :
  let m := min_units req inv limit in
  m <= limit
  /\ (forall id n, req !! id = Some n -> m <= at_or_zero inv id / n)
  /\ (m = limit \/ exists id n, req !! id = Some n /\ m = at_or_zero inv id / n).
Proof.
  unfold min_units.
  assert (H : forall (l : list (Z * Z)) (init : Z),
    let m := fold_left (fun acc '(id, needPer) => Z.min acc (at_or_zero inv id / needPer)) l init in
    m <= init
    /\ (forall id n, In (id, n) l -> m <= at_or_zero inv id / n)
    /\ (m = init \/ exists id n, In (id, n) l /\ m = at_or_zero inv id / n)).
  { induction l as [|[i n] rest IH]; intros init; simpl.
    - split; [lia|]. split; [intros ? ? []|now left].
    - destruct (IH (Z.min init (at_or_zero inv i / n))) as (H1 & H2 & H3).
      split; [lia|]. split.
      + intros id k [Heq|Hin]; [inversion Heq; subst; lia | now apply H2].
      + destruct H3 as [H3|(id & k & Hin & H3)].
        * destruct (Z.min_spec init (at_or_zero inv i / n)) as [[_ Hm]|[_ Hm]].
          -- left. rewrite H3. exact Hm.
          -- right. exists i, n. split; [now left|]. rewrite H3. exact Hm.
        * right. exists id, k. split; [now right|exact H3]. }
  destruct (H (map_to_list req) limit) as (H1 & H2 & H3).
  split; [exact H1|]. split.
  - intros id n Hl. apply H2. apply list_elem_of_In. now apply elem_of_map_to_list.
  - destruct H3 as [H3|(id & n & Hin & H3)]; [now left|].
    right. exists id, n. split; [|exact H3].
    apply elem_of_map_to_list. now apply list_elem_of_In.
Qed.

Lemma shortfalls_spec (name_of : Z -> string) (req inv : gmap Z Z) (x : Missing) :
  In x (shortfalls name_of req inv)
  <-> exists id need, req !! id = Some need /\ at_or_zero inv id < need
                      /\ x = mkMissing id (name_of id) (need - at_or_zero inv id).
Proof.
  unfold shortfalls. rewrite <- list_elem_of_In, list_elem_of_omap. split.
  - intros ([id need] & Hin & Hx). apply elem_of_map_to_list in Hin.
    destruct (at_or_zero inv id <? need) eqn:E; [|discriminate].
    inversion Hx. exists id, need. repeat split; [exact Hin|lia].
  - intros (id & need & Hl & Hlt & ->). exists (id, need).
    split; [now apply elem_of_map_to_list|].
    destruct (at_or_zero inv id <? need) eqn:E; [reflexivity|lia].
Qed.

(** The planner on a recipe whose ingredient entries ask for positive
    counts:
    - [perUnitReq] holds, for exactly the ids the recipe names, the counts
      of the id's shapeless entries plus one per grid cell that holds it;
    - the craftable count of [computeMaxCraftable(limit)] is the minimum
      over those ids of floor(available / per-unit requirement), capped at
      [limit] and at least 0;
    - the result of [craftItems] has [ok = true] iff [crafted > 0], and
      when [crafted < count] its [missingItems] has an entry for exactly
      the ids short for the [max(1, count - crafted)] units still wanted,
      each with the shortfall [need - have] as count. *)
Lemma planner_correct_on_positive_counts (name_of : Z -> string) (r : Recipe) (inv : list Item)
    (limit count : Z) (maxMs : option Z) (table : bool) (rd : Readings) (res : CraftResult) :
  positive_counts r ->
  craftItems name_of r count maxMs table rd = Some res ->
  (forall id, perUnitReq r !! id
              = if is_required r id then Some (required_units r id) else None)
  /\ (forall id, is_required r id = true -> 0 < required_units r id)
  /\ (let c := fst (computeMaxCraftable name_of r inv limit) in
      0 <= c /\ c <= Z.max 0 limit
      /\ (forall id, is_required r id = true ->
            c <= Z.max 0 (available inv id / required_units r id))
      /\ (c = Z.max 0 limit
          \/ exists id, is_required r id = true
                        /\ c = Z.max 0 (available inv id / required_units r id)))
  /\ (ok res = true <-> 0 < res_crafted res)
  /\ (res_crafted res < count ->
      forall id,
        let need := required_units r id * Z.max 1 (count - res_crafted res) in
        let have := available (inv_end rd) id in
        (is_required r id = true -> have < need ->
           In (mkMissing id (name_of id) (need - have)) (missingItems res))
        /\ (forall m, In m (missingItems res) -> m_id m = id ->
              is_required r id = true /\ have < need
              /\ m = mkMissing id (name_of id) (need - have))).
Proof.
  intros Hpos Hres.
  split; [apply perUnitReq_lookup|].
  split; [intros id; now apply required_units_positive|].
  split; [|split].
  - unfold computeMaxCraftable. cbn [fst].
    destruct (min_units_spec (perUnitReq r) (invMap inv) limit) as (H1 & H2 & H3).
    set (m := min_units (perUnitReq r) (invMap inv) limit) in *.
    split; [lia|]. split; [lia|]. split.
    + intros id Hreq. specialize (H2 id (required_units r id)).
      rewrite perUnitReq_lookup, Hreq, invMap_available in H2.
      specialize (H2 eq_refl). lia.
    + destruct H3 as [H3|(id & n & Hl & H3)]; [left; lia|].
      right. exists id. rewrite perUnitReq_lookup in Hl.
      destruct (is_required r id); [|discriminate]. inversion Hl; subst n.
      rewrite invMap_available in H3. split; [reflexivity|lia].
  - unfold craftItems in Hres.
    destruct (craft_loop _ _ _ _ _) as [st|]; [|discriminate].
    inversion Hres. simpl. apply Z.ltb_lt.
  - unfold craftItems in Hres.
    destruct (craft_loop _ _ _ _ _) as [st|]; [|discriminate].
    inversion Hres. simpl. intros Hlt id.
    assert (E : (crafted st <? count) = true) by now apply Z.ltb_lt.
    rewrite E. unfold computeMissingFor. split.
    + intros Hreq Hshort. apply shortfalls_spec.
      exists id, (required_units r id * Z.max 1 (count - crafted st)).
      rewrite reqMap_lookup, Hreq, invMap_available. auto.
    + intros m Hin Hid. apply shortfalls_spec in Hin as (id' & need & Hl & Hs & ->).
      simpl in Hid. subst id'. rewrite reqMap_lookup in Hl.
      destruct (is_required r id); [|discriminate]. inversion Hl; subst need.
      rewrite invMap_available in *. auto.
Qed.

(** C6 on a shapeless recipe whose ingredient entry carries the count -1.
    Five units are wanted of an item that takes one unit of ingredient 36
    per craft, with 3 units of it in the inventory; three crafts succeed
    and the fourth is refused.  Both helpers add [ing.count] as it is, so
    the requirement of ingredient 36 is -1: [missingItems] is empty
    although only 3 of 5 units were crafted, and [computeMaxCraftable]
    answers 0 although three units can be crafted.  With the count 1 (or
    no count) on the same entry, and on the shaped path, where every cell
    counts as one whatever its [count], the shortfall 2 is reported and
    the craftable count is 3; with the count 2 it is floor(3 / 2) = 1. *)
Theorem craftItems_negative_count_hides_shortfall :
  let name_of := fun _ : Z => "ingredient_a"%string in
  let shapeless c := mkRecipe (Some [Some (mkRI 36 c)]) None false in
  let shaped := mkRecipe None (Some [Some [Some (mkRI 36 (Some (-1)))]]) false in
  let inv := [mkItem "ingredient_a" 36 3] in
  let rd := mkReadings 0 0 0
              [ mkAttempt 100 (CraftResolved 1) 150 160;
                mkAttempt 200 (CraftResolved 2) 250 260;
                mkAttempt 300 (CraftResolved 3) 350 360;
                mkAttempt 400 (CraftRejected "missing ingredient") 0 0 ]
              500 [mkItem "product" 700 3] in
  let result missing :=
    Some (mkResult true 5 3 2 false false (Some "missing_resources"%string)
                   missing ["missing ingredient"%string]) in
  let short := [mkMissing 36 "ingredient_a" 2] in
  (craftItems name_of (shapeless (Some (-1))) 5 None false rd = result []
   /\ computeMaxCraftable name_of (shapeless (Some (-1))) inv 5 = (0, [])
   /\ perUnitReq (shapeless (Some (-1))) !! 36 = Some (-1))
  /\ (craftItems name_of (shapeless (Some 1)) 5 None false rd = result short
      /\ computeMaxCraftable name_of (shapeless (Some 1)) inv 5 = (3, [])
      /\ craftItems name_of (shapeless None) 5 None false rd = result short
      /\ computeMaxCraftable name_of (shapeless None) inv 5 = (3, [])
      /\ computeMaxCraftable name_of (shapeless (Some 2)) inv 5 = (1, []))
  /\ (craftItems name_of shaped 5 None false rd = result short
      /\ computeMaxCraftable name_of shaped inv 5 = (3, [])
      /\ perUnitReq shaped !! 36 = Some 1).
Proof. vm_compute. repeat split. Qed.

End Crafting.

(** ** Smelting and cooking: device fallback chain and refuel retry *)

Module Smelting.

Local Open Scope Z_scope.

Inductive Device := furnace | smoker | blast_furnace | campfire.

Definition device_name (d : Device) : string :=
  match d with
  | furnace => "furnace"
  | smoker => "smoker"
  | blast_furnace => "blast_furnace"
  | campfire => "campfire"
  end.

Definition device_eqb (a b : Device) : bool :=
  match a, b with
  | furnace, furnace | smoker, smoker
  | blast_furnace, blast_furnace | campfire, campfire => true
  | _, _ => false
  end.

Definition isLikelyFood (itemName : string) : bool :=
  let n := JsString.toLowerCase itemName in
  JsString.includes_any n
    ["beef"; "porkchop"; "mutton"; "chicken"; "cod"; "salmon"; "rabbit";
     "potato"; "kelp"; "sweet_berries"]%string
  || JsString.startsWith n "raw_" || JsString.includes n "raw".

Definition isLikelyOre (itemName : string) : bool :=
  let n := JsString.toLowerCase itemName in
  if JsString.endsWith n "_ore" then true
  else if JsString.startsWith n "raw_" then true
  else JsString.includes_any n ["iron_ore"; "gold_ore"; "copper_ore"; "ancient_debris"]%string.

Definition includes_device (l : list Device) (d : Device) : bool :=
  existsb (device_eqb d) l.

(** The [sequence] array [smeltItem] builds.  [preferDevice] is
    [params.preferDevice ? String(params.preferDevice) : undefined]. *)
Definition device_sequence (itemName : string) (preferDevice : option string) : list Device :=
  let isFoodItem := isLikelyFood itemName in
  let isOreItem := isLikelyOre itemName in
  let preferred := match preferDevice with
                   | Some p => if JsString.truthy p then Some p else None
                   | None => None
                   end in
  match preferred with
  | Some p =>
      let s1 := if String.eqb p "campfire" then [campfire]
                else if String.eqb p "smoker" then [smoker]
                else if String.eqb p "blast_furnace" then [blast_furnace]
                else [furnace] in
      let s2 := if negb (includes_device s1 furnace) then s1 ++ [furnace] else s1 in
      if isFoodItem && negb (includes_device s2 campfire) then s2 ++ [campfire] else s2
  | None =>
      if isFoodItem then [smoker; furnace; campfire]
      else if isOreItem then [blast_furnace; furnace]
      else [furnace]
  end.

(** What a device attempt returns.  The furnace-like devices and the
    campfire return objects with different fields; a field an object does
    not have is [None]. *)
Record DeviceResult := mkDR {
  ok : bool;
  deviceUsed : Device;
  outputsCollected : option Z;
  requested : option Z;
  remaining : option Z;
  timedOut : option bool;
  stalled : option bool;
  outOfFuel : option bool;
  reason : option string;
  output : option string
}.

(** [await furnace.takeOutput()] *)
Inductive TakeOutcome :=
| TookItem (count : option Z) (name : string)
| TookNothing
| TakeThrew.

(** What one turn of the output-polling loop reads from the world, in
    reading order. *)
Record PollObs := mkPoll {
  p_t_cond : Z;               (* [Date.now()] of the loop condition *)
  p_take : TakeOutcome;
  p_t_progress : Z;           (* [Date.now()] stored when an item came out *)
  p_t_stall : Z;              (* [Date.now()] of the stall test *)
  p_hasFuel : bool;           (* [!!furnace.fuelItem()] *)
  p_fuel : option Z;          (* [findFuel()]: the count of the stack found *)
  p_putFuel : option string;  (* [putFuel]: [None] resolves, [Some msg] rejects *)
  p_t_refuel : Z              (* [Date.now()] stored after a refuel *)
}.

Record PollState := mkPS {
  outputs : Z;
  lastOutName : option string;
  lastProgressAt : Z;
  ps_outOfFuel : bool;
  refuelAttempts : Z;
  refuel_calls : nat          (* calls of [putFuel] made by the loop *)
}.

Inductive Turn :=
| Continue (st : PollState)   (* next turn of the loop *)
| Stop (st : PollState).      (* the loop is left *)

(** One turn of [while (outputs < outputsTarget && Date.now() < deadline)],
    condition included. *)
Definition poll_turn (target deadline : Z) (st : PollState) (p : PollObs) : Turn :=
  if negb (outputs st <? target) then Stop st
  else if negb (p_t_cond p <? deadline) then Stop st
  else
    let st1 :=
      match p_take p with
      | TookItem c n =>
          mkPS (outputs st + match c with Some k => k | None => 1 end) (Some n)
               (p_t_progress p) (ps_outOfFuel st) (refuelAttempts st) (refuel_calls st)
      | _ => st
      end in
    if p_t_stall p - lastProgressAt st1 >? 15000 then
      if negb (p_hasFuel p) then
        let fuel_gone := Stop (mkPS (outputs st1) (lastOutName st1) (lastProgressAt st1)
                                  true (refuelAttempts st1) (refuel_calls st1)) in
        match p_fuel p with
        | Some _ =>
            if refuelAttempts st1 <? 2 then
              match p_putFuel p with
              | None =>
                  Continue (mkPS (outputs st1) (lastOutName st1) (p_t_refuel p)
                                 (ps_outOfFuel st1) (refuelAttempts st1 + 1)
                                 (S (refuel_calls st1)))
              | Some _ =>
                  Stop (mkPS (outputs st1) (lastOutName st1) (lastProgressAt st1)
                             true (refuelAttempts st1) (S (refuel_calls st1)))
              end
            else fuel_gone
        | None => fuel_gone
        end
      else Stop st1
    else Continue st1.

(** The loop: [None] when it is still running as the readings end. *)
Fixpoint poll_loop (target deadline : Z) (st : PollState) (polls : list PollObs)
  : option PollState :=
  match polls with
  | [] => if negb (outputs st <? target) then Some st else None
  | p :: rest =>
      match poll_turn target deadline st p with
      | Continue st' => poll_loop target deadline st' rest
      | Stop st' => Some st'
      end
  end.

(** The state after the turns [polls] when none of them left the loop. *)
Fixpoint poll_run (target deadline : Z) (st : PollState) (polls : list PollObs)
  : option PollState :=
  match polls with
  | [] => Some st
  | p :: rest =>
      match poll_turn target deadline st p with
      | Continue st' => poll_run target deadline st' rest
      | Stop _ => None
      end
  end.

Definition poll_start (t : Z) : PollState := mkPS 0 None t false 0 0.

(** From [const outputsTarget = inserted] to the [return] of
    [cookOrSmeltOnDevice]. *)
Definition collect_outputs (device : Device) (count inserted : Z) (totalMaxMs : option Z)
    (t_deadline t_progress0 : Z) (polls : list PollObs) (t_end : Z)
  : option (DeviceResult * nat) :=
  let outputsTarget := inserted in
  let deadline := t_deadline + match totalMaxMs with
                               | Some x => x
                               | None => Z.max 90000 (60000 * outputsTarget)
                               end in
  match poll_loop outputsTarget deadline (poll_start t_progress0) polls with
  | None => None
  | Some st =>
      let timedOut := (outputs st <? outputsTarget) && (t_end >=? deadline) in
      let stalled := (outputs st <? outputsTarget) && negb timedOut && negb (ps_outOfFuel st) in
      let reason := if ps_outOfFuel st then Some "out_of_fuel"%string
                    else if timedOut then Some "timed_out"%string
                    else if stalled then Some "stalled"%string else None in
      Some (mkDR (outputs st >=? outputsTarget) device (Some (outputs st)) (Some count)
                 (Some (Z.max 0 (count - outputs st))) (Some timedOut) (Some stalled)
                 (Some (ps_outOfFuel st)) reason (lastOutName st),
            refuel_calls st)
  end.

(** The readings of one [cookOrSmeltOnDevice] call. *)
Record FurnaceScript := mkFS {
  f_open : option string;       (* [openFurnaceLike]: [Some msg] throws [msg] *)
  f_available : Z;              (* units of the item in the inventory *)
  f_fuel_in_slot : bool;        (* [furnace.fuelItem()] before inserting *)
  f_fuel_found : option Z;      (* [findFuel()] *)
  f_putFuel : option string;    (* the first [putFuel] *)
  f_inputs : list (option Z * option string);
                                (* per turn of the insert loop: the stack found
                                   and what [putInput] did *)
  f_t_deadline : Z;
  f_t_progress0 : Z;
  f_polls : list PollObs;
  f_t_end : Z
}.

(** The insert loop: [None] while still running as the readings end. *)
Fixpoint insert_loop (toProcess inserted : Z) (steps : list (option Z * option string))
  : option (Result Z) :=
  if negb (inserted <? toProcess) then Some (Ok inserted)
  else
    match steps with
    | [] => None
    | (None, _) :: _ => Some (Ok inserted)
    | (Some c, put) :: rest =>
        let batch := Z.min c (toProcess - inserted) in
        match put with
        | Some msg => Some (Throw msg)
        | None => insert_loop toProcess (inserted + batch) rest
        end
    end.

(** [cookOrSmeltOnDevice(bot, device, itemName, fuelName, count, totalMaxMs)] *)
Definition cookOrSmeltOnDevice (device : Device) (itemName : string) (count : Z)
    (totalMaxMs : option Z) (fs : FurnaceScript) : option (Result DeviceResult) :=
  match f_open fs with
  | Some msg => Some (Throw msg)
  | None =>
      let toProcess := Z.max 1 (Z.min count (f_available fs)) in
      if toProcess <=? 0 then Some (Throw ("Missing input '" +:+ itemName +:+ "'"))
      else
        let fuelled :=
          if f_fuel_in_slot fs then Ok true
          else match f_fuel_found fs with
               | Some _ => match f_putFuel fs with
                           | None => Ok true
                           | Some msg => Throw msg
                           end
               | None => Ok false
               end in
        match fuelled with
        | Throw msg => Some (Throw msg)
        | Ok false =>
            Some (Ok (mkDR false device (Some 0) (Some count) (Some count) None None
                           (Some true) (Some "missing_fuel"%string) None))
        | Ok true =>
            match insert_loop toProcess 0 (f_inputs fs) with
            | None => None
            | Some (Throw msg) => Some (Throw msg)
            | Some (Ok inserted) =>
                match collect_outputs device count inserted totalMaxMs
                        (f_t_deadline fs) (f_t_progress0 fs) (f_polls fs) (f_t_end fs) with
                | None => None
                | Some (r, _) => Some (Ok r)
                end
            end
        end
  end.

(** The readings of one [cookOnCampfire] call. *)
Record CampfireScript := mkCS {
  c_campfire : bool;            (* a campfire was found *)
  c_food : bool;                (* the item is in the inventory *)
  c_equip : option string;      (* [bot.equip]: [Some msg] rejects *)
  c_block : bool;               (* the block is still there *)
  c_activate : option string;   (* [bot.activateBlock] *)
  c_start : Z;
  c_wait : list Z;              (* [Date.now()] of each test of the wait loop *)
  c_endWait : Z;                (* [Date.now()] [endWait] is computed from *)
  c_pickup : list (Z * bool);   (* pickup loop: [Date.now()], entity found *)
  c_t_end : Z
}.

Fixpoint campfire_wait (start : Z) (ts : list Z) : option unit :=
  match ts with
  | [] => None
  | t :: rest => if t - start <? 45000 then campfire_wait start rest else Some tt
  end.

Fixpoint campfire_pickup (endWait : Z) (turns : list (Z * bool)) : option unit :=
  match turns with
  | [] => None
  | (t, found) :: rest =>
      if t <? endWait then (if found then Some tt else campfire_pickup endWait rest)
      else Some tt
  end.

(** [cookOnCampfire(bot, itemName)] *)
Definition cookOnCampfire (itemName : string) (cs : CampfireScript)
  : option (Result DeviceResult) :=
  if negb (c_campfire cs) then Some (Throw "No campfire nearby")
  else if negb (c_food cs) then Some (Throw ("Missing input '" +:+ itemName +:+ "'"))
  else match c_equip cs with
  | Some msg => Some (Throw msg)
  | None =>
    if negb (c_block cs) then Some (Throw "Campfire vanished")
    else match c_activate cs with
    | Some msg => Some (Throw msg)
    | None =>
      match campfire_wait (c_start cs) (c_wait cs) with
      | None => None
      | Some _ =>
        match campfire_pickup (c_endWait cs + 5000) (c_pickup cs) with
        | None => None
        | Some _ =>
            let timedOut := c_t_end cs - c_start cs >=? 45000 in
            Some (Ok (mkDR (negb timedOut) campfire None None None (Some timedOut)
                           None None None None))
        end
      end
    end
  end.

(** What the devices around the bot will do when tried. *)
Record World := mkWorld {
  furnace_like : Device -> FurnaceScript;
  campfire_script : CampfireScript
}.

(** The [try] body of the [for] loop of [smeltItem] for one device. *)
Definition attempt (w : World) (itemName : string) (count : Z) (dev : Device)
  : option (Result DeviceResult) :=
  match dev with
  | campfire => cookOnCampfire itemName (campfire_script w)
  | _ => cookOrSmeltOnDevice dev itemName count None (furnace_like w dev)
  end.

Inductive SmeltResult :=
| Success (r : DeviceResult) (attemptedDevices : list Device)
      (* { ...r, attemptedDevices } *)
| NoDevice (attemptedDevices : list Device) (errors : list string).
      (* { ok: false, error: 'no_device_available', attemptedDevices, errors } *)

Definition timed_out_suffix (r : DeviceResult) : string :=
  match timedOut r with Some true => ":timedOut" | _ => "" end.

(** The [for (const dev of sequence)] loop; [attempts] and [errors] are
    the arrays as filled so far. *)
Fixpoint smelt_loop (w : World) (itemName : string) (count : Z)
    (sequence : list Device) (attempts : list Device) (errors : list string)
  : option SmeltResult :=
  match sequence with
  | [] => Some (NoDevice attempts errors)
  | dev :: rest =>
      let attempts' := attempts ++ [dev] in
      match attempt w itemName count dev with
      | None => None
      | Some (Throw msg) =>
          smelt_loop w itemName count rest attempts'
                     (errors ++ [device_name dev +:+ ": " +:+ msg])
      | Some (Ok r) =>
          if ok r then Some (Success r attempts')
          else smelt_loop w itemName count rest attempts'
                 (errors ++ [match dev with
                             | campfire => "campfire_failed"%string
                             | _ => device_name dev +:+ "_failed" +:+ timed_out_suffix r
                             end])
      end
  end.

(** [smeltItem(params)] (and [cookItem], which calls it) inside the task
    guard. *)
Definition smeltItem (w : World) (itemName : string) (preferDevice : option string)
    (count : Z) : option SmeltResult :=
  smelt_loop w itemName count (device_sequence itemName preferDevice) [] [].

(** How the classification falls out on some item names: anything raw
    counts as food before it can count as ore. *)
Example classification_examples :
  isLikelyFood "beef" = true /\ isLikelyFood "cooked_beef" = true
  /\ isLikelyFood "iron_ore" = false /\ isLikelyOre "iron_ore" = true
  /\ isLikelyFood "raw_iron" = true /\ isLikelyOre "raw_iron" = true
  /\ isLikelyFood "cobblestone" = false /\ isLikelyOre "cobblestone" = false
  /\ device_sequence "iron_ore" None = [blast_furnace; furnace]
  /\ device_sequence "raw_iron" None = [smoker; furnace; campfire]
  /\ device_sequence "cobblestone" None = [furnace]
  /\ device_sequence "beef" (Some "blast_furnace"%string) = [blast_furnace; furnace; campfire].
Proof. vm_compute. repeat split; reflexivity. Qed.

(** [cookOnCampfire] computes [timedOut] from a clock reading taken after
    the 45 s wait loop has been left: when the clock does not run
    backwards, the campfire attempt never reports [ok]. *)
Lemma campfire_wait_over (start : Z) (ts : list Z) :
  campfire_wait start ts = Some tt -> exists t, In t ts /\ 45000 <= t - start.
Proof.
  induction ts as [|t rest IH]; simpl; [discriminate|].
  destruct (t - start <? 45000) eqn:E.
  - intros H. destruct (IH H) as (t' & Hin & Ht'). exists t'. split; [now right|exact Ht'].
  - intros _. exists t. split; [now left|lia].
Qed.

Lemma cookOnCampfire_never_ok (itemName : string) (cs : CampfireScript) (r : DeviceResult) :
  (forall t, In t (c_wait cs) -> t <= c_t_end cs) ->
  cookOnCampfire itemName cs = Some (Ok r) -> ok r = false.
Proof.
  intros Hmono. unfold cookOnCampfire.
  destruct (c_campfire cs); [|discriminate]. destruct (c_food cs); [|discriminate].
  simpl. destruct (c_equip cs); [discriminate|]. destruct (c_block cs); [|discriminate].
  simpl. destruct (c_activate cs); [discriminate|].
  destruct (campfire_wait (c_start cs) (c_wait cs)) as [[]|] eqn:Hw; [|discriminate].
  destruct (campfire_pickup _ _); [|discriminate].
  apply campfire_wait_over in Hw as (t & Hin & Ht). specialize (Hmono t Hin).
  intros H. inversion H. simpl.
  replace (c_t_end cs - c_start cs >=? 45000) with true; [reflexivity|].
  symmetry. rewrite Z.geb_leb. apply Z.leb_le. lia.
Qed.

(** *** The fallback chain *)

(** A device attempt that did not succeed: it threw, or returned a result
    that is not [ok]. *)
Definition failed (a : option (Result DeviceResult)) : Prop :=
  match a with
  | Some (Throw _) => True
  | Some (Ok r) => ok r = false
  | None => False
  end.

(** A device attempt that produced output: some item was collected (for the
    campfire, whose result counts nothing, the attempt was [ok]). *)
Definition yields_output (a : option (Result DeviceResult)) : bool :=
  match a with
  | Some (Ok r) => match outputsCollected r with
                   | Some n => 0 <? n
                   | None => ok r
                   end
  | _ => false
  end.

Lemma attempt_deviceUsed (w : World) (itemName : string) (count : Z) (d : Device)
    (r : DeviceResult) :
  attempt w itemName count d = Some (Ok r) -> deviceUsed r = d.
Proof.
  assert (Hf : forall fs, cookOrSmeltOnDevice d itemName count None fs = Some (Ok r) ->
                          deviceUsed r = d).
  { intros fs. unfold cookOrSmeltOnDevice, collect_outputs.
    destruct (f_open fs); [discriminate|].
    destruct (Z.max 1 (Z.min count (f_available fs)) <=? 0); [discriminate|].
    destruct (f_fuel_in_slot fs); [|destruct (f_fuel_found fs); [destruct (f_putFuel fs)|]];
      try discriminate;
      try (destruct (insert_loop _ _ _) as [[ins|]|]; try discriminate;
           destruct (poll_loop _ _ _ _); try discriminate;
           intros H; inversion H; reflexivity).
    intros H; inversion H; reflexivity. }
  destruct d; simpl; try apply Hf.
  unfold cookOnCampfire.
  destruct (c_campfire _); [|discriminate]. destruct (c_food _); [|discriminate].
  simpl. destruct (c_equip _); [discriminate|]. destruct (c_block _); [|discriminate].
  simpl. destruct (c_activate _); [discriminate|].
  destruct (campfire_wait _ _); [|discriminate].
  destruct (campfire_pickup _ _); [|discriminate].
  intros H; inversion H; reflexivity.
Qed.

(** A failed device makes the loop go on to the devices that remain. *)
Lemma smelt_loop_advance (w : World) (itemName : string) (count : Z) (dev : Device)
    (r : DeviceResult) (rest attempts : list Device) (errors : list string) :
  attempt w itemName count dev = Some (Ok r) -> ok r = false ->
  exists e, smelt_loop w itemName count (dev :: rest) attempts errors
            = smelt_loop w itemName count rest (attempts ++ [dev]) (errors ++ [e]).
Proof. intros Ha Hok. simpl. rewrite Ha, Hok. eauto. Qed.

Lemma smelt_loop_spec (w : World) (itemName : string) (count : Z)
    (sequence attempts : list Device) (errors : list string) :
  match smelt_loop w itemName count sequence attempts errors with
  | Some (Success r att) =>
      exists pre post,
        sequence = pre ++ deviceUsed r :: post
        /\ att = attempts ++ pre ++ [deviceUsed r]
        /\ ok r = true
        /\ attempt w itemName count (deviceUsed r) = Some (Ok r)
        /\ Forall (fun d => failed (attempt w itemName count d)) pre
  | Some (NoDevice att errs) =>
      att = attempts ++ sequence
      /\ length errs = (length errors + length sequence)%nat
      /\ Forall (fun d => failed (attempt w itemName count d)) sequence
  | None => Exists (fun d => attempt w itemName count d = None) sequence
  end.
Proof.
  revert attempts errors.
  induction sequence as [|dev rest IH]; intros attempts errors; simpl.
  - rewrite app_nil_r. repeat split; [lia|constructor].
  - destruct (attempt w itemName count dev) as [[r|msg]|] eqn:Ha.
    + destruct (ok r) eqn:Hok.
      * pose proof (attempt_deviceUsed _ _ _ _ _ Ha) as Hd.
        exists [], rest. rewrite Hd. repeat split; auto.
      * specialize (IH (attempts ++ [dev])
                       (errors ++ [match dev with
                             | campfire => "campfire_failed"%string
                             | _ => device_name dev +:+ "_failed" +:+ timed_out_suffix r
                             end])).
        destruct (smelt_loop _ _ _ rest _ _) as [[r' att|att errs]|].
        -- destruct IH as (pre & post & H1 & H2 & H3 & H4 & H5).
           exists (dev :: pre), post. rewrite H1, H2, <- app_assoc. repeat split; auto.
           constructor; [|exact H5]. unfold failed. now rewrite Ha.
        -- destruct IH as (H1 & H2 & H3). rewrite H1, H2, <- app_assoc, length_app. simpl.
           repeat split; [lia|]. constructor; [|exact H3]. unfold failed. now rewrite Ha.
        -- now apply Exists_cons_tl.
    + specialize (IH (attempts ++ [dev]) (errors ++ [device_name dev +:+ ": " +:+ msg])).
      destruct (smelt_loop _ _ _ rest _ _) as [[r' att|att errs]|].
      * destruct IH as (pre & post & H1 & H2 & H3 & H4 & H5).
        exists (dev :: pre), post. rewrite H1, H2, <- app_assoc. repeat split; auto.
        constructor; [|exact H5]. unfold failed. now rewrite Ha.
      * destruct IH as (H1 & H2 & H3). rewrite H1, H2, <- app_assoc, length_app. simpl.
        repeat split; [lia|]. constructor; [|exact H3]. unfold failed. now rewrite Ha.
      * now apply Exists_cons_tl.
    + now apply Exists_cons_hd.
Qed.

(** Beef, two units, no preferred device: the smoker gives one steak and
    stalls, the furnace gives both. *)
Definition partial_smoker_world : World :=
  let took := mkPoll 1000 (TookItem (Some 1) "cooked_beef") 1000 1000 true None None 0 in
  let idle := mkPoll 20000 TookNothing 0 20000 true None None 0 in
  let took2 := mkPoll 2000 (TookItem (Some 1) "cooked_beef") 2000 2000 true None None 0 in
  let smoker_script := mkFS None 2 true None None [(Some 2, None)] 0 0 [took; idle] 20000 in
  let furnace_script := mkFS None 2 true None None [(Some 2, None)] 0 0 [took; took2] 2000 in
  let absent := mkFS (Some "No blast_furnace nearby"%string) 0 false None None [] 0 0 [] 0 in
  mkWorld (fun d => match d with
                    | smoker => smoker_script
                    | furnace => furnace_script
                    | _ => absent
                    end)
          (mkCS false false None false None 0 [] 0 [] 0).

(** C7, as stated, fails.  The smoker is the first device of the sequence
    that yields output (one steak of two), yet [smeltItem] moves on and
    returns the furnace's result.  And raw iron, which [isLikelyOre]
    classifies as ore, is sent to the smoker first, not to the blast
    furnace: [isLikelyFood] accepts every name that contains "raw". *)
Lemma smeltItem_skips_partial_output :
  (device_sequence "beef" None = [smoker; furnace; campfire]
   /\ yields_output (attempt partial_smoker_world "beef" 2 smoker) = true
   /\ attempt partial_smoker_world "beef" 2 smoker
      = Some (Ok (mkDR false smoker (Some 1) (Some 2) (Some 1) (Some false) (Some true)
                       (Some false) (Some "stalled"%string) (Some "cooked_beef"%string)))
   /\ smeltItem partial_smoker_world "beef" None 2
      = Some (Success (mkDR true furnace (Some 2) (Some 2) (Some 0) (Some false) (Some false)
                            (Some false) None (Some "cooked_beef"%string))
                      [smoker; furnace]))
  /\ (isLikelyOre "raw_iron" = true
      /\ device_sequence "raw_iron" None = [smoker; furnace; campfire]).
Proof. vm_compute. repeat split; reflexivity. Qed.

(** C7 (amended).  The attempted-device sequence starts with the explicit
    preference when one is given, and always holds the furnace; with no
    preference it is smoker, furnace, campfire for an item classified as
    food and not as ore, blast_furnace, furnace for an item classified as
    ore and not as food, and furnace alone for an item classified as
    neither (nothing is said here of a name both classifiers accept).
    [smeltItem] returns the result of the first device of the sequence
    whose attempt reports [ok], with the devices attempted up to and
    including it; when every device fails it returns [ok: false] with the
    whole sequence as attempted devices.  (It returns whenever each device
    attempt does.) *)
Theorem smeltItem_fallback_chain (w : World) (itemName : string)
    (preferDevice : option string) (count : Z) (d : Device) :
  hd_error (device_sequence itemName (Some (device_name d))) = Some d
  /\ In furnace (device_sequence itemName preferDevice)
  /\ match isLikelyFood itemName, isLikelyOre itemName with
     | true, false => device_sequence itemName None = [smoker; furnace; campfire]
     | false, true => device_sequence itemName None = [blast_furnace; furnace]
     | false, false => device_sequence itemName None = [furnace]
     | true, true => True
     end
  /\ let sequence := device_sequence itemName preferDevice in
     match smeltItem w itemName preferDevice count with
     | Some (Success r att) =>
         exists pre post,
           sequence = pre ++ deviceUsed r :: post
           /\ att = pre ++ [deviceUsed r]
           /\ ok r = true
           /\ attempt w itemName count (deviceUsed r) = Some (Ok r)
           /\ Forall (fun d => failed (attempt w itemName count d)) pre
     | Some (NoDevice att errs) =>
         att = sequence
         /\ length errs = length sequence
         /\ Forall (fun d => failed (attempt w itemName count d)) sequence
     | None => Exists (fun d => attempt w itemName count d = None) sequence
     end.
Proof.
  split; [|split; [|split]].
  - unfold device_sequence. destruct d; simpl; destruct (isLikelyFood itemName); reflexivity.
  - unfold device_sequence.
    destruct preferDevice as [p|]; [destruct (JsString.truthy p)|];
      destruct (isLikelyFood itemName), (isLikelyOre itemName);
      try destruct (String.eqb p "campfire");
      try destruct (String.eqb p "smoker");
      try destruct (String.eqb p "blast_furnace");
      cbn; tauto.
  - unfold device_sequence.
    destruct (isLikelyFood itemName), (isLikelyOre itemName); auto.
  - unfold smeltItem.
    pose proof (smelt_loop_spec w itemName count (device_sequence itemName preferDevice) [] [])
      as H.
    destruct (smelt_loop _ _ _ _ _ _) as [[r att|att errs]|]; simpl in H; exact H.
Qed.

(** *** Refuel retry of the polling loop *)

(** While the loop runs, [refuelAttempts] counts the refuels made, of
    which there are at most two. *)
Definition refuel_inv (st : PollState) : Prop :=
  0 <= refuelAttempts st <= 2
  /\ Z.of_nat (refuel_calls st) = refuelAttempts st
  /\ ps_outOfFuel st = false.

Definition refuel_bound (st : PollState) : Prop :=
  0 <= refuelAttempts st <= 2 /\ (refuel_calls st <= 2)%nat.

Lemma poll_turn_inv (target deadline : Z) (st : PollState) (p : PollObs) :
  refuel_inv st ->
  match poll_turn target deadline st p with
  | Continue st' => refuel_inv st'
  | Stop st' => refuel_bound st'
  end.
Proof.
  intros (Hr & Hc & Ho). unfold poll_turn.
  assert (Hb : refuel_bound st) by (split; [exact Hr|lia]).
  destruct (negb (outputs st <? target)); [exact Hb|].
  destruct (negb (p_t_cond p <? deadline)); [exact Hb|].
  set (st1 := match p_take p with TookItem _ _ => _ | _ => st end).
  assert (H1 : refuel_inv st1) by (subst st1; destruct (p_take p); split; simpl; auto).
  clearbody st1. destruct H1 as (Hr1 & Hc1 & Ho1).
  destruct (p_t_stall p - lastProgressAt st1 >? 15000); [|now split].
  destruct (negb (p_hasFuel p)); [|split; [exact Hr1|lia]].
  destruct (p_fuel p); [|split; simpl; [exact Hr1|lia]].
  destruct (refuelAttempts st1 <? 2) eqn:E; [|split; simpl; [exact Hr1|lia]].
  apply Z.ltb_lt in E.
  destruct (p_putFuel p); [split; simpl; lia|].
  split; simpl; [lia|]. split; [lia|exact Ho1].
Qed.

Lemma poll_run_inv (target deadline : Z) (polls : list PollObs) (st st' : PollState) :
  refuel_inv st -> poll_run target deadline st polls = Some st' -> refuel_inv st'.
Proof.
  revert st. induction polls as [|p rest IH]; intros st Hinv; simpl.
  - intros H; inversion H; now subst.
  - pose proof (poll_turn_inv target deadline st p Hinv) as Ht.
    destruct (poll_turn target deadline st p); [|discriminate]. now apply IH.
Qed.

Lemma poll_loop_bound (target deadline : Z) (polls : list PollObs) (st st' : PollState) :
  refuel_inv st -> poll_loop target deadline st polls = Some st' -> refuel_bound st'.
Proof.
  revert st. induction polls as [|p rest IH]; intros st Hinv; simpl.
  - destruct (negb (outputs st <? target)); [|discriminate].
    intros H; inversion H; subst. destruct Hinv as (Hr & Hc & _). split; [exact Hr|lia].
  - pose proof (poll_turn_inv target deadline st p Hinv) as Ht.
    destruct (poll_turn target deadline st p).
    + now apply IH.
    + intros H; inversion H; now subst.
Qed.

Lemma poll_loop_app (target deadline : Z) (pre rest : list PollObs) (st st1 : PollState) :
  poll_run target deadline st pre = Some st1 ->
  poll_loop target deadline st (pre ++ rest) = poll_loop target deadline st1 rest.
Proof.
  revert st. induction pre as [|p pre IH]; intros st; simpl.
  - intros H; inversion H; reflexivity.
  - destruct (poll_turn target deadline st p); [apply IH|discriminate].
Qed.

Lemma poll_run_app (target deadline : Z) (pre rest : list PollObs) (st st1 : PollState) :
  poll_run target deadline st pre = Some st1 ->
  poll_run target deadline st (pre ++ rest) = poll_run target deadline st1 rest.
Proof.
  revert st. induction pre as [|p pre IH]; intros st; simpl.
  - intros H; inversion H; reflexivity.
  - destruct (poll_turn target deadline st p); [apply IH|discriminate].
Qed.

Lemma refuel_inv_start (t : Z) : refuel_inv (poll_start t).
Proof. repeat split; simpl; lia. Qed.

(** [takeOutput] gave nothing this turn. *)
Definition no_output (t : TakeOutcome) : bool :=
  match t with TookItem _ _ => false | _ => true end.

(** The deadline [cookOrSmeltOnDevice] computes. *)
Definition poll_deadline (t_deadline inserted : Z) (totalMaxMs : option Z) : Z :=
  t_deadline + match totalMaxMs with
               | Some x => x
               | None => Z.max 90000 (60000 * inserted)
               end.

(** The refuel branch is taken: the inventory has fuel, fewer than two
    refuels were made, and [putFuel] resolves. *)
Definition refuels (st : PollState) (p : PollObs) : bool :=
  match p_fuel p, p_putFuel p with
  | Some _, None => refuelAttempts st <? 2
  | _, _ => false
  end.

(** What the loop of [smeltItem] does after a device whose attempt returned
    a result that is not [ok]: the device is recorded as attempted with its
    failure noted, and the next device of the sequence is tried; when there
    is none the call answers 'no_device_available', and when the next
    device's attempt is [ok] its result is returned. *)
Definition failure_note (dev : Device) (r : DeviceResult) : string :=
  match dev with
  | campfire => "campfire_failed"
  | _ => device_name dev +:+ "_failed" +:+ timed_out_suffix r
  end.

Lemma smelt_loop_after_failure (w : World) (itemName : string) (count : Z) (dev : Device)
    (r : DeviceResult) (attempts : list Device) (errors : list string) :
  attempt w itemName count dev = Some (Ok r) -> ok r = false ->
  smelt_loop w itemName count [dev] attempts errors
  = Some (NoDevice (attempts ++ [dev]) (errors ++ [failure_note dev r]))
  /\ forall next rest r',
       attempt w itemName count next = Some (Ok r') -> ok r' = true ->
       smelt_loop w itemName count (dev :: next :: rest) attempts errors
       = Some (Success r' ((attempts ++ [dev]) ++ [next])).
Proof.
  intros Ha Hok. split.
  - cbn [smelt_loop]. rewrite Ha, Hok. reflexivity.
  - intros next rest r' Hn Hok'. cbn [smelt_loop]. rewrite Ha, Hok, Hn, Hok'. reflexivity.
Qed.

(** C8. Take a polling loop that is still running after some turns ([pre])
    and a next turn [p] in which nothing came out and the idle window
    (15 s since the last progress) is exceeded.  At most two refuels have
    been made so far.  If the fuel slot is empty, the loop refuels and goes
    on only when fuel is at hand, fewer than two refuels were made and
    [putFuel] resolves; otherwise, in particular once two refuels have been
    made, the device attempt ends with [outOfFuel = true], reason
    'out_of_fuel' and [ok = false], having called [putFuel] at most twice
    while polling, and the loop of [smeltItem] goes on to the next device:
    when the device was the last of the sequence the call answers
    'no_device_available' with the device among the attempted ones and its
    failure among the errors, and when the next device's attempt is [ok]
    that device's result is returned with both devices as attempted.  If
    the fuel slot is not empty, the attempt ends without the out-of-fuel
    marking. *)
Theorem refuel_twice_then_out_of_fuel (device : Device) (count inserted : Z)
    (totalMaxMs : option Z) (t_deadline t0 t_end : Z)
    (pre rest : list PollObs) (p : PollObs) (st : PollState) :
  let deadline := poll_deadline t_deadline inserted totalMaxMs in
  poll_run inserted deadline (poll_start t0) pre = Some st ->
  outputs st < inserted -> p_t_cond p < deadline ->
  no_output (p_take p) = true ->
  p_t_stall p - lastProgressAt st > 15000 ->
  (0 <= refuelAttempts st <= 2 /\ Z.of_nat (refuel_calls st) = refuelAttempts st)
  /\ (if p_hasFuel p then
        exists r calls,
          collect_outputs device count inserted totalMaxMs t_deadline t0
                          (pre ++ p :: rest) t_end = Some (r, calls)
          /\ ok r = false /\ outOfFuel r = Some false
          /\ reason r <> Some "out_of_fuel"%string /\ (calls <= 2)%nat
      else if refuels st p then
        exists st',
          poll_run inserted deadline (poll_start t0) (pre ++ [p]) = Some st'
          /\ refuelAttempts st' = refuelAttempts st + 1
          /\ lastProgressAt st' = p_t_refuel p
          /\ outputs st' = outputs st /\ ps_outOfFuel st' = false
      else
        exists r calls,
          collect_outputs device count inserted totalMaxMs t_deadline t0
                          (pre ++ p :: rest) t_end = Some (r, calls)
          /\ ok r = false /\ outOfFuel r = Some true
          /\ reason r = Some "out_of_fuel"%string /\ (calls <= 2)%nat
          /\ forall w itemName cnt att errs,
               attempt w itemName cnt device = Some (Ok r) ->
               smelt_loop w itemName cnt [device] att errs
               = Some (NoDevice (att ++ [device]) (errs ++ [failure_note device r]))
               /\ forall next ds r',
                    attempt w itemName cnt next = Some (Ok r') -> ok r' = true ->
                    smelt_loop w itemName cnt (device :: next :: ds) att errs
                    = Some (Success r' ((att ++ [device]) ++ [next]))).
Proof.
  intros deadline Hrun Hout Hcond Hno Hstall.
  pose proof (poll_run_inv _ _ _ _ _ (refuel_inv_start t0) Hrun) as (Hr & Hc & Ho).
  split; [split; [exact Hr|exact Hc]|].
  assert (Hturn : poll_turn inserted deadline st p
    = if negb (p_hasFuel p) then
        match p_fuel p with
        | Some _ =>
            if refuelAttempts st <? 2 then
              match p_putFuel p with
              | None => Continue (mkPS (outputs st) (lastOutName st) (p_t_refuel p)
                                   (ps_outOfFuel st) (refuelAttempts st + 1)
                                   (S (refuel_calls st)))
              | Some _ => Stop (mkPS (outputs st) (lastOutName st) (lastProgressAt st)
                                  true (refuelAttempts st) (S (refuel_calls st)))
              end
            else Stop (mkPS (outputs st) (lastOutName st) (lastProgressAt st)
                         true (refuelAttempts st) (refuel_calls st))
        | None => Stop (mkPS (outputs st) (lastOutName st) (lastProgressAt st)
                          true (refuelAttempts st) (refuel_calls st))
        end
      else Stop st).
  { unfold poll_turn.
    replace (outputs st <? inserted) with true by (symmetry; apply Z.ltb_lt; lia).
    replace (p_t_cond p <? deadline) with true by (symmetry; apply Z.ltb_lt; lia).
    simpl. destruct (p_take p); [discriminate| |];
      (replace (p_t_stall p - lastProgressAt st >? 15000) with true
         by (symmetry; apply Z.gtb_lt; lia)); reflexivity. }
  assert (Hlt : (outputs st <? inserted) = true) by (apply Z.ltb_lt; lia).
  assert (Hge : (outputs st >=? inserted) = false) by (rewrite Z.geb_leb; apply Z.leb_gt; lia).
  assert (Hgive : exists r calls,
    (Some (mkPS (outputs st) (lastOutName st) (lastProgressAt st) true
                (refuelAttempts st) (refuel_calls st)) = poll_loop inserted deadline st (p :: rest)
     \/ (Some (mkPS (outputs st) (lastOutName st) (lastProgressAt st) true
                (refuelAttempts st) (S (refuel_calls st))) = poll_loop inserted deadline st (p :: rest)
         /\ refuelAttempts st < 2)) ->
    collect_outputs device count inserted totalMaxMs t_deadline t0 (pre ++ p :: rest) t_end
      = Some (r, calls)
    /\ ok r = false /\ outOfFuel r = Some true
    /\ reason r = Some "out_of_fuel"%string /\ (calls <= 2)%nat
    /\ forall w itemName cnt att errs,
         attempt w itemName cnt device = Some (Ok r) ->
         smelt_loop w itemName cnt [device] att errs
         = Some (NoDevice (att ++ [device]) (errs ++ [failure_note device r]))
         /\ forall next ds r',
              attempt w itemName cnt next = Some (Ok r') -> ok r' = true ->
              smelt_loop w itemName cnt (device :: next :: ds) att errs
              = Some (Success r' ((att ++ [device]) ++ [next]))).
  { destruct (poll_loop inserted deadline st (p :: rest)) as [st'|] eqn:Hl.
    - eexists. eexists. intros Hcase. unfold collect_outputs.
      fold (poll_deadline t_deadline inserted totalMaxMs). fold deadline.
      rewrite (poll_loop_app _ _ _ _ _ _ Hrun), Hl.
      assert (Hst' : outputs st' = outputs st /\ ps_outOfFuel st' = true
                     /\ (refuel_calls st' <= 2)%nat).
      { destruct Hcase as [H|[H Hlt2]]; inversion H; subst st'; simpl;
          repeat split; lia. }
      destruct Hst' as (Ho' & Hf' & Hc').
      rewrite Ho', Hf', Hlt, Hge. split; [reflexivity|]. simpl.
      split; [reflexivity|]. split; [reflexivity|]. split; [reflexivity|].
      split; [exact Hc'|].
      intros w itemName cnt att errs Ha.
      apply smelt_loop_after_failure; [exact Ha|reflexivity].
    - exists (mkDR false device None None None None None None None None), 0%nat.
      intros [H|[H _]]; discriminate. }
  destruct (p_hasFuel p) eqn:Hfuel; simpl in Hturn.
  - unfold collect_outputs. fold (poll_deadline t_deadline inserted totalMaxMs). fold deadline.
    rewrite (poll_loop_app _ _ _ _ _ _ Hrun). simpl. rewrite Hturn.
    eexists. eexists. split; [reflexivity|]. simpl. rewrite Hlt, Hge, Ho. simpl.
    repeat split; [|lia].
    destruct (t_end >=? deadline); discriminate.
  - unfold refuels. destruct (p_fuel p) as [c|] eqn:Hf.
    + destruct (refuelAttempts st <? 2) eqn:E.
      * destruct (p_putFuel p) as [msg|] eqn:Hp.
        -- destruct Hgive as (r & calls & Hg). exists r, calls. apply Hg. right.
           simpl. rewrite Hturn. split; [reflexivity|]. now apply Z.ltb_lt.
        -- eexists. rewrite (poll_run_app _ _ _ _ _ _ Hrun). simpl. rewrite Hturn.
           split; [reflexivity|]. simpl. auto.
      * destruct Hgive as (r & calls & Hg).
        destruct (p_putFuel p); exists r, calls; apply Hg; left; simpl; now rewrite Hturn.
    + destruct Hgive as (r & calls & Hg). exists r, calls.
      apply Hg; left; simpl; now rewrite Hturn.
Qed.

(** Iron ore, one unit, no preferred device.  On the blast furnace the
    fuel slot is found empty at three stalls with coal in the inventory:
    the first two are answered by a refuel, the third ends the attempt as
    out of fuel; the furnace is tried next and gives the ingot. *)
Lemma refuel_twice_then_out_of_fuel_witness :
  let stall t := mkPoll t TookNothing 0 t false (Some 5) None t in
  let pre := [stall 16000; stall 32000] in
  let p := stall 48000 in
  let took := mkPoll 1000 (TookItem (Some 1) "iron_ingot") 1000 1000 true None None 0 in
  let w := mkWorld (fun d => match d with
                             | blast_furnace =>
                                 mkFS None 1 true None None [(Some 1, None)] 0 0 (pre ++ [p]) 48000
                             | _ => mkFS None 1 true None None [(Some 1, None)] 0 0 [took] 1000
                             end)
                   (mkCS false false None false None 0 [] 0 [] 0) in
  let r_out := mkDR false blast_furnace (Some 0) (Some 1) (Some 1) (Some false) (Some false)
                    (Some true) (Some "out_of_fuel"%string) None in
  let r_ok := mkDR true furnace (Some 1) (Some 1) (Some 0) (Some false) (Some false)
                   (Some false) None (Some "iron_ingot"%string) in
  poll_run 1 (poll_deadline 0 1 None) (poll_start 0) pre
    = Some (mkPS 0 None 32000 false 2 2)
  /\ collect_outputs blast_furnace 1 1 None 0 0 (pre ++ [p]) 48000 = Some (r_out, 2%nat)
  /\ smelt_loop w "iron_ore" 1 [blast_furnace] [] []
     = Some (NoDevice [blast_furnace] ["blast_furnace_failed"%string])
  /\ smeltItem w "iron_ore" None 1 = Some (Success r_ok [blast_furnace; furnace]).
Proof.
  intros stall pre p took w r_out r_ok.
  assert (Hrun : poll_run 1 (poll_deadline 0 1 None) (poll_start 0) pre
                 = Some (mkPS 0 None 32000 false 2 2)) by reflexivity.
  split; [exact Hrun|].
  pose proof (refuel_twice_then_out_of_fuel blast_furnace 1 1 None 0 0 48000 pre [] p
                (mkPS 0 None 32000 false 2 2) Hrun) as H.
  destruct H as [_ H]; [simpl; lia | vm_compute; reflexivity | reflexivity | simpl; lia |].
  simpl in H. destruct H as (r & calls & Hc & _ & _ & _ & _ & Hnext).
  assert (Hr : (r, calls) = (r_out, 2%nat)).
  { vm_compute in Hc. inversion Hc. reflexivity. }
  inversion Hr. subst r calls.
  split; [exact Hc|].
  assert (Ha : attempt w "iron_ore" 1 blast_furnace = Some (Ok r_out))
    by (vm_compute; reflexivity).
  destruct (Hnext w "iron_ore"%string 1 [] [] Ha) as [Hlast Hthen].
  split; [exact Hlast|].
  assert (Hf : attempt w "iron_ore" 1 furnace = Some (Ok r_ok)) by (vm_compute; reflexivity).
  exact (Hthen furnace [] r_ok Hf eq_refl).
Defined.

End Smelting.

(** ** Chat buffer ([readChat] and the listeners it attaches) *)

Module ChatLog.

Local Open Scope Z_scope.

Inductive Kind := chat | system.

Record Message := mkMessage {
  msg_type : Kind;
  msg_text : string;
  msg_from : option string;
  msg_time : Z
}.

(** [bot.__chatLog]: [None] until the first [readChat] creates the array and
    attaches the two listeners. *)
Definition Log : Type := option (list Message).

(** [log.push(m); if (log.length > 100) log.shift()] *)
Definition push_bounded (l : list Message) (m : Message) : list Message :=
  let l' := l ++ [m] in
  if (Z.of_nat (length l') >? 100) then drop 1 l' else l'.

(** [arr.slice(start)] for an integer [start]. *)
Definition js_slice_from {A} (start : Z) (l : list A) : list A :=
  let n := Z.of_nat (length l) in
  let from := if start <? 0 then Z.max (n + start) 0 else Z.min start n in
  drop (Z.to_nat from) l.

Inductive Event :=
| ChatEvent (username message : string) (now : Z)   (* the bot's "chat" event *)
| MessageEvent (text : string) (now : Z)            (* the bot's "message" event *)
| ReadChat (count : Z).                             (* a [readChat] call *)

(** The listeners exist only once [readChat] has run. *)
Definition on_event (log : Log) (e : Event) : Log :=
  match e, log with
  | ChatEvent u m now, Some l => Some (push_bounded l (mkMessage chat m (Some u) now))
  | MessageEvent t now, Some l => Some (push_bounded l (mkMessage system t None now))
  | ReadChat _, None => Some []
  | _, _ => log
  end.

(** [readChat(params)] with [count = Number(params.count ?? 20)]: the
    messages returned and the log afterwards. *)
Definition readChat (count : option Z) (log : Log) : list Message * Log :=
  let l := match log with Some l => l | None => [] end in
  let c := match count with Some c => c | None => 20 end in
  (js_slice_from (- c) l, Some l).

Definition run (evs : list Event) (log : Log) : Log := fold_left on_event evs log.

(** The messages the listeners have seen: those that arrived after the first
    [readChat]. *)
Fixpoint captured_from (attached : bool) (evs : list Event) : list Message :=
  match evs with
  | [] => []
  | ChatEvent u m now :: rest =>
      (if attached then [mkMessage chat m (Some u) now] else [])
      ++ captured_from attached rest
  | MessageEvent t now :: rest =>
      (if attached then [mkMessage system t None now] else [])
      ++ captured_from attached rest
  | ReadChat _ :: rest => captured_from true rest
  end.

(** The last [k] elements. *)
Definition last_n {A} (k : nat) (l : list A) : list A := drop (length l - k) l.

Lemma push_bounded_last (c : list Message) (m : Message) :
  push_bounded (last_n 100 c) m = last_n 100 (c ++ [m]).
Proof.
  unfold push_bounded, last_n. rewrite !length_app, length_drop. simpl.
  destruct (decide (length c < 100)%nat) as [Hlt|Hge].
  - replace (length c - 100)%nat with 0%nat by lia.
    replace (length c + 1 - 100)%nat with 0%nat by lia.
    rewrite !drop_0.
    destruct (Z.gtb_spec (Z.of_nat (length c - 0 + 1)) 100); [lia|reflexivity].
  - destruct (Z.gtb_spec (Z.of_nat (length c - (length c - 100) + 1)) 100); [|lia].
    rewrite <- (drop_app_le c [m] (length c - 100)) by lia.
    rewrite drop_drop. f_equal. lia.
Qed.

Lemma run_from_attached (evs : list Event) (c : list Message) :
  run evs (Some (last_n 100 c)) = Some (last_n 100 (c ++ captured_from true evs)).
Proof.
  revert c. induction evs as [|e rest IH]; intros c; simpl.
  - now rewrite app_nil_r.
  - destruct e as [u m now|t now|k]; simpl.
    + rewrite push_bounded_last, IH, <- app_assoc. reflexivity.
    + rewrite push_bounded_last, IH, <- app_assoc. reflexivity.
    + apply IH.
Qed.

(** X1. The buffer holds the last 100 messages seen by the listeners, oldest
    first, and nothing at all until [readChat] has been called once: what
    arrived before that call is never captured. *)
Theorem chat_log_keeps_last_100 (evs : list Event) :
  match run evs None with
  | None => captured_from false evs = []
            /\ forall k, ~ In (ReadChat k) evs
  | Some l => l = last_n 100 (captured_from false evs)
              /\ (length l <= 100)%nat
              /\ exists k, In (ReadChat k) evs
  end.
Proof.
  induction evs as [|e rest IH] using rev_ind; simpl.
  - split; [reflexivity|]. intros k [].
  - assert (Hcap : forall a es e',
      captured_from a (es ++ [e']) = captured_from a es ++ captured_from
        (a || existsb (fun x => match x with ReadChat _ => true | _ => false end) es) [e']).
    { intros a es. revert a. induction es as [|x es IHes]; intros a e'; simpl.
      - now rewrite orb_false_r.
      - destruct x; simpl; rewrite ?IHes, <- ?app_assoc; try reflexivity.
        now rewrite orb_true_r. }
    assert (Hex : forall es, existsb (fun x => match x with ReadChat _ => true | _ => false end) es
                             = true <-> exists k, In (ReadChat k) es).
    { intros es. rewrite existsb_exists. split.
      - intros ([| |k] & Hin & Hx); try discriminate. eauto.
      - intros (k & Hin). exists (ReadChat k). auto. }
    unfold run in *. rewrite fold_left_app. simpl.
    destruct (fold_left on_event rest None) as [l|] eqn:Hl.
    + destruct IH as (Hlog & Hlen & Hread).
      assert (Hatt : existsb (fun x => match x with ReadChat _ => true | _ => false end) rest
                     = true) by now apply Hex.
      rewrite Hcap, Hatt. simpl.
      assert (Hsome : exists l', on_event (Some l) e = Some l'
                /\ l' = last_n 100 (captured_from false rest ++ captured_from true [e])).
      { pose proof (run_from_attached [e] (captured_from false rest)) as H.
        unfold run in H. simpl in H. rewrite <- Hlog in H. eauto. }
      destruct Hsome as (l' & -> & ->). split; [reflexivity|]. split.
      * unfold last_n. rewrite length_drop. lia.
      * destruct Hread as [k Hk]. exists k. apply in_or_app. now left.
    + destruct IH as (Hcap0 & Hnone).
      assert (Hatt : existsb (fun x => match x with ReadChat _ => true | _ => false end) rest
                     = false).
      { destruct (existsb _ rest) eqn:E; [|reflexivity].
        apply Hex in E as [k Hk]. now destruct (Hnone k). }
      rewrite Hcap, Hatt, Hcap0. destruct e as [u m now|t now|k]; simpl.
      * split; [reflexivity|]. intros k Hin. apply in_app_or in Hin as [Hin|[Hin|[]]];
          [now apply (Hnone k)|discriminate].
      * split; [reflexivity|]. intros k Hin. apply in_app_or in Hin as [Hin|[Hin|[]]];
          [now apply (Hnone k)|discriminate].
      * split; [reflexivity|]. split; [simpl; lia|].
        exists k. apply in_or_app. right. now left.
Qed.

(** X2. [readChat] returns the newest [count] messages of the buffer when
    [count] is positive (all of them when there are fewer), but the whole
    buffer when [count] is 0, and everything except the oldest [-count]
    when it is negative; it never returns more than the buffer holds. *)
Theorem readChat_slice (count : Z) (l : list Message) :
  let out := fst (readChat (Some count) (Some l)) in
  out = (if 0 <? count then last_n (Z.to_nat count) l
         else if count =? 0 then l
         else drop (Z.to_nat (- count)) l)
  /\ Z.of_nat (length out)
     = (if 0 <? count then Z.min count (Z.of_nat (length l))
        else Z.max 0 (Z.of_nat (length l) + count))
  /\ snd (readChat (Some count) (Some l)) = Some l.
Proof.
  simpl. unfold js_slice_from, last_n.
  destruct (Z.ltb_spec 0 count) as [Hpos|Hnpos].
  - destruct (Z.ltb_spec (- count) 0); [|lia].
    split; [f_equal; lia|]. split; [|reflexivity]. rewrite length_drop. lia.
  - destruct (Z.ltb_spec (- count) 0); [lia|].
    assert (Hd : drop (Z.to_nat (Z.min (- count) (Z.of_nat (length l)))) l
                 = drop (Z.to_nat (- count)) l).
    { destruct (Z.min_spec (- count) (Z.of_nat (length l))) as [[H1 ->]|[H1 ->]]; [reflexivity|].
      rewrite Nat2Z.id. rewrite !drop_ge; [reflexivity|lia|lia]. }
    rewrite Hd. split.
    + destruct (Z.eqb_spec count 0) as [->|]; [now rewrite drop_0|reflexivity].
    + split; [|reflexivity]. rewrite length_drop. lia.
Qed.

End ChatLog.

(** ** Auto-feed poller (the [__autoEatInterval] callback) *)

Module AutoEat.

Local Open Scope Z_scope.

(** [bot.__autoEatCfg] *)
Record Config := mkConfig {
  enabled : bool;
  warnCooldownMs : Z;
  lastWarnAt : Z;
  lastTriedAt : Z;
  isEating : bool
}.

(** As the ["login"] handler sets it up. *)
Definition initial : Config := mkConfig true 30000 0 0 false.

Definition hungerThreshold : Z := 15.

(** [bot.__lastHungerWarning] as the poller writes it. *)
Record Warning := mkWarning { needed : Z; current : Z; time : Z }.

(** What a firing of the interval reads before it awaits anything. *)
Record Tick := mkTick {
  has_entity : bool;          (* [bot.entity] is set *)
  food : Z;                   (* [bot.food] *)
  suspended : bool;           (* [bot.__suspendAutoEat] *)
  now : Z;                    (* [Date.now()] *)
  inventory : list string     (* the names of [bot.inventory.items()] *)
}.

(** How a pending [bot.autoEat.eat()] settles, and what the [catch] block
    then reads. *)
Record Settle := mkSettle {
  eat_rejected : bool;
  inventory_after : list string;
  food_after : Z
}.

Record State := mkState {
  cfg : Config;
  pending : option Z;         (* the [now] of the firing that awaits [eat()] *)
  warnings : list Warning;    (* every value written to [__lastHungerWarning] *)
  eats : list Tick            (* the firings that called [eat()] *)
}.

Definition start : State := mkState initial None [] [].

Definition has_food (names : list string) : bool :=
  existsb Smelting.isLikelyFood names.

(** [if (now - (cfg.lastWarnAt || 0) > cfg.warnCooldownMs) { warn; cfg.lastWarnAt = now }] *)
Definition maybe_warn (at_time current_food : Z) (s : State) : State :=
  if at_time - lastWarnAt (cfg s) >? warnCooldownMs (cfg s) then
    mkState (mkConfig (enabled (cfg s)) (warnCooldownMs (cfg s)) at_time
                      (lastTriedAt (cfg s)) (isEating (cfg s)))
            (pending s)
            (warnings s ++ [mkWarning hungerThreshold current_food at_time])
            (eats s)
  else s.

(** The callback up to its [await]. *)
Definition on_tick (t : Tick) (s : State) : State :=
  if negb (enabled (cfg s)) then s
  else if negb (has_entity t) then s
  else if food t >=? hungerThreshold then s
  else if suspended t then s
  else if isEating (cfg s) then s
  else
    let c := mkConfig (enabled (cfg s)) (warnCooldownMs (cfg s)) (lastWarnAt (cfg s))
                      (now t) (isEating (cfg s)) in
    let s1 := mkState c (pending s) (warnings s) (eats s) in
    if has_food (inventory t)
    then mkState (mkConfig (enabled c) (warnCooldownMs c) (lastWarnAt c) (lastTriedAt c) true)
                 (Some (now t)) (warnings s1) (eats s1 ++ [t])
    else maybe_warn (now t) (food t) s1.

(** The callback from the point [eat()] settles: the [catch] block when it
    rejected, then [finally]. *)
Definition on_settle (st : Settle) (s : State) : State :=
  match pending s with
  | None => s
  | Some started =>
      let s1 := if eat_rejected st && negb (has_food (inventory_after st))
                then maybe_warn started (food_after st) s
                else s in
      mkState (mkConfig (enabled (cfg s1)) (warnCooldownMs (cfg s1)) (lastWarnAt (cfg s1))
                        (lastTriedAt (cfg s1)) false)
              None (warnings s1) (eats s1)
  end.

Inductive Event :=
| Fire (t : Tick)
| EatSettles (st : Settle).

Definition handle (s : State) (e : Event) : State :=
  match e with
  | Fire t => on_tick t s
  | EatSettles st => on_settle st s
  end.

Definition run (evs : list Event) (s : State) : State := fold_left handle evs s.

(** Consecutive warning times are more than [gap] apart, the first more
    than [gap] after [t]. *)
Fixpoint warnings_spaced (gap t : Z) (ws : list Warning) : Prop :=
  match ws with
  | [] => True
  | w :: rest => t + gap < time w /\ warnings_spaced gap (time w) rest
  end.

(** The time of the last warning of [ws], [t] when there is none. *)
Fixpoint last_time (t : Z) (ws : list Warning) : Z :=
  match ws with
  | [] => t
  | w :: rest => last_time (time w) rest
  end.

Definition last_warning_time (ws : list Warning) : Z := last_time 0 ws.

(** What the poller keeps true. *)
Record poller_inv (s : State) : Prop := {
  inv_cooldown : warnCooldownMs (cfg s) = 30000;
  inv_last : lastWarnAt (cfg s) = last_warning_time (warnings s);
  inv_spaced : warnings_spaced 30000 0 (warnings s);
  inv_eating : isEating (cfg s) = true <-> is_Some (pending s);
  inv_eats : Forall (fun t => suspended t = false /\ food t < hungerThreshold
                              /\ has_entity t = true /\ has_food (inventory t) = true)
                    (eats s)
}.

Lemma last_time_snoc (t : Z) (ws : list Warning) (w : Warning) :
  last_time t (ws ++ [w]) = time w.
Proof. revert t. induction ws as [|a rest IH]; intros t; simpl; auto. Qed.

Lemma warnings_spaced_snoc (gap t : Z) (ws : list Warning) (w : Warning) :
  warnings_spaced gap t ws ->
  last_time t ws + gap < time w ->
  warnings_spaced gap t (ws ++ [w]).
Proof.
  revert t. induction ws as [|a rest IH]; intros t Hs Hw; simpl in *.
  - auto.
  - destruct Hs as [H1 H2]. split; [exact H1|]. now apply IH.
Qed.

Lemma maybe_warn_inv (t f : Z) (s : State) : poller_inv s -> poller_inv (maybe_warn t f s).
Proof.
  intros [Hc Hl Hs He Ht]. unfold maybe_warn.
  destruct (Z.gtb_spec (t - lastWarnAt (cfg s)) (warnCooldownMs (cfg s))) as [Hgt|Hle];
    [|now split].
  split; simpl; auto.
  - unfold last_warning_time. now rewrite last_time_snoc.
  - apply warnings_spaced_snoc; [exact Hs|]. simpl.
    unfold last_warning_time in Hl. lia.
Qed.

Lemma handle_inv (s : State) (e : Event) : poller_inv s -> poller_inv (handle s e).
Proof.
  intros Hinv. destruct e as [t|st]; simpl.
  - unfold on_tick.
    destruct (negb (enabled (cfg s))); [exact Hinv|].
    destruct (negb (has_entity t)) eqn:Hent; [exact Hinv|].
    destruct (Z.geb_spec (food t) hungerThreshold) as [|Hfood]; [exact Hinv|].
    destruct (suspended t) eqn:Hsus; [exact Hinv|].
    destruct (isEating (cfg s)) eqn:Heat; [exact Hinv|].
    destruct Hinv as [Hc Hl Hs He Ht].
    destruct (has_food (inventory t)) eqn:Hf.
    + split; simpl; auto.
      * split; eauto.
      * apply Forall_app. split; [exact Ht|]. constructor; [|constructor].
        apply negb_false_iff in Hent. auto.
    + apply maybe_warn_inv. split; simpl; auto. now rewrite Heat in He.
  - unfold on_settle. destruct (pending s) as [started|] eqn:Hp; [|exact Hinv].
    assert (H1 : poller_inv (if eat_rejected st && negb (has_food (inventory_after st))
                             then maybe_warn started (food_after st) s else s)).
    { destruct (_ && _); [now apply maybe_warn_inv|exact Hinv]. }
    destruct H1 as [Hc Hl Hs He Ht]. split; simpl; auto.
    split; [discriminate|]. intros [x Hx]. discriminate.
Qed.

Lemma start_inv : poller_inv start.
Proof.
  split; simpl; auto.
  - split; [discriminate|]. intros [x Hx]. discriminate.
Qed.

Lemma run_inv (evs : list Event) (s : State) : poller_inv s -> poller_inv (run evs s).
Proof.
  revert s. induction evs as [|e rest IH]; intros s H; simpl; [exact H|].
  apply IH. now apply handle_inv.
Qed.

(** X3. Whatever the firings of the poller read and however the eat calls
    settle: hunger warnings are written more than 30 s apart; [eat()] is
    called only by a firing that saw the bot hungry (food below 15), not
    suspended and with food in the inventory; and no firing calls [eat()]
    while an earlier call has not settled. *)
Theorem auto_eat_poller_discipline (evs : list Event) (t : Tick) :
  let s := run evs start in
  warnings_spaced 30000 0 (warnings s)
  /\ Forall (fun t => suspended t = false /\ food t < hungerThreshold
                      /\ has_entity t = true /\ has_food (inventory t) = true) (eats s)
  /\ (isEating (cfg s) = true <-> is_Some (pending s))
  /\ (if isEating (cfg s) || suspended t then on_tick t s = s
      else True).
Proof.
  intros s. destruct (run_inv evs start start_inv) as [Hc Hl Hs He Ht]. fold s in Hc, Hl, Hs, He, Ht.
  repeat split; auto; try apply He.
  destruct (isEating (cfg s)) eqn:Heat; simpl.
  - unfold on_tick. rewrite Heat.
    destruct (negb (enabled (cfg s))); [reflexivity|].
    destruct (negb (has_entity t)); [reflexivity|].
    destruct (food t >=? hungerThreshold); [reflexivity|].
    destruct (suspended t); reflexivity.
  - destruct (suspended t) eqn:Hsus; [|exact I].
    unfold on_tick. rewrite Hsus.
    destruct (negb (enabled (cfg s))); [reflexivity|].
    destruct (negb (has_entity t)); [reflexivity|].
    destruct (food t >=? hungerThreshold); reflexivity.
Qed.

End AutoEat.

(** ** Tool selection ([requiredToolCategoryForBlockName],
    [inventoryHasToolCategory], [equipBestToolForBlock]) *)

Module Tools.

Import Suspend.
Local Open Scope string_scope.

Inductive Category := pickaxe | axe | shovel | hoe.

Definition pickTargets : list string :=
  ["ore"; "stone"; "deepslate"; "cobblestone"; "obsidian"; "netherrack"; "end_stone";
   "andesite"; "granite"; "diorite"].
Definition axeTargets : list string := ["log"; "planks"; "wood"; "stem"; "hyphae"].
Definition shovelTargets : list string :=
  ["dirt"; "sand"; "gravel"; "snow"; "clay"; "soul_sand"; "soul_soil"].
Definition hoeTargets : list string :=
  ["leaves"; "hay"; "wheat"; "carrots"; "potatoes"; "beetroots"].

(** The tools of a category, best first. *)
Definition tools (c : Category) : list string :=
  match c with
  | pickaxe => ["netherite_pickaxe"; "diamond_pickaxe"; "iron_pickaxe"; "stone_pickaxe";
                "golden_pickaxe"; "wooden_pickaxe"]
  | axe => ["netherite_axe"; "diamond_axe"; "iron_axe"; "stone_axe"; "golden_axe";
            "wooden_axe"]
  | shovel => ["netherite_shovel"; "diamond_shovel"; "iron_shovel"; "stone_shovel";
               "golden_shovel"; "wooden_shovel"]
  | hoe => ["netherite_hoe"; "diamond_hoe"; "iron_hoe"; "stone_hoe"; "golden_hoe";
            "wooden_hoe"]
  end.

Definition requiredToolCategoryForBlockName (name : string) : option Category :=
  let n := JsString.toLowerCase name in
  if JsString.includes_any n pickTargets then Some pickaxe
  else if JsString.includes_any n axeTargets then Some axe
  else if JsString.includes_any n shovelTargets then Some shovel
  else if JsString.includes_any n hoeTargets then Some hoe
  else None.

(** [list.includes(name)] *)
Definition name_in (names : list string) (name : string) : bool :=
  existsb (String.eqb name) names.

Definition inventoryHasToolCategory (b : Bot) (c : Category) : bool :=
  existsb (fun i => name_in (tools c) (item_name i)) (inventory b).

(** [equipFromList(names)] of [equipBestToolForBlock]; [outcome] is what
    [bot.equip] does if it is reached. *)
Fixpoint equipFromList (names : list string) (outcome : option string) : M bool :=
  match names with
  | [] => ret false
  | nm :: rest =>
      fun b =>
        match find_item nm b with
        | Some it => (run! guarded_equip it "hand" outcome in ret true) b
        | None => equipFromList rest outcome b
        end
  end.

(** [try { body } catch {}] followed by [return false]. *)
Definition swallow (body : M bool) : M bool :=
  fun b => match body b with
           | (Ok r, b') => (Ok r, b')
           | (Throw _, b') => (Ok false, b')
           end.

(** [equipBestToolForBlock(bot, block)].  [plugin] tells whether
    [bot.tool.equipForBlock] exists and, if so, whether it rejects;
    [blockName] is [block?.name]. *)
Definition equipBestToolForBlock (plugin : option (option string))
    (blockName : option string) (outcome : option string) : M bool :=
  fun b =>
    match plugin with
    | Some None => (Ok true, b)
    | _ =>
        let n := JsString.toLowerCase
                   (match blockName with
                    | Some s => if JsString.truthy s then s else ""
                    | None => ""
                    end) in
        swallow
          (if JsString.includes_any n pickTargets then equipFromList (tools pickaxe) outcome
           else if JsString.includes_any n axeTargets then equipFromList (tools axe) outcome
           else if JsString.includes_any n shovelTargets then equipFromList (tools shovel) outcome
           else if JsString.includes_any n hoeTargets then equipFromList (tools hoe) outcome
           else ret false) b
    end.

Lemma equipFromList_spec (names : list string) (outcome : option string) (b : Bot) :
  count_ok b ->
  let (r, b') := equipFromList names outcome b in
  (r = Ok false /\ b' = b /\ forall nm, In nm names -> find_item nm b = None)
  \/ exists pre nm post,
       names = (pre ++ nm :: post)%list
       /\ (forall x, In x pre -> find_item x b = None)
       /\ find_item nm b <> None
       /\ calls b' = (calls b ++ [EvEquip nm "hand" true])%list
       /\ suspendAutoEatCount b' = Some (number_or_zero (suspendAutoEatCount b))
       /\ inventory b' = inventory b
       /\ r = match outcome with None => Ok true | Some msg => Throw msg end.
Proof.
  intros Hc. induction names as [|nm rest IH]; simpl.
  - left. repeat split; auto. intros ? [].
  - destruct (find_item nm b) as [it|] eqn:Hf.
    + pose proof (guarded_equip_spec it "hand" outcome b Hc) as H.
      assert (Hinv : inventory (snd (guarded_equip it "hand" outcome b)) = inventory b).
      { unfold guarded_equip, bind, modify, try_finally, bot_equip.
        destruct outcome; reflexivity. }
      unfold bind. destruct (guarded_equip it "hand" outcome b) as [r b1].
      destruct H as (Hcalls & Hcnt & _ & Hr).
      assert (Hn : item_name it = nm).
      { unfold find_item in Hf. apply find_some in Hf as [_ Hn]. now apply String.eqb_eq. }
      rewrite Hn in Hcalls. subst r. simpl in Hinv.
      destruct outcome; simpl; right; exists [], nm, rest;
        (repeat split; auto; [intros x [] | congruence]).
    + destruct (equipFromList rest outcome b) as [r b'].
      destruct IH as [(Hr & Hb & Hnone)|(pre & n & post & H1 & H2 & H3 & H4 & H5 & H6 & H7)].
      * left. repeat split; auto. intros x [<-|Hin]; auto.
      * right. exists (nm :: pre), n, post.
        rewrite H1. repeat split; auto. intros x [<-|Hin]; auto.
Qed.

Lemma name_in_In (names : list string) (name : string) :
  name_in names name = true <-> In name names.
Proof.
  unfold name_in. rewrite existsb_exists. split.
  - intros (x & Hin & He). apply String.eqb_eq in He. now subst.
  - intros Hin. exists name. split; [exact Hin | apply String.eqb_refl].
Qed.

Lemma find_item_none (nm : string) (b : Bot) :
  find_item nm b = None <-> forall i, In i (inventory b) -> item_name i <> nm.
Proof.
  unfold find_item. split.
  - intros Hf i Hin He. eapply find_none in Hf; [|exact Hin].
    simpl in Hf. apply String.eqb_neq in Hf. contradiction.
  - intros H. destruct (find _ _) as [it|] eqn:Hf; [|reflexivity].
    apply find_some in Hf as [Hin He]. apply String.eqb_eq in He.
    now apply H in Hin.
Qed.

(** [inventoryHasToolCategory] holds exactly when some tool of the category
    is found by name. *)
Lemma inventoryHasToolCategory_find (b : Bot) (c : Category) :
  inventoryHasToolCategory b c = true
  <-> exists nm, In nm (tools c) /\ find_item nm b <> None.
Proof.
  unfold inventoryHasToolCategory. rewrite existsb_exists. split.
  - intros (i & Hin & Hn). apply name_in_In in Hn.
    exists (item_name i). split; [exact Hn|].
    intros Hf. rewrite find_item_none in Hf. now apply (Hf i).
  - intros (nm & Hin & Hf).
    destruct (find_item nm b) as [it|] eqn:E; [|congruence].
    unfold find_item in E. apply find_some in E as [Hi He].
    apply String.eqb_eq in He. exists it. split; [exact Hi|].
    apply name_in_In. now rewrite He.
Qed.

(** The heuristic branch of [equipBestToolForBlock] picks its list by the
    same tests as [requiredToolCategoryForBlockName]. *)
Definition heuristic (n : string) (outcome : option string) : M bool :=
  match requiredToolCategoryForBlockName n with
  | Some c => equipFromList (tools c) outcome
  | None => ret false
  end.

Lemma lower_truthy (s : string) :
  JsString.toLowerCase (if JsString.truthy s then s else "") = JsString.toLowerCase s.
Proof. destruct s; reflexivity. Qed.

(** X4. [equipBestToolForBlock] never throws and leaves the suspension
    counter and the inventory as it found them; any equip it makes itself
    is made with auto-eat suspended.  When the tool plugin is absent or
    rejects, it equips the best tool (first of the category's list, best
    material first) that the inventory holds for the category
    [requiredToolCategoryForBlockName] gives the block, and answers [true]
    exactly when that equip resolves; with no category for the block or no
    tool of the category ([inventoryHasToolCategory] false) it answers
    [false] without touching the bot. *)
Theorem equipBestToolForBlock_best_tool (plugin : option (option string))
    (blockName : string) (outcome : option string) (b : Bot) :
  count_ok b ->
  exists r b',
    equipBestToolForBlock plugin (Some blockName) outcome b = (Ok r, b')
    /\ number_or_zero (suspendAutoEatCount b') = number_or_zero (suspendAutoEatCount b)
    /\ inventory b' = inventory b
    /\ (if decide (plugin = Some None) then r = true /\ b' = b
        else
          match requiredToolCategoryForBlockName blockName with
          | Some c =>
              if inventoryHasToolCategory b c
              then exists pre nm post,
                     tools c = (pre ++ nm :: post)%list
                     /\ (forall x i, In x pre -> In i (inventory b) -> item_name i <> x)
                     /\ (exists i, In i (inventory b) /\ item_name i = nm)
                     /\ calls b' = (calls b ++ [EvEquip nm "hand" true])%list
                     /\ r = match outcome with None => true | Some _ => false end
              else r = false /\ b' = b
          | None => r = false /\ b' = b
          end).
Proof.
  intros Hc.
  destruct (decide (plugin = Some None)) as [->|Hp].
  { exists true, b. simpl. auto. }
  assert (E : equipBestToolForBlock plugin (Some blockName) outcome b
              = swallow (heuristic blockName outcome) b).
  { unfold equipBestToolForBlock, heuristic, requiredToolCategoryForBlockName.
    rewrite lower_truthy.
    destruct plugin as [[e|]|]; [| congruence |];
      repeat (destruct (JsString.includes_any _ _); [reflexivity|]); reflexivity. }
  rewrite E. unfold swallow, heuristic.
  destruct (requiredToolCategoryForBlockName blockName) as [c|].
  2:{ exists false, b. simpl. auto. }
  pose proof (equipFromList_spec (tools c) outcome b Hc) as H.
  destruct (equipFromList (tools c) outcome b) as [r b1].
  destruct H as [(Hr & Hb & Hnone)|(pre & nm & post & H1 & H2 & H3 & H4 & H5 & H6 & H7)].
  - subst. exists false, b. repeat split; auto.
    destruct (inventoryHasToolCategory b c) eqn:Hi; [|auto].
    apply inventoryHasToolCategory_find in Hi as (nm & Hin & Hf).
    now apply Hnone in Hin.
  - assert (Hi : inventoryHasToolCategory b c = true).
    { apply inventoryHasToolCategory_find. exists nm. split; [|exact H3].
      rewrite H1. apply in_or_app. right. now left. }
    rewrite Hi.
    assert (Hex : exists i, In i (inventory b) /\ item_name i = nm).
    { destruct (find_item nm b) as [it|] eqn:F; [|congruence].
      unfold find_item in F. apply find_some in F as [? He].
      apply String.eqb_eq in He. eauto. }
    assert (Hpre : forall x i, In x pre -> In i (inventory b) -> item_name i <> x).
    { intros x i Hx Hin. apply H2 in Hx. rewrite find_item_none in Hx. auto. }
    subst r. destruct outcome as [msg|].
    + exists false, b1. rewrite H5. repeat split; auto.
      exists pre, nm, post. auto.
    + exists true, b1. rewrite H5. repeat split; auto.
      exists pre, nm, post. auto.
Qed.

Lemma equipBestToolForBlock_best_tool_witness :
  let b := fresh_bot [mkItem "stone_pickaxe" 1 1; mkItem "iron_pickaxe" 2 1] in
  exists r b',
    equipBestToolForBlock None (Some "Iron_Ore") None b = (Ok r, b')
    /\ calls b' = [EvEquip "iron_pickaxe" "hand" true] /\ r = true.
Proof.
  intros b.
  destruct (equipBestToolForBlock_best_tool None "Iron_Ore" None b (fresh_count_ok _))
    as (r & b' & He & _).
  exists r, b'. split; [exact He|].
  vm_compute in He. inversion He. split; reflexivity.
Defined.

End Tools.

(** ** Block-name aliases ([resolveBlockAliases]) *)

Module Blocks.

Local Open Scope string_scope.

(** [resolveBlockAliases(name, mcData)]; [all] is
    [Object.keys(mcData.blocksByName)]. *)
Definition resolveBlockAliases (name : string) (all : list string) : list string :=
  let n := JsString.toLowerCase name in
  if String.eqb n "log" then List.filter (fun b => JsString.endsWith b "_log") all
  else if String.eqb n "bed" then List.filter (fun b => JsString.includes b "bed") all
  else if String.eqb n "planks" then List.filter (fun b => JsString.endsWith b "_planks") all
  else List.filter (fun b => JsString.includes b n) all.

Lemma prefix_refl (s : string) : String.prefix s s = true.
Proof. induction s as [|c s IH]; simpl; [reflexivity|]. now destruct (ascii_dec c c). Qed.

Lemma includes_refl (s : string) : JsString.includes s s = true.
Proof. destruct s; simpl; [reflexivity|]. rewrite prefix_refl. now destruct (ascii_dec a a). Qed.

Lemma includes_tail (c : ascii) (s sub : string) :
  JsString.includes s sub = true -> JsString.includes (String c s) sub = true.
Proof. intros H. simpl. rewrite H. apply orb_true_r. Qed.

Lemma endsWith_includes (s suf : string) :
  JsString.endsWith s suf = true -> JsString.includes s suf = true.
Proof.
  induction s as [|c s IH]; cbn [JsString.endsWith].
  - destruct suf; [reflexivity | discriminate].
  - intros H. apply orb_true_iff in H as [H|H].
    + apply String.eqb_eq in H. subst suf.
      change (JsString.includes (String c s) (String c s) = true). apply includes_refl.
    + change (JsString.includes (String c s) suf = true).
      apply includes_tail. auto.
Qed.

(** What an alias stands for as a plain substring. *)
Definition needle (name : string) : string :=
  let n := JsString.toLowerCase name in
  if String.eqb n "log" then "_log"
  else if String.eqb n "planks" then "_planks"
  else n.

(** X5. Every name [resolveBlockAliases] returns is a key of the block
    registry and contains the (lower-cased) query, with [log] and [planks]
    standing for the suffixes [_log] and [_planks]; the registry's order is
    kept; and a query that is itself a registered block name, in any letter
    case, is always among the results unless it is one of the two suffix
    aliases. *)
Theorem resolveBlockAliases_sound (name : string) (all : list string) :
  let n := JsString.toLowerCase name in
  (forall b, In b (resolveBlockAliases name all) ->
             In b all /\ JsString.includes b (needle name) = true)
  /\ (exists keep, resolveBlockAliases name all = List.filter keep all)
  /\ (In n all -> n <> "log" -> n <> "planks" -> In n (resolveBlockAliases name all)).
Proof.
  unfold resolveBlockAliases, needle. simpl.
  destruct (String.eqb_spec (JsString.toLowerCase name) "log") as [E1|E1];
    [|destruct (String.eqb_spec (JsString.toLowerCase name) "bed") as [E2|E2];
      [|destruct (String.eqb_spec (JsString.toLowerCase name) "planks") as [E3|E3]]].
  - split; [|split; [eauto | congruence]].
    intros b Hb. apply filter_In in Hb as [? ?]. split; [auto|]. now apply endsWith_includes.
  - split; [|split; [eauto|]].
    + intros b Hb. apply filter_In in Hb as [? ?]. rewrite E2. auto.
    + intros Hin _ _. apply filter_In. split; [exact Hin|]. rewrite E2. reflexivity.
  - split; [|split; [eauto | congruence]].
    intros b Hb. apply filter_In in Hb as [? ?]. split; [auto|]. now apply endsWith_includes.
  - split; [|split; [eauto|]].
    + intros b Hb. apply filter_In in Hb as [? ?]. auto.
    + intros Hin _ _. apply filter_In. split; [exact Hin | apply includes_refl].
Qed.

End Blocks.

(** ** The registry over a session's life ([joinGame], the ["end"] handler,
    [leaveGame]) *)

Module Lifecycle.

Import Registry.
Local Open Scope string_scope.

(** [joinGame] as a whole: the name check, [bots.set], and then the wait
    for the login ([login = None]: the ["login"] event comes and the call
    resolves; [login = Some e]: the ["error"] or ["kicked"] event comes
    first and the call rejects with [e]). *)
Definition joinGame (params_username : string) (login : option string)
    (s : State) : Result string * State :=
  let name := join_name params_username in
  if has name (bots s) then (Throw ("Bot '" +:+ name +:+ "' already exists"), s)
  else
    let s' := apply_op s (JoinGame params_username) in
    match login with
    | None => (Ok name, apply_op s' (Login (mkBot (joined s))))
    | Some e => (Throw e, s')
    end.

(** [leaveGame] without [disconnectAll]; the answer is
    [{ ok: true, username: bot.username }]. *)
Definition leaveGame (params_username : string) (bot_username : option string)
    (s : State) : Result (option string) * State :=
  match getBotOrThrow (Some params_username) (bots s) with
  | Ok _ => (Ok bot_username, apply_op s (LeaveGame params_username bot_username))
  | Throw e => (Throw e, s)
  end.

Definition keys (m : JsMap Bot) : list string := map fst m.

(** No name is filed twice. *)
Definition unique_keys (m : JsMap Bot) : Prop := List.NoDup (keys m).

Lemma get_None (k : string) (m : JsMap Bot) :
  get k m = None <-> ~ In k (keys m).
Proof.
  induction m as [|[k0 b0] rest IH]; simpl; [tauto|].
  destruct (String.eqb_spec k0 k) as [->|Hne].
  - split; [discriminate | intros H; exfalso; apply H; now left].
  - rewrite IH. tauto.
Qed.

Lemma get_set_eq (k : string) (b : Bot) (m : JsMap Bot) : get k (set k b m) = Some b.
Proof.
  induction m as [|[k0 b0] rest IH]; simpl.
  - now rewrite String.eqb_refl.
  - destruct (String.eqb k0 k) eqn:E; simpl; rewrite E; auto.
Qed.

Lemma get_set_other (k k' : string) (b : Bot) (m : JsMap Bot) :
  k <> k' -> get k' (set k b m) = get k' m.
Proof.
  intros Hne. induction m as [|[k0 b0] rest IH]; simpl.
  - destruct (String.eqb_spec k k'); [contradiction | reflexivity].
  - destruct (String.eqb_spec k0 k) as [->|H0]; simpl.
    + destruct (String.eqb_spec k k'); [contradiction | reflexivity].
    + destruct (String.eqb k0 k'); auto.
Qed.

Lemma get_delete_other (k k' : string) (m : JsMap Bot) :
  k <> k' -> get k' (delete k m) = get k' m.
Proof.
  intros Hne. induction m as [|[k0 b0] rest IH]; simpl; [reflexivity|].
  destruct (String.eqb_spec k0 k) as [->|H0]; simpl.
  - destruct (String.eqb_spec k k'); [contradiction | reflexivity].
  - destruct (String.eqb k0 k'); auto.
Qed.

Lemma keys_delete_subset (k x : string) (m : JsMap Bot) :
  In x (keys (delete k m)) -> In x (keys m).
Proof.
  induction m as [|[k0 b0] rest IH]; simpl; [auto|].
  destruct (String.eqb k0 k); simpl; [now right|].
  intros [H|H]; [now left | right; auto].
Qed.

Lemma get_delete_eq (k : string) (m : JsMap Bot) :
  unique_keys m -> get k (delete k m) = None.
Proof.
  unfold unique_keys.
  induction m as [|[k0 b0] rest IH]; simpl; intros Hnd; [reflexivity|].
  apply NoDup_cons_iff in Hnd as [Hnotin Hnd].
  destruct (String.eqb_spec k0 k) as [->|H0]; simpl.
  - now apply get_None.
  - destruct (String.eqb_spec k0 k); [contradiction | auto].
Qed.

Lemma delete_unique (k : string) (m : JsMap Bot) : unique_keys m -> unique_keys (delete k m).
Proof.
  unfold unique_keys. induction m as [|[k0 b0] rest IH]; simpl; intros Hu; [constructor|].
  apply NoDup_cons_iff in Hu as [Hnotin Hu].
  destruct (String.eqb k0 k); [exact Hu|].
  simpl. apply NoDup_cons_iff. split; [|auto].
  intros Hin. apply Hnotin. eapply keys_delete_subset. exact Hin.
Qed.

Lemma keys_set (k : string) (b : Bot) (m : JsMap Bot) :
  keys (set k b m) = if has k m then keys m else (keys m ++ [k])%list.
Proof.
  unfold has. induction m as [|[k0 b0] rest IH]; simpl; [reflexivity|].
  destruct (String.eqb k0 k) eqn:E; simpl; [reflexivity|].
  rewrite IH. now destruct (get k rest).
Qed.

Lemma set_fresh_unique (k : string) (b : Bot) (m : JsMap Bot) :
  has k m = false -> unique_keys m -> unique_keys (set k b m).
Proof.
  unfold unique_keys. intros Hhas Hu.
  rewrite keys_set, Hhas. apply List.NoDup_app; [exact Hu | |].
  - apply List.NoDup_cons; [intros [] | constructor].
  - intros x Hx [Hk|[]]. subst x. unfold has in Hhas.
    destruct (get k m) eqn:E; [discriminate|]. now apply get_None in E.
Qed.

Lemma unique_step (s : State) (o : Op) :
  unique_keys (bots s) -> unique_keys (bots (apply_op s o)).
Proof.
  intros H. destruct o as [pu|b|key b|pu u|]; simpl.
  - destruct (has (join_name pu) (bots s)) eqn:Hhas; [exact H|].
    simpl. now apply set_fresh_unique.
  - exact H.
  - destruct (get key (bots s)) as [b'|]; [|exact H].
    destruct (bot_eqb b' b); [|exact H]. now apply delete_unique.
  - destruct (getBotOrThrow (Some pu) (bots s)) as [b|]; [|exact H].
    destruct u as [name|]; [|exact H]. simpl. now apply delete_unique.
  - constructor.
Qed.

Lemma unique_run (ops : list Op) (s : State) :
  unique_keys (bots s) -> unique_keys (bots (run ops s)).
Proof.
  revert s. induction ops as [|o ops IH]; intros s H; simpl; [exact H|].
  apply IH. now apply unique_step.
Qed.

Lemma unique_empty : unique_keys (bots empty).
Proof. constructor. Qed.

(** Removing a name just filed gives the registry back, entry for entry. *)
Lemma delete_set_fresh (k : string) (b : Bot) (m : JsMap Bot) :
  has k m = false -> delete k (set k b m) = m.
Proof.
  unfold has. induction m as [|[k0 b0] rest IH]; simpl.
  - now rewrite String.eqb_refl.
  - destruct (String.eqb k0 k) eqn:E; [discriminate|].
    simpl. rewrite E. intros H. f_equal. auto.
Qed.

(** What a lookup gives after one operation, in terms of lookups before. *)
Definition lookup_after (s : State) (o : Op) (k : string) : option Bot :=
  match o with
  | JoinGame pu =>
      if String.eqb (join_name pu) k
      then Some (match get k (bots s) with
                 | Some b => b
                 | None => mkBot (joined s)
                 end)
      else get k (bots s)
  | Login _ => get k (bots s)
  | End key b =>
      if String.eqb key k
      then match get k (bots s) with
           | Some b' => if bot_eqb b' b then None else Some b'
           | None => None
           end
      else get k (bots s)
  | LeaveGame pu bot_username =>
      match getBotOrThrow (Some pu) (bots s), bot_username with
      | Ok _, Some gone => if String.eqb gone k then None else get k (bots s)
      | _, _ => get k (bots s)
      end
  | LeaveAll => None
  end.

(** The name under which [getBotOrThrow] finds the bot it returns. *)
Definition resolved_key (pu : string) (m : JsMap Bot) : option string :=
  if JsString.truthy pu then (if has pu m then Some pu else None)
  else match m with
       | (k0, _) :: _ => Some k0
       | [] => None
       end.

(** X6. On every registry the server can reach, the registry behaves as a
    finite map from names to bot objects.  [joinGame] files the new bot
    under its name only when the name is free and changes no other name;
    a login changes nothing in it; the ["end"] handler removes the entry of
    its name only while its own bot object is still the one registered (a
    late event of a bot that left does not remove a newer bot of the same
    name); [disconnectAll] empties the registry.  [leaveGame] removes
    whatever is filed under the value of [bot.username] of the bot it
    resolved, and nothing else: the resolved bot is unregistered by the
    call exactly when [bot.username] holds the name the bot is registered
    under, and when [bot.username] is still undefined the registry is left
    as it was. *)
Theorem registry_is_a_map (ops : list Op) (o : Op) (k : string) :
  let s := run ops empty in
  get k (bots (apply_op s o)) = lookup_after s o k
  /\ (forall pu u key,
        resolved_key pu (bots s) = Some key ->
        (has key (bots (apply_op s (LeaveGame pu u))) = false <-> u = Some key)
        /\ (u = None -> apply_op s (LeaveGame pu u) = s)).
Proof.
  intros s. pose proof (unique_run ops empty unique_empty) as Hu. fold s in Hu.
  split.
  - destruct o as [pu|b|key b|pu u|]; simpl.
    + destruct (has (join_name pu) (bots s)) eqn:Hhas; unfold has in Hhas.
      * destruct (String.eqb_spec (join_name pu) k) as [<-|]; [|reflexivity].
        destruct (get (join_name pu) (bots s)); [reflexivity | discriminate].
      * simpl. destruct (String.eqb_spec (join_name pu) k) as [<-|Hne].
        -- rewrite get_set_eq.
           destruct (get (join_name pu) (bots s)); [discriminate|reflexivity].
        -- now apply get_set_other.
    + reflexivity.
    + destruct (String.eqb_spec key k) as [->|Hne].
      * destruct (get k (bots s)) as [b'|] eqn:Hg; [|exact Hg].
        destruct (bot_eqb b' b); [now apply get_delete_eq | exact Hg].
      * destruct (get key (bots s)) as [b'|]; [|reflexivity].
        destruct (bot_eqb b' b); [now apply get_delete_other | reflexivity].
    + destruct (getBotOrThrow (Some pu) (bots s)) as [b|]; [|reflexivity].
      destruct u as [gone|]; [|reflexivity]. simpl.
      destruct (String.eqb_spec gone k) as [->|Hne];
        [now apply get_delete_eq | now apply get_delete_other].
    + reflexivity.
  - intros pu u key Hkey.
    assert (Hres : exists b, getBotOrThrow (Some pu) (bots s) = Ok b
                             /\ get key (bots s) = Some b).
    { unfold resolved_key, has in Hkey. unfold getBotOrThrow.
      destruct (JsString.truthy pu).
      - destruct (get pu (bots s)) as [b|] eqn:Hg; [|discriminate].
        inversion Hkey. subst key. eauto.
      - destruct (bots s) as [|[k0 b0] rest]; [discriminate|].
        inversion Hkey. subst key. simpl. rewrite String.eqb_refl.
        destruct (get "" ((k0, b0) :: rest)); eauto. }
    destruct Hres as (b & Hb & Hg). simpl. rewrite Hb. split.
    + unfold has. destruct u as [gone|]; simpl.
      * destruct (String.eqb_spec gone key) as [->|Hne].
        -- rewrite get_delete_eq by exact Hu. split; auto.
        -- rewrite get_delete_other by exact Hne. rewrite Hg.
           split; [discriminate | intros H; inversion H; contradiction].
      * rewrite Hg. split; discriminate.
    + intros ->. reflexivity.
Qed.

(** X7. [joinGame] registers the bot before it waits for the login.  When
    the login fails ([error] or [kicked]) the call rejects with that error
    but the bot stays registered: it is what [getBotOrThrow] resolves the
    name to, and a second [joinGame] with the same name is refused with
    "already exists" whatever its login would do.  [leaveGame] on that name
    removes the entry only if [bot.username] holds the name; while
    [bot.username] is undefined it answers [ok] and leaves the registry as
    it is.  The bot's ["end"] event removes the entry and gives the
    registry back as it was before the call. *)
Theorem joinGame_failed_login_stays_registered (ops : list Op)
    (pu e : string) (login2 : option string) :
  let s := run ops empty in
  let name := join_name pu in
  has name (bots s) = false ->
  let s' := snd (joinGame pu (Some e) s) in
  fst (joinGame pu (Some e) s) = Throw e
  /\ getBotOrThrow (Some name) (bots s') = Ok (mkBot (joined s))
  /\ joinGame pu login2 s' = (Throw ("Bot '" +:+ name +:+ "' already exists"), s')
  /\ leaveGame name None s' = (Ok None, s')
  /\ (fst (leaveGame name (Some name) s') = Ok (Some name)
      /\ bots (snd (leaveGame name (Some name) s')) = bots s)
  /\ bots (apply_op s' (End name (mkBot (joined s)))) = bots s.
Proof.
  intros s name Hhas. unfold joinGame. fold name. rewrite Hhas.
  cbn [fst snd apply_op]. fold name. rewrite Hhas.
  assert (Ht : JsString.truthy name = true).
  { unfold name, join_name. destruct (JsString.truthy pu) eqn:E; [exact E | reflexivity]. }
  assert (Hg : get name (set name (mkBot (joined s)) (bots s)) = Some (mkBot (joined s)))
    by apply get_set_eq.
  assert (Hd : delete name (set name (mkBot (joined s)) (bots s)) = bots s)
    by now apply delete_set_fresh.
  unfold has, leaveGame, getBotOrThrow. cbn [bots joined logged_in ended fst snd apply_op].
  unfold getBotOrThrow. rewrite !Ht, !Hg. cbn [bots joined logged_in ended fst snd].
  unfold bot_eqb. rewrite Nat.eqb_refl, Hd.
  repeat split; reflexivity.
Qed.

Lemma joinGame_failed_login_stays_registered_witness :
  fst (joinGame "Steve" (Some "ECONNREFUSED") (run [JoinGame "Alex"] empty))
    = Throw "ECONNREFUSED"
  /\ fst (joinGame "Steve" None
            (snd (joinGame "Steve" (Some "ECONNREFUSED") (run [JoinGame "Alex"] empty))))
     = Throw "Bot 'Steve' already exists".
Proof.
  pose proof (joinGame_failed_login_stays_registered [JoinGame "Alex"]
                "Steve" "ECONNREFUSED" None eq_refl) as (H1 & _ & H3 & _).
  split; [exact H1|]. cbv zeta in H3. now rewrite H3.
Defined.

End Lifecycle.

(** ** Recipe listings ([listRecipes], [listAllRecipes]) *)

Module RecipeListing.

Import Crafting.
Local Open Scope Z_scope.

(** One element of [recipes] in the answer. *)
Record Listed := mkListed {
  l_requiresTable : bool;
  l_ingredients : list Missing;      (* [{ id, name, count }] *)
  l_craftable : Z
}.

(** The body of the loop over the recipes, for a recipe not seen before:
    [perUnitReq] is filled as in [computeMaxCraftable], [ingList] lists
    its keys, and the estimate starts from 64. *)
Definition list_recipe (name_of : Z -> string) (r : Recipe) (inv : list Item) : Listed :=
  let req := perUnitReq r in
  let ingList := map (fun '(id, cnt) => mkMissing id (name_of id) cnt) (map_to_list req) in
  let max := min_units req (invMap inv) 64 in
  mkListed (requiresTable r) ingList (Z.max 0 max).

(** [if (craftableOnly && craftable <= 0) continue] of [listAllRecipes]. *)
Definition kept (craftableOnly : bool) (l : Listed) : bool :=
  negb (craftableOnly && (l_craftable l <=? 0)).

Lemma no_shortfalls (name_of : Z -> string) (req inv : gmap Z Z) :
  shortfalls name_of req inv = []
  <-> forall id need, req !! id = Some need -> need <= at_or_zero inv id.
Proof.
  split.
  - intros He id need Hl.
    destruct (Z_lt_le_dec (at_or_zero inv id) need) as [Hlt|Hle]; [|exact Hle].
    assert (Hin : In (mkMissing id (name_of id) (need - at_or_zero inv id))
                     (shortfalls name_of req inv)).
    { apply shortfalls_spec. exists id, need. auto. }
    rewrite He in Hin. destruct Hin.
  - intros H. destruct (shortfalls name_of req inv) as [|x rest] eqn:E; [reflexivity|].
    assert (Hin : In x (shortfalls name_of req inv)) by (rewrite E; now left).
    apply shortfalls_spec in Hin as (id & need & Hl & Hlt & _).
    specialize (H _ _ Hl). lia.
Qed.

(** X8. The [craftable] estimate that [listRecipes] and [listAllRecipes]
    report for a recipe (ingredient counts positive) lies between 0 and 64;
    that many units are covered by the inventory for every ingredient (the
    inventory holding no negative quantity of it), and below 64 one more
    unit is not; the ingredient list names exactly the
    ids the recipe needs, with the per-unit quantity.  The estimate agrees
    with [craftItems]: it is at least 1 exactly when [computeMissingFor]
    reports nothing missing for one unit, so with [craftableOnly] a recipe
    is listed exactly when nothing is missing for it. *)
Theorem listRecipes_estimate (name_of : Z -> string) (r : Recipe) (inv : list Item) :
  positive_counts r ->
  let l := list_recipe name_of r inv in
  0 <= l_craftable l <= 64
  /\ (forall id, is_required r id = true -> 0 <= available inv id ->
        l_craftable l * required_units r id <= available inv id)
  /\ (l_craftable l < 64 ->
        exists id, is_required r id = true
                   /\ available inv id < (l_craftable l + 1) * required_units r id)
  /\ (forall x, In x (l_ingredients l)
        <-> exists id, is_required r id = true
                       /\ x = mkMissing id (name_of id) (required_units r id))
  /\ (1 <= l_craftable l <-> computeMissingFor name_of r inv 1 = [])
  /\ (kept true l = true <-> computeMissingFor name_of r inv 1 = []).
Proof.
  intros Hpos l.
  assert (Hreq : forall id n, perUnitReq r !! id = Some n
                              <-> is_required r id = true /\ n = required_units r id).
  { intros id n. rewrite perUnitReq_lookup. destruct (is_required r id).
    - split; [intros H; inversion H; auto | intros [_ ->]; reflexivity].
    - split; [discriminate | intros [? _]; discriminate]. }
  pose proof (min_units_spec (perUnitReq r) (invMap inv) 64) as (Hle & Hall & Hex).
  set (m := min_units (perUnitReq r) (invMap inv) 64) in *.
  assert (Hc : l_craftable l = Z.max 0 m) by reflexivity.
  assert (Hone : 1 <= l_craftable l <-> computeMissingFor name_of r inv 1 = []).
  { unfold computeMissingFor. rewrite <- perUnitReq_reqMap, no_shortfalls, Hc. split.
    - intros H1 id need Hl. pose proof (Hall _ _ Hl) as Hm.
      apply Hreq in Hl as [Hr ->].
      pose proof (required_units_positive r id Hpos Hr) as Hp.
      destruct (Z_lt_le_dec (at_or_zero (invMap inv) id) (required_units r id)) as [Hlt|];
        [exfalso | lia].
      assert (at_or_zero (invMap inv) id / required_units r id < 1)
        by (apply Z.div_lt_upper_bound; lia).
      lia.
    - intros H. destruct Hex as [->|(id & n & Hl & ->)]; [lia|].
      pose proof (H _ _ Hl) as Hge. apply Hreq in Hl as [Hr ->].
      pose proof (required_units_positive r id Hpos Hr) as Hp.
      assert (1 <= at_or_zero (invMap inv) id / required_units r id);
        [apply Z.div_le_lower_bound; lia | lia]. }
  split; [lia|]. split; [|split; [|split; [|split]]].
  - intros id Hr Hav. pose proof (required_units_positive r id Hpos Hr) as Hp.
    assert (Hl : perUnitReq r !! id = Some (required_units r id)) by now apply Hreq.
    pose proof (Hall _ _ Hl) as Hm. rewrite invMap_available in Hm.
    rewrite Hc. destruct (Z.max_spec 0 m) as [[? ->]|[? ->]].
    + transitivity (available inv id / required_units r id * required_units r id);
        [nia | rewrite Z.mul_comm; apply Z.mul_div_le; lia].
    + lia.
  - intros Hlt. destruct Hex as [Hm|(id & n & Hl & Hm)]; [lia|].
    apply Hreq in Hl as [Hr ->]. pose proof (required_units_positive r id Hpos Hr) as Hp.
    rewrite invMap_available in Hm. exists id. split; [exact Hr|].
    assert (available inv id < (m + 1) * required_units r id).
    { rewrite Hm. pose proof (Z.mul_succ_div_gt (available inv id) (required_units r id) Hp).
      lia. }
    rewrite Hc. nia.
  - intros x. unfold l, list_recipe. cbn [l_ingredients]. rewrite in_map_iff. split.
    + intros ([id n] & <- & Hin). apply list_elem_of_In, elem_of_map_to_list in Hin.
      apply Hreq in Hin as [Hr ->]. exists id. auto.
    + intros (id & Hr & ->). exists (id, required_units r id). split; [reflexivity|].
      apply list_elem_of_In, elem_of_map_to_list. now apply Hreq.
  - exact Hone.
  - rewrite <- Hone. unfold kept. simpl andb.
    destruct (Z.leb_spec (l_craftable l) 0); simpl; split; intros; (lia || congruence).
Qed.

Lemma listRecipes_estimate_witness :
  let r := mkRecipe (Some [Some (mkRI 5 (Some 2))]) None false in
  l_craftable (list_recipe (fun _ => "planks"%string) r [mkItem "planks" 5 7]) * 2 <= 7.
Proof.
  intros r.
  assert (Hpos : positive_counts r).
  { unfold positive_counts, r. simpl. constructor; [reflexivity | constructor]. }
  pose proof (listRecipes_estimate (fun _ => "planks"%string) r [mkItem "planks" 5 7] Hpos)
    as (_ & H & _).
  apply (H 5 eq_refl). vm_compute. discriminate.
Defined.

End RecipeListing.

(** ** Edge cases of the smelting chain ([smeltItem], [cookOrSmeltOnDevice],
    [cookOnCampfire]) *)

Module SmeltingEdges.

Import Smelting.
Local Open Scope Z_scope.

Lemma device_eqb_eq (a b : Device) : device_eqb a b = true <-> a = b.
Proof. destruct a, b; simpl; split; (reflexivity || discriminate). Qed.

(** The devices a sequence can be, whatever the item and the preference. *)
Definition sequences : list (list Device) :=
  [ [furnace]; [furnace; campfire];
    [smoker; furnace]; [smoker; furnace; campfire];
    [blast_furnace; furnace]; [blast_furnace; furnace; campfire];
    [campfire; furnace] ].

Lemma device_sequence_cases (itemName : string) (preferDevice : option string) :
  In (device_sequence itemName preferDevice) sequences.
Proof.
  unfold device_sequence, sequences.
  destruct preferDevice as [p|]; [destruct (JsString.truthy p)|].
  - destruct (String.eqb p "campfire");
      [|destruct (String.eqb p "smoker"); [|destruct (String.eqb p "blast_furnace")]];
      destruct (isLikelyFood itemName); simpl; tauto.
  - destruct (isLikelyFood itemName); [|destruct (isLikelyOre itemName)]; simpl; tauto.
  - destruct (isLikelyFood itemName); [|destruct (isLikelyOre itemName)]; simpl; tauto.
Qed.

Lemma NoDup_prefix (pre post : list Device) :
  List.NoDup (pre ++ post) -> List.NoDup pre.
Proof.
  induction pre as [|d pre IH]; simpl; intros H; [constructor|].
  apply List.NoDup_cons_iff in H as [Hn H]. constructor; [|auto].
  intros Hin. apply Hn. apply in_or_app. now left.
Qed.

(** X9. Whatever the item name and whatever string is given as preferred
    device (a name that is not one of the four, or differs in letter case,
    counts as furnace), [smeltItem] tries between one and three devices,
    none of them twice, and the furnace is always among them; the campfire
    is in the sequence only for a food-classified item or when it is the
    preference.  So a call never attempts a device twice, and gives up only
    after the furnace was tried, with one error recorded per device. *)
Theorem device_sequence_shape (w : World) (itemName : string)
    (preferDevice : option string) (count : Z) :
  let sequence := device_sequence itemName preferDevice in
  List.NoDup sequence
  /\ In furnace sequence
  /\ (1 <= length sequence <= 3)%nat
  /\ (In campfire sequence ->
        isLikelyFood itemName = true \/ preferDevice = Some "campfire"%string)
  /\ match smeltItem w itemName preferDevice count with
     | Some (Success r att) => List.NoDup att /\ In (deviceUsed r) sequence
     | Some (NoDevice att errs) =>
         List.NoDup att /\ In furnace att /\ length errs = length att
     | None => True
     end.
Proof.
  intros sequence.
  assert (Hnd : List.NoDup sequence /\ In furnace sequence
                /\ (1 <= length sequence <= 3)%nat).
  { pose proof (device_sequence_cases itemName preferDevice) as Hc. fold sequence in Hc.
    unfold sequences in Hc. simpl in Hc.
    repeat (destruct Hc as [<-|Hc]);
      try (split; [|split; [simpl; tauto | simpl; lia]];
           repeat (constructor; [simpl; intuition discriminate|]); constructor).
    destruct Hc. }
  destruct Hnd as (Hnd & Hf & Hlen).
  split; [exact Hnd|]. split; [exact Hf|]. split; [exact Hlen|]. split.
  - unfold sequence, device_sequence.
    destruct preferDevice as [p|]; [destruct (JsString.truthy p)|].
    + destruct (String.eqb_spec p "campfire") as [->|]; [auto|].
      destruct (String.eqb p "smoker"); [|destruct (String.eqb p "blast_furnace")];
        destruct (isLikelyFood itemName); simpl; intuition discriminate.
    + destruct (isLikelyFood itemName); [auto|].
      destruct (isLikelyOre itemName); simpl; intuition discriminate.
    + destruct (isLikelyFood itemName); [auto|].
      destruct (isLikelyOre itemName); simpl; intuition discriminate.
  - unfold smeltItem. fold sequence.
    pose proof (smelt_loop_spec w itemName count sequence [] []) as H.
    destruct (smelt_loop _ _ _ _ _ _) as [[r att|att errs]|]; [| |exact I].
    + destruct H as (pre & post & Hs & Ha & _). simpl in Ha. split.
      * rewrite Ha. apply (NoDup_prefix _ post).
        rewrite <- app_assoc. simpl. now rewrite <- Hs.
      * rewrite Hs. apply in_or_app. right. now left.
    + destruct H as (Ha & He & _). simpl in Ha, He. subst att. auto.
Qed.

(** X10. A campfire attempt is never reported as a success.  [cookOnCampfire]
    leaves its wait loop only once 45 s have passed since [start], and then
    computes [timedOut = Date.now() - start >= 45000]: when the clock does
    not run backwards between the wait loop and that reading, every return
    has [timedOut = true] and [ok = false].  So [smeltItem] never answers
    with the campfire as [deviceUsed]; with the campfire preferred a
    success can only come from the furnace that follows it. *)
Theorem campfire_never_succeeds (w : World) (itemName : string)
    (preferDevice : option string) (count : Z) :
  (forall t, In t (c_wait (campfire_script w)) -> t <= c_t_end (campfire_script w)) ->
  (forall r, cookOnCampfire itemName (campfire_script w) = Some (Ok r) ->
             ok r = false /\ timedOut r = Some true)
  /\ match smeltItem w itemName preferDevice count with
     | Some (Success r att) => deviceUsed r <> campfire
     | Some (NoDevice _ _) => True
     | None => True
     end.
Proof.
  intros Hmono. split.
  - intros r Hr. pose proof (cookOnCampfire_never_ok itemName _ r Hmono Hr) as Hok.
    split; [exact Hok|].
    unfold cookOnCampfire in Hr.
    destruct (c_campfire _); [|discriminate]. destruct (c_food _); [|discriminate].
    simpl in Hr. destruct (c_equip _); [discriminate|].
    destruct (c_block _); [|discriminate].
    simpl in Hr. destruct (c_activate _); [discriminate|].
    destruct (campfire_wait _ _); [|discriminate].
    destruct (campfire_pickup _ _); [|discriminate].
    inversion Hr. subst r. simpl in *. f_equal. now apply negb_false_iff.
  - unfold smeltItem.
    pose proof (smelt_loop_spec w itemName count (device_sequence itemName preferDevice) [] [])
      as H.
    destruct (smelt_loop _ _ _ _ _ _) as [[r att|att errs]|]; [| exact I | exact I].
    destruct H as (pre & post & _ & _ & Hok & Ha & _).
    intros Hd. rewrite Hd in Ha. simpl in Ha.
    pose proof (cookOnCampfire_never_ok itemName _ r Hmono Ha). congruence.
Qed.

(** A campfire that is there, lit and loaded, with the cooked item dropped
    and found 46 s later. *)
Definition lit_campfire : CampfireScript :=
  mkCS true true None true None 0 [10000; 30000; 46000] 46000 [(46100, true)] 47100.

Lemma campfire_never_succeeds_witness :
  exists r, cookOnCampfire "beef" lit_campfire = Some (Ok r)
            /\ ok r = false /\ timedOut r = Some true.
Proof.
  pose (w := mkWorld (fun _ => mkFS (Some "none"%string) 0 false None None [] 0 0 [] 0)
                     lit_campfire).
  assert (Hmono : forall t, In t (c_wait (campfire_script w)) -> t <= c_t_end (campfire_script w)).
  { simpl. intros t [<-|[<-|[<-|[]]]]; lia. }
  destruct (campfire_never_succeeds w "beef" None 1 Hmono) as [H _].
  eexists. split; [reflexivity|]. apply H. reflexivity.
Defined.

Lemma insert_loop_throw (toProcess inserted : Z) (steps : list (option Z * option string))
    (msg : string) :
  insert_loop toProcess inserted steps = Some (Throw msg) ->
  exists c, In (Some c, Some msg) steps.
Proof.
  revert inserted. induction steps as [|[[c|] put] rest IH]; intros inserted; simpl.
  - destruct (negb (inserted <? toProcess)); discriminate.
  - destruct (negb (inserted <? toProcess)); [discriminate|].
    destruct put as [m|].
    + intros H. inversion H. subst m. exists c. now left.
    + intros H. destruct (IH _ H) as [c' Hin]. exists c'. now right.
  - destruct (negb (inserted <? toProcess)); discriminate.
Qed.

Definition failure_reasons : list string :=
  ["missing_fuel"; "out_of_fuel"; "timed_out"; "stalled"]%string.

(** X11. What a furnace, smoker or blast-furnace attempt can answer.  A
    result that is not [ok] always carries a [reason], one of
    'missing_fuel', 'out_of_fuel', 'timed_out' and 'stalled'; [timedOut]
    and [stalled] are never both set, [stalled] is never set together with
    [outOfFuel], and an [ok] result has neither.  The attempt throws only
    what a collaborator threw (opening the device, [putFuel] into an empty
    fuel slot, [putInput]): it never throws "Missing input" of its own,
    because [toProcess] is at least 1. *)
Theorem device_attempt_outcomes (device : Device) (itemName : string) (count : Z)
    (totalMaxMs : option Z) (fs : FurnaceScript) :
  match cookOrSmeltOnDevice device itemName count totalMaxMs fs with
  | Some (Ok r) =>
      (ok r = false -> exists why, reason r = Some why /\ In why failure_reasons)
      /\ (timedOut r = Some true -> stalled r = Some false)
      /\ (stalled r = Some true -> outOfFuel r = Some false)
      /\ (ok r = true -> timedOut r = Some false /\ stalled r = Some false
                         /\ exists n, outputsCollected r = Some n)
  | Some (Throw msg) =>
      f_open fs = Some msg
      \/ (f_fuel_in_slot fs = false /\ f_putFuel fs = Some msg)
      \/ exists c, In (Some c, Some msg) (f_inputs fs)
  | None => True
  end.
Proof.
  unfold cookOrSmeltOnDevice.
  destruct (f_open fs) as [m|]; [now left|].
  destruct (Z.leb_spec (Z.max 1 (Z.min count (f_available fs))) 0) as [Hle|_]; [lia|].
  assert (Hgo : match
      match insert_loop (Z.max 1 (Z.min count (f_available fs))) 0 (f_inputs fs) with
      | Some (Ok inserted) =>
          match collect_outputs device count inserted totalMaxMs (f_t_deadline fs)
                  (f_t_progress0 fs) (f_polls fs) (f_t_end fs) with
          | Some (r, _) => Some (Ok r)
          | None => None
          end
      | Some (Throw msg) => Some (Throw msg)
      | None => None
      end
    with
    | Some (Ok r) =>
        (ok r = false -> exists why, reason r = Some why /\ In why failure_reasons)
        /\ (timedOut r = Some true -> stalled r = Some false)
        /\ (stalled r = Some true -> outOfFuel r = Some false)
        /\ (ok r = true -> timedOut r = Some false /\ stalled r = Some false
                           /\ exists n, outputsCollected r = Some n)
    | Some (Throw msg) => exists c, In (Some c, Some msg) (f_inputs fs)
    | None => True
    end).
  { destruct (insert_loop _ 0 (f_inputs fs)) as [[inserted|msg]|] eqn:Hi; [| |exact I].
    - unfold collect_outputs. destruct (poll_loop _ _ _ _) as [st|]; [|exact I].
      cbn [ok reason timedOut stalled outOfFuel outputsCollected].
      rewrite Z.geb_leb.
      destruct (Z.leb_spec inserted (outputs st)) as [Hge|Hlt].
      + replace (outputs st <? inserted) with false by (symmetry; apply Z.ltb_ge; lia).
        simpl. repeat split; try discriminate; eauto.
      + replace (outputs st <? inserted) with true by (symmetry; apply Z.ltb_lt; lia).
        unfold failure_reasons.
        destruct (ps_outOfFuel st), (_ >=? _); simpl;
          (repeat split; try discriminate; try reflexivity;
           intros _; eexists; split; [reflexivity | simpl; tauto]).
    - apply insert_loop_throw in Hi. exact Hi. }
  assert (Hgo' : match
      match insert_loop (Z.max 1 (Z.min count (f_available fs))) 0 (f_inputs fs) with
      | Some (Ok inserted) =>
          match collect_outputs device count inserted totalMaxMs (f_t_deadline fs)
                  (f_t_progress0 fs) (f_polls fs) (f_t_end fs) with
          | Some (r, _) => Some (Ok r)
          | None => None
          end
      | Some (Throw msg) => Some (Throw msg)
      | None => None
      end
    with
    | Some (Ok r) =>
        (ok r = false -> exists why, reason r = Some why /\ In why failure_reasons)
        /\ (timedOut r = Some true -> stalled r = Some false)
        /\ (stalled r = Some true -> outOfFuel r = Some false)
        /\ (ok r = true -> timedOut r = Some false /\ stalled r = Some false
                           /\ exists n, outputsCollected r = Some n)
    | Some (Throw msg) =>
        None = Some msg
        \/ (f_fuel_in_slot fs = false /\ f_putFuel fs = Some msg)
        \/ exists c, In (Some c, Some msg) (f_inputs fs)
    | None => True
    end).
  { destruct (insert_loop _ 0 (f_inputs fs)) as [[inserted|msg]|]; [| |exact I].
    - destruct (collect_outputs _ _ _ _ _ _ _ _) as [[r ?]|]; [exact Hgo | exact I].
    - right. right. exact Hgo. }
  clear Hgo.
  destruct (f_fuel_in_slot fs) eqn:Eslot; [exact Hgo'|].
  destruct (f_fuel_found fs) as [c|].
  - destruct (f_putFuel fs) as [m|] eqn:Eput; [right; left; auto | ].
    destruct (insert_loop _ 0 (f_inputs fs)) as [[inserted|msg]|]; [| |exact I].
    + destruct (collect_outputs _ _ _ _ _ _ _ _) as [[r ?]|]; [exact Hgo' | exact I].
    + destruct Hgo' as [?|[[_ ?]|?]]; [discriminate | discriminate | right; right; auto].
  - cbn [ok reason timedOut stalled outOfFuel outputsCollected].
    repeat split; try discriminate.
    intros _. eexists. split; [reflexivity | simpl; tauto].
Qed.

(** X12. Asked to smelt an item the bot does not carry, [smeltItem] reports
    success.  When the first device of the sequence is a furnace, smoker or
    blast furnace that opens and has fuel in its slot, and the inventory
    holds no stack of the item (the insert loop finds none), nothing is
    inserted, the output target is 0 and the polling loop is skipped: the
    answer is [ok: true] with [outputsCollected: 0], whatever [count] was
    asked, and no other device is tried. *)
Theorem smeltItem_without_input_reports_ok (w : World) (itemName : string)
    (preferDevice : option string) (count : Z) (dev : Device) (others : list Device)
    (put : option string) (later : list (option Z * option string)) :
  device_sequence itemName preferDevice = dev :: others ->
  dev <> campfire ->
  f_open (furnace_like w dev) = None ->
  f_fuel_in_slot (furnace_like w dev) = true ->
  f_inputs (furnace_like w dev) = (None, put) :: later ->
  exists r,
    smeltItem w itemName preferDevice count = Some (Success r [dev])
    /\ ok r = true /\ outputsCollected r = Some 0 /\ requested r = Some count
    /\ output r = None /\ reason r = None.
Proof.
  intros Hseq Hdev Hopen Hfuel Hin. unfold smeltItem. rewrite Hseq.
  assert (Ha : exists r, attempt w itemName count dev = Some (Ok r)
                         /\ ok r = true /\ outputsCollected r = Some 0
                         /\ requested r = Some count /\ output r = None /\ reason r = None).
  { assert (Hc : exists r, cookOrSmeltOnDevice dev itemName count None (furnace_like w dev)
                           = Some (Ok r)
                           /\ ok r = true /\ outputsCollected r = Some 0
                           /\ requested r = Some count /\ output r = None /\ reason r = None).
    { unfold cookOrSmeltOnDevice. rewrite Hopen, Hfuel, Hin.
      destruct (Z.leb_spec (Z.max 1 (Z.min count (f_available (furnace_like w dev)))) 0)
        as [Hle|Hgt]; [lia|].
      cbn [insert_loop].
      replace (0 <? Z.max 1 (Z.min count (f_available (furnace_like w dev)))) with true
        by (symmetry; apply Z.ltb_lt; lia).
      cbn [negb]. unfold collect_outputs.
      assert (Hp : poll_loop 0 (f_t_deadline (furnace_like w dev) + Z.max 90000 (60000 * 0))
                     (poll_start (f_t_progress0 (furnace_like w dev)))
                     (f_polls (furnace_like w dev))
                   = Some (poll_start (f_t_progress0 (furnace_like w dev)))).
      { destruct (f_polls (furnace_like w dev)); reflexivity. }
      rewrite Hp. eexists. split; [reflexivity|]. simpl. auto. }
    destruct dev; simpl; try exact Hc. congruence. }
  destruct Ha as (r & Ha & Hok & Hrest). exists r.
  simpl. rewrite Ha, Hok. auto.
Qed.

(** A lit furnace, no beef in the inventory. *)
Definition lit_furnace_world : World :=
  mkWorld (fun _ => mkFS None 0 true None None [(None, None)] 0 0 [] 0)
          (mkCS false false None false None 0 [] 0 [] 0).

Lemma smeltItem_without_input_reports_ok_witness :
  exists r,
    smeltItem lit_furnace_world "cobblestone" None 5 = Some (Success r [furnace])
    /\ ok r = true /\ outputsCollected r = Some 0.
Proof.
  destruct (smeltItem_without_input_reports_ok lit_furnace_world "cobblestone" None 5
              furnace [] None [] eq_refl ltac:(discriminate) eq_refl eq_refl eq_refl)
    as (r & H1 & H2 & H3 & _).
  exists r. auto.
Defined.

End SmeltingEdges.

(** ** What a navigation answer means ([pathfindToPredicate],
    [goToKnownLocation]) *)

Module Navigation.

Import Watchdog.
Local Open Scope Z_scope.

(** The reading [p] is within reach of the target, taken before the
    deadline. *)
Definition in_reach (range : float) (start deadlineMs : Z) (p : Poll) : Prop :=
  PrimFloat.leb (dist p) (reach range) = true /\ t_cond p - start < deadlineMs.

Lemma watch_loop_arrived (deadlineMs idleMs : Z) (range : float) (start : Z)
    (w : Watch) (ps : list Poll) :
  watch_loop deadlineMs idleMs range start w ps = Some Arrived ->
  exists p, In p ps /\ in_reach range start deadlineMs p.
Proof.
  revert w. induction ps as [|p rest IH]; intros w; simpl; [discriminate|].
  destruct (t_cond p - start <? deadlineMs) eqn:Hc; simpl; [|discriminate].
  destruct (PrimFloat.leb (dist p) (reach range)) eqn:Hd.
  - intros _. exists p. split; [now left|]. split; [exact Hd | lia].
  - destruct (t_idle p - lastProgressAt (note_progress w p) >? idleMs); [discriminate|].
    intros H. destruct (IH _ H) as (p' & Hin & Hr). exists p'. split; [now right | exact Hr].
Qed.

(** The loop is left at the latest by the first reading of the clock that
    is past the deadline. *)
Lemma watch_loop_returns (deadlineMs idleMs : Z) (range : float) (start : Z)
    (w : Watch) (ps : list Poll) :
  Exists (fun p => deadlineMs <= t_cond p - start) ps ->
  watch_loop deadlineMs idleMs range start w ps <> None.
Proof.
  intros H. revert w. induction H as [p rest Hp|p rest _ IH]; intros w; simpl.
  - replace (t_cond p - start <? deadlineMs) with false by (symmetry; apply Z.ltb_ge; lia).
    discriminate.
  - destruct (negb (t_cond p - start <? deadlineMs)); [discriminate|].
    destruct (PrimFloat.leb (dist p) (reach range)); [discriminate|].
    destruct (t_idle p - lastProgressAt (note_progress w p) >? idleMs); [discriminate|].
    apply IH.
Qed.

(** X13. Both navigation loops come back once the clock is read past the
    deadline, and a positive answer means the bot was seen within reach of
    the target.  [goToKnownLocation] answers [arrived] (and [ok]) only if
    some reading taken before the deadline had the distance at most
    [max(1, range) + 0.5]; [pathfindToPredicate] returns the block only in
    that case too, provided the clock read after the loop is not earlier
    than the clock read in it.  Neither leaves the loop as arrived on a
    turn whose clock reading is at or past the deadline. *)
Theorem navigation_success_means_arrival (found : bool) (range : float)
    (timeoutMs : Z) (r : Readings) :
  (forall p, In p (polls r) -> t_cond p <= t_after r) ->
  (Exists (fun p => timeoutMs <= t_cond p - t_start r) (polls r) ->
     pathfindToPredicate found range timeoutMs r <> None
     /\ goToKnownLocation range timeoutMs r <> None)
  /\ (pathfindToPredicate found range timeoutMs r = Some (Ok tt) ->
        found = true
        /\ t_after r - t_start r < timeoutMs
        /\ exists p, In p (polls r) /\ in_reach range (t_start r) timeoutMs p)
  /\ (forall g, goToKnownLocation range timeoutMs r = Some g -> arrived g = true ->
        ok g = true /\ timedOut g = false
        /\ exists p, In p (polls r) /\ in_reach range (t_start r) timeoutMs p).
Proof.
  intros Hmono. split; [|split].
  - intros Hex.
    pose proof (watch_loop_returns timeoutMs 15000 range (t_start r) (initial_watch r)
                  (polls r) Hex) as Hw.
    unfold pathfindToPredicate, goToKnownLocation.
    destruct (watch_loop _ _ _ _ _ _) as [e|]; [|congruence]. split; [|discriminate].
    destruct found; simpl; [|discriminate].
    destruct e; try discriminate; destruct (_ >=? _); discriminate.
  - unfold pathfindToPredicate. destruct found; simpl; [|discriminate].
    destruct (watch_loop _ _ _ _ _ _) as [[| |]|] eqn:Hw; try discriminate.
    + destruct (Z.geb_spec (t_after r - t_start r) timeoutMs); [discriminate|].
      intros _. split; [reflexivity|]. split; [lia|].
      now apply watch_loop_arrived in Hw.
    + apply watch_loop_deadline in Hw as (p & Hin & Hp). specialize (Hmono p Hin).
      destruct (Z.geb_spec (t_after r - t_start r) timeoutMs); [discriminate | lia].
  - intros g. unfold goToKnownLocation.
    destruct (watch_loop _ _ _ _ _ _) as [e|] eqn:Hw; [|discriminate].
    intros H Ha. inversion H. subst g. simpl in *.
    destruct e; try discriminate. repeat split.
    now apply watch_loop_arrived in Hw.
Qed.

Lemma navigation_success_means_arrival_witness :
  let r := mkReadings 0 [mkPoll 0 10%float 0 0; mkPoll 250 1%float 250 250] 260 1%float in
  pathfindToPredicate true 1%float 45000 r = Some (Ok tt)
  /\ exists p, In p (polls r) /\ in_reach 1%float 0 45000 p.
Proof.
  intros r.
  assert (Hmono : forall p, In p (polls r) -> t_cond p <= t_after r).
  { simpl. intros p [<-|[<-|[]]]; simpl; lia. }
  destruct (navigation_success_means_arrival true 1%float 45000 r Hmono) as (_ & H & _).
  split; [reflexivity|]. destruct (H eq_refl) as (_ & _ & Hp). exact Hp.
Defined.

End Navigation.

(** ** Mining a batch of blocks ([mineResource]) *)

Module Mining.

Import Tools.
Local Open Scope Z_scope.

Definition category_name (c : Category) : string :=
  match c with
  | pickaxe => "pickaxe"
  | axe => "axe"
  | shovel => "shovel"
  | hoe => "hoe"
  end.

(** One block of [blocks] and what the loop reads while it handles it. *)
Record BlockTurn := mkTurn {
  b_pos : Z * Z * Z;
  b_name : string;
  t_top : Z;                        (* [Date.now()] of the deadline test *)
  inv_now : list Suspend.Item;      (* the inventory at the tool check *)
  b_work : option string;           (* walking there and collecting: [Some msg]
                                       when it throws ([collect_timeout] included) *)
  t_done : Z;                       (* [Date.now()] stored on success *)
  t_check : Z                       (* [Date.now()] of the stall test *)
}.

Record Failure := mkFailure { f_pos : Z * Z * Z; f_error : string }.

(** [need && !inventoryHasToolCategory(bot, need)] for a block name: the
    category that is needed and not at hand. *)
Definition missing_tool (name : string) (inv : list Suspend.Item) : option Category :=
  match requiredToolCategoryForBlockName name with
  | Some c => if inventoryHasToolCategory (Suspend.fresh_bot inv) c then None else Some c
  | None => None
  end.

Record Progress := mkProgress {
  completed : Z;
  failed : list Failure;
  lastProgressAt : Z;
  collected : list BlockTurn        (* the blocks the bot went on to collect *)
}.

(** [for (const b of blocks) { ... }] *)
Fixpoint mine_loop (maxMs start : Z) (st : Progress) (blocks : list BlockTurn) : Progress :=
  match blocks with
  | [] => st
  | b :: rest =>
      if t_top b - start >? maxMs then st
      else
        match missing_tool (b_name b) (inv_now b) with
        | Some need =>
            mine_loop maxMs start
              (mkProgress (completed st)
                 (failed st ++ [mkFailure (b_pos b) ("missing_tool:" +:+ category_name need)])
                 (lastProgressAt st) (collected st))
              rest
        | None =>
            let st' :=
              match b_work b with
              | None => mkProgress (completed st + 1) (failed st) (t_done b)
                                   (collected st ++ [b])
              | Some msg => mkProgress (completed st) (failed st ++ [mkFailure (b_pos b) msg])
                                       (lastProgressAt st) (collected st ++ [b])
              end in
            if t_check b - lastProgressAt st' >? 20000 then st'
            else mine_loop maxMs start st' rest
        end
  end.

Record MineResult := mkMine {
  ok : bool;
  requested : Z;
  res_completed : Z;
  remaining : Z;
  reason : option string;
  needed : option Category;
  res_failed : list Failure;
  timedOut : option bool;
  stalled : option bool
}.

(** [mineResource] from the block search on.  [found] is
    [positions.length > 0]; [blocks] are the positions that [blockAt]
    resolved; [inv0] is the inventory at the first tool check. *)
Definition mineResource (blockName : string) (count maxMs : Z) (found : bool)
    (blocks : list BlockTurn) (inv0 : list Suspend.Item) (t_start t_end t_end' : Z)
  : Result MineResult * list BlockTurn :=
  if negb found then (Throw ("No " +:+ blockName +:+ " nearby"), [])
  else
    let first := match blocks with
                 | b :: _ => if JsString.truthy (b_name b) then b_name b else blockName
                 | [] => blockName
                 end in
    match missing_tool first inv0 with
    | Some needCat =>
        (Ok (mkMine false count 0 count (Some "missing_tool"%string) (Some needCat) []
                    None None), [])
    | None =>
        let st := mine_loop maxMs t_start (mkProgress 0 [] t_start []) blocks in
        let timedOut := t_end - t_start >? maxMs in
        let stalled := (t_end' - lastProgressAt st >? 20000) && negb timedOut
                       && (completed st <? count) in
        (Ok (mkMine (0 <? completed st) count (completed st)
                    (Z.max 0 (count - completed st)) None None (failed st)
                    (Some timedOut) (Some stalled)),
         collected st)
    end.

(** The blocks are handled in order, each at most once. *)
Record accounted (blocks : list BlockTurn) (st0 st : Progress) : Prop := {
  acc_completed : completed st0 <= completed st;
  acc_total : completed st - completed st0
              + Z.of_nat (length (failed st) - length (failed st0))
              <= Z.of_nat (length blocks);
  acc_failed : exists more, failed st = failed st0 ++ more
                 /\ Forall (fun f => exists b, In b blocks /\ f_pos f = b_pos b) more;
  acc_collected : exists more, collected st = collected st0 ++ more
                    /\ Forall (fun b => In b blocks
                                        /\ missing_tool (b_name b) (inv_now b) = None) more
                    /\ completed st - completed st0 <= Z.of_nat (length more)
}.

Lemma mine_loop_accounted (maxMs start : Z) (blocks : list BlockTurn) (st : Progress) :
  accounted blocks st (mine_loop maxMs start st blocks).
Proof.
  assert (Hrefl : forall bs s, accounted bs s s).
  { intros bs s. split; [lia | rewrite Nat.sub_diag; lia | |].
    - exists []. rewrite app_nil_r. auto.
    - exists []. rewrite app_nil_r. simpl. repeat split; auto; lia. }
  revert st. induction blocks as [|b rest IH]; intros st; simpl; [apply Hrefl|].
  destruct (t_top b - start >? maxMs); [apply Hrefl|].
  assert (Hstep : forall st1,
            (completed st1 = completed st + 1 /\ failed st1 = failed st
             /\ collected st1 = collected st ++ [b]
             /\ missing_tool (b_name b) (inv_now b) = None
             \/ completed st1 = completed st
                /\ (exists e, failed st1 = failed st ++ [mkFailure (b_pos b) e])
                /\ (collected st1 = collected st
                    \/ collected st1 = collected st ++ [b]
                       /\ missing_tool (b_name b) (inv_now b) = None)) ->
            forall st2, accounted rest st1 st2 -> accounted (b :: rest) st st2).
  { intros st1 Hst1 st2 [H1 H2 (mf & Hf & Hff) (mc & Hc & Hcf & Hcl)].
    destruct Hst1 as [(Hc1 & Hf1 & Hcol1 & Hm)|(Hc1 & (e & Hf1) & Hcol1)].
    - split.
      + lia.
      + rewrite Hf1 in H2. simpl length. lia.
      + exists mf. rewrite Hf, Hf1. split; [reflexivity|].
        eapply List.Forall_impl; [|exact Hff]. intros f (x & Hx & Hp). exists x. split; [now right|auto].
      + exists (b :: mc). rewrite Hc, Hcol1, <- app_assoc. split; [reflexivity|]. split.
        * constructor; [split; [now left|exact Hm]|].
          eapply List.Forall_impl; [|exact Hcf]. intros x [Hx Hmx]. split; [now right|auto].
        * simpl length. lia.
    - split.
      + lia.
      + rewrite Hf, Hf1, !length_app in *. simpl length in *. lia.
      + exists (mkFailure (b_pos b) e :: mf). rewrite Hf, Hf1, <- app_assoc.
        split; [reflexivity|]. constructor; [exists b; split; [now left|reflexivity]|].
        eapply List.Forall_impl; [|exact Hff]. intros f (x & Hx & Hp). exists x. split; [now right|auto].
      + destruct Hcol1 as [Hcol1|[Hcol1 Hm]].
        * exists mc. rewrite Hc, Hcol1. split; [reflexivity|]. split; [|lia].
          eapply List.Forall_impl; [|exact Hcf]. intros x [Hx Hmx]. split; [now right|auto].
        * exists (b :: mc). rewrite Hc, Hcol1, <- app_assoc. split; [reflexivity|]. split.
          -- constructor; [split; [now left|exact Hm]|].
             eapply List.Forall_impl; [|exact Hcf]. intros x [Hx Hmx]. split; [now right|auto].
          -- simpl length. lia. }
  destruct (missing_tool (b_name b) (inv_now b)) as [need|] eqn:Hm.
  - eapply Hstep; [|apply IH]. right. simpl. repeat split; eauto.
  - destruct (b_work b) as [msg|].
    + destruct (_ >? 20000).
      * eapply Hstep; [|apply Hrefl]. right. simpl. repeat split; eauto.
      * eapply Hstep; [|apply IH]. right. simpl. repeat split; eauto.
    + destruct (_ >? 20000).
      * eapply Hstep; [|apply Hrefl]. left. simpl. auto.
      * eapply Hstep; [|apply IH]. left. simpl. auto.
Qed.

(** X14. The answer of [mineResource] accounts for every block at most once:
    [completed] plus the number of [failed] entries never exceeds the
    number of blocks found, every [failed] entry carries the position of
    one of them, [ok] says whether at least one block was collected, and
    [remaining] is [max(0, count - completed)] (the whole [count] when the
    call ends on the first tool check).  [timedOut] and [stalled]
    are never both set, and [stalled] is set only while fewer than [count]
    blocks are done.  The bot never sets out to collect a block whose tool
    category is missing from the inventory at that moment: such a block is
    recorded as failed with 'missing_tool:<category>' (or, for the first
    block, ends the call with reason 'missing_tool') without being
    approached. *)
Theorem mineResource_accounting (blockName : string) (count maxMs : Z) (found : bool)
    (blocks : list BlockTurn) (inv0 : list Suspend.Item) (t_start t_end t_end' : Z) :
  match mineResource blockName count maxMs found blocks inv0 t_start t_end t_end' with
  | (Throw msg, went) => found = false /\ went = []
  | (Ok r, went) =>
      0 <= res_completed r
      /\ res_completed r + Z.of_nat (length (res_failed r)) <= Z.of_nat (length blocks)
      /\ res_completed r <= Z.of_nat (length went)
      /\ ok r = (0 <? res_completed r)
      /\ remaining r = match reason r with
                       | Some _ => count
                       | None => Z.max 0 (count - res_completed r)
                       end
      /\ Forall (fun f => exists b, In b blocks /\ f_pos f = b_pos b) (res_failed r)
      /\ Forall (fun b => In b blocks /\ missing_tool (b_name b) (inv_now b) = None) went
      /\ (timedOut r = Some true -> stalled r = Some false)
      /\ (stalled r = Some true -> res_completed r < count)
      /\ (reason r = Some "missing_tool"%string ->
            went = [] /\ res_completed r = 0 /\ ok r = false /\ needed r <> None)
  end.
Proof.
  unfold mineResource. destruct found; simpl; [|auto].
  destruct (missing_tool _ inv0) as [needCat|].
  - simpl. repeat split; auto; try lia; try discriminate.
  - pose proof (mine_loop_accounted maxMs t_start blocks (mkProgress 0 [] t_start []))
      as [H1 H2 (mf & Hf & Hff) (mc & Hc & Hcf & Hcl)].
    simpl in *. rewrite Nat.sub_0_r in H2. subst.
    repeat split; auto; try lia; try discriminate.
    + intros H. inversion H as [H']. rewrite H'. simpl.
      now rewrite andb_false_r.
    + intros H. inversion H as [H']. apply andb_true_iff in H' as [_ H'].
      now apply Z.ltb_lt.
Qed.

End Mining.

(** ** The raises of the shield under the configuration [joinGame] sets *)

Module ShieldSwitch.

Import AutoShield.
Local Open Scope Z_scope.

(** What reaches a joined bot: firings of the scan and hits. *)
Inductive Stimulus :=
| Scan (now : Z) (entities : list (option Entity))    (* a firing of the scan *)
| Hit (now : Z).                                      (* the bot is hurt *)

Definition to_event (s : Stimulus) : Event :=
  match s with
  | Scan now ents => ScanTick now ents
  | Hit now => Hurt now
  end.

(** The times of the hits, in order. *)
Definition hit_times (stims : list Stimulus) : list Z :=
  flat_map (fun s => match s with Hit t => [t] | Scan _ _ => [] end) stims.

(** The times of the raises made by the damage reaction, in order. *)
Definition damage_times (rs : list Raise) : list Z :=
  map at_time (List.filter (fun r => negb (by_poller r)) rs).

(** What a raise answers: a firing of the scan at that time that had a
    projectile entity within 6 blocks, or a hit at that time. *)
Definition answers (stims : list Stimulus) (r : Raise) : Prop :=
  match source r with
  | Poller => exists ents oe, In (Scan (at_time r) ents) stims
                              /\ In oe ents /\ projectile_within 6%float oe
  | Damage => In (Hit (at_time r)) stims
  end.

Lemma handle_keeps_config (s : Stimulus) (b : Bot) :
  autoShield (snd (handle (to_event s) b)) = autoShield b.
Proof.
  destruct s as [now ents|now]; simpl.
  - unfold scan_tick. destruct (autoShield b) as [cfg|] eqn:E; [|simpl; exact E].
    destruct (enabled cfg); simpl; [|exact E].
    destruct (_ <? 600); [exact E|]. destruct (existsb _ _); [reflexivity | exact E].
  - unfold hurt_shield. destruct (autoShield b) as [cfg|] eqn:E; [|simpl; exact E].
    destruct (enabled cfg); exact E.
Qed.

Lemma answers_later (s : Stimulus) (rest : list Stimulus) (r : Raise) :
  answers rest r -> answers (s :: rest) r.
Proof.
  unfold answers. destruct (source r).
  - intros (ents & oe & H1 & H2 & H3). exists ents, oe. simpl. auto.
  - simpl. auto.
Qed.

(** One stimulus under the configuration of [joinGame]: a hit raises the
    shield for 800 ms; a scan raises it for 800 ms or not at all, and only
    when it saw a projectile within 6 blocks. *)
Lemma handle_joined (s : Stimulus) (b : Bot) :
  autoShield b = autoShield joined ->
  match s with
  | Hit t => fst (handle (to_event s) b) = Some (mkRaise Damage t 800)
  | Scan t ents =>
      fst (handle (to_event s) b) = None
      \/ (fst (handle (to_event s) b) = Some (mkRaise Poller t 800)
          /\ exists oe, In oe ents /\ projectile_within 6%float oe)
  end.
Proof.
  intros Hb. destruct s as [t ents|t]; simpl.
  - unfold scan_tick. rewrite Hb. simpl.
    destruct (_ <? 600); [now left|].
    destruct (existsb is_near_projectile ents) eqn:E; [|now left].
    right. split; [reflexivity|].
    apply existsb_exists in E as (oe & Hin & Hnear).
    exists oe. split; [exact Hin|]. now apply is_near_projectile_spec.
  - unfold hurt_shield. rewrite Hb. reflexivity.
Qed.

Lemma run_joined (stims : list Stimulus) (b : Bot) :
  autoShield b = autoShield joined ->
  Forall (fun r => duration r = 800 /\ answers stims r) (fst (run (map to_event stims) b))
  /\ damage_times (fst (run (map to_event stims) b)) = hit_times stims
  /\ autoShield (snd (run (map to_event stims) b)) = autoShield joined.
Proof.
  revert b. induction stims as [|s rest IH]; intros b Hb.
  { simpl. repeat split; [constructor | exact Hb]. }
  pose proof (handle_keeps_config s b) as Hk.
  pose proof (handle_joined s b Hb) as Hj.
  cbn [map run]. destruct (handle (to_event s) b) as [r b'] eqn:Hh.
  cbn [fst snd] in Hk, Hj.
  destruct (IH b' (eq_trans Hk Hb)) as (IH1 & IH2 & IH3).
  destruct (run (map to_event rest) b') as [rs b''] eqn:Hrun.
  cbn [fst snd] in IH1, IH2, IH3 |- *.
  assert (IH1' : Forall (fun r0 => duration r0 = 800 /\ answers (s :: rest) r0) rs).
  { eapply List.Forall_impl; [|exact IH1]. intros r0 [H1 H2].
    split; [exact H1 | now apply answers_later]. }
  split; [|split; [|exact IH3]].
  - destruct r as [r|]; [|exact IH1']. constructor; [|exact IH1'].
    destruct s as [t ents|t].
    + destruct Hj as [Hj|[Hj (oe & Hin & Hp)]]; [discriminate|].
      inversion Hj. subst r. split; [reflexivity|].
      unfold answers. simpl. exists ents, oe. auto.
    + inversion Hj. subst r. split; [reflexivity|]. unfold answers. simpl. auto.
  - destruct s as [t ents|t].
    + destruct Hj as [Hj|[Hj _]]; inversion Hj; subst r; simpl; exact IH2.
    + inversion Hj. subst r. unfold damage_times in *. simpl. now rewrite IH2.
Qed.

(** X15. Under the configuration [joinGame] sets (auto-shield enabled,
    800 ms), whenever the scan last raised the shield: every raise lasts
    800 ms and answers either a hit at that moment or a firing of the scan
    at that moment that had, among the entities, one with a position at
    distance at most 6 whose lower-cased name contains a projectile word;
    every hit raises the shield, once and in order, however close the
    hits are; and neither a scan nor a hit changes the configuration. *)
Theorem shield_raises_under_join_config (stims : list Stimulus) (last : option Z) :
  let b := mkBot (autoShield joined) last in
  let raises := fst (run (map to_event stims) b) in
  Forall (fun r => duration r = 800 /\ answers stims r) raises
  /\ damage_times raises = hit_times stims
  /\ autoShield (snd (run (map to_event stims) b)) = Some (mkConfig true (Some 800)).
Proof.
  intros b raises. exact (run_joined stims b eq_refl).
Qed.

End ShieldSwitch.

(** ** Dropping items ([dropItem]) *)

Module Dropping.

Import Suspend.
Local Open Scope Z_scope.

(** A call [bot.toss(type, null, amount)]. *)
Record Toss := mkToss { toss_type : Z; toss_amount : Z }.

(** [count && i.count > count]; [None] is an absent (or zero) [params.count]. *)
Definition more_than (count : option Z) (i : Item) : option Z :=
  match count with
  | Some c => if negb (c =? 0) && (item_count i >? c) then Some c else None
  | None => None
  end.

(** [for (const i of items) { ... }]; [outcome n] is what the [n]-th toss
    of the call does ([Some msg]: it rejects). *)
Fixpoint toss_loop (count : option Z) (outcome : nat -> option string)
    (items : list Item) (n : nat) (log : list Toss) : Result unit * list Toss :=
  match items with
  | [] => (Ok tt, log)
  | i :: rest =>
      match more_than count i with
      | Some c =>
          let log' := log ++ [mkToss (item_type i) c] in
          match outcome n with
          | Some msg => (Throw msg, log')
          | None => (Ok tt, log')
          end
      | None =>
          let log' := log ++ [mkToss (item_type i) (item_count i)] in
          match outcome n with
          | Some msg => (Throw msg, log')
          | None => toss_loop count outcome rest (S n) log'
          end
      end
  end.

Definition stacks_of (itemName : string) (inv : list Item) : list Item :=
  List.filter (fun i => String.eqb (item_name i) itemName) inv.

(** [dropItem], after the bot is resolved; the tosses asked for are
    returned with the answer. *)
Definition dropItem (itemName : string) (count : option Z)
    (outcome : nat -> option string) (inv : list Item) : Result unit * list Toss :=
  match stacks_of itemName inv with
  | [] => (Throw ("Item '" +:+ itemName +:+ "' not found"), [])
  | items => toss_loop count outcome items 0 []
  end.

Fixpoint total (stacks : list Item) : Z :=
  match stacks with
  | [] => 0
  | i :: rest => item_count i + total rest
  end.

Fixpoint tossed (log : list Toss) : Z :=
  match log with
  | [] => 0
  | t :: rest => toss_amount t + tossed rest
  end.

Lemma tossed_app (l1 l2 : list Toss) : tossed (l1 ++ l2) = tossed l1 + tossed l2.
Proof. induction l1 as [|t l1 IH]; simpl; lia. Qed.

Lemma toss_loop_spec (count : option Z) (outcome : nat -> option string)
    (items : list Item) (n : nat) (log : list Toss) :
  Forall (fun i => 0 <= item_count i) items ->
  let (r, log') := toss_loop count outcome items n log in
  exists more,
    log' = log ++ more
    /\ tossed more <= total items
    /\ Forall (fun t => exists i, In i items /\ toss_type t = item_type i
                                  /\ toss_amount t <= item_count i) more
    /\ match r with
       | Ok _ => match count with
                 | Some c => if c =? 0 then tossed more = total items
                             else Z.min c (total items) <= tossed more
                 | None => tossed more = total items
                 end
       | Throw msg => exists k, outcome k = Some msg
       end.
Proof.
  revert n log. induction items as [|i rest IH]; intros n log Hpos; simpl.
  - exists []. rewrite app_nil_r. simpl. repeat split; auto; try lia.
    destruct count as [c|]; [destruct (c =? 0); lia | reflexivity].
  - apply Forall_cons_iff in Hpos as [Hi Hrest].
    assert (Htot : 0 <= total rest).
    { clear -Hrest. induction Hrest; simpl; lia. }
    destruct (more_than count i) as [c|] eqn:Hm.
    + unfold more_than in Hm. destruct count as [c'|]; [|discriminate].
      destruct (Z.eqb_spec c' 0) as [|Hne]; simpl in Hm; [discriminate|].
      destruct (Z.gtb_spec (item_count i) c'); [|discriminate]. inversion Hm. subst c'.
      assert (Hone : exists more, log ++ [mkToss (item_type i) c] = log ++ more
                /\ tossed more <= item_count i + total rest
                /\ Forall (fun t => exists i0, In i0 (i :: rest) /\ toss_type t = item_type i0
                                               /\ toss_amount t <= item_count i0) more
                /\ Z.min c (item_count i + total rest) <= tossed more).
      { exists [mkToss (item_type i) c]. simpl. repeat split; try lia.
        constructor; [|constructor]. exists i. simpl. repeat split; [now left | lia]. }
      destruct Hone as (more & H1 & H2 & H3 & H4).
      destruct (outcome n) as [msg|] eqn:Ho; exists more; repeat split; eauto.
    + destruct (outcome n) as [msg|] eqn:Ho.
      * exists [mkToss (item_type i) (item_count i)]. simpl. repeat split; try lia.
        -- constructor; [|constructor]. exists i. simpl. repeat split; [now left | lia].
        -- exists n. exact Ho.
      * specialize (IH (S n) (log ++ [mkToss (item_type i) (item_count i)]) Hrest).
        destruct (toss_loop _ _ rest _ _) as [r log'].
        destruct IH as (more & H1 & H2 & H3 & H4).
        exists (mkToss (item_type i) (item_count i) :: more).
        rewrite H1, <- app_assoc. simpl. repeat split; try lia.
        -- constructor; [exists i; simpl; repeat split; [now left | lia]|].
           eapply List.Forall_impl; [|exact H3]. intros t (i0 & Hin & Ht).
           exists i0. split; [now right | exact Ht].
        -- destruct r as [[]|msg]; [|exact H4].
           destruct count as [c|]; [destruct (c =? 0)|]; lia.
Qed.

(** X16. What [dropItem] throws away.  Every toss takes from one stack of the
    named item no more than the stack holds, so the total never exceeds
    what the inventory holds of it.  With no [count] (or 0) everything is
    dropped.  With a [count], at least [min(count, held)] is dropped, but
    not always exactly [count]: whole stacks are tossed until a stack
    larger than [count] is met, from which [count] more are tossed; only
    when the first stack is larger than [count] is the amount exact.  The
    call throws only when the inventory has no such item or a toss
    rejects. *)
Theorem dropItem_amount (itemName : string) (count : option Z)
    (outcome : nat -> option string) (inv : list Item) :
  Forall (fun i => 0 <= item_count i) inv ->
  let held := total (stacks_of itemName inv) in
  match dropItem itemName count outcome inv with
  | (Ok _, log) =>
      tossed log <= held
      /\ match count with
         | Some c => if c =? 0 then tossed log = held else Z.min c held <= tossed log
         | None => tossed log = held
         end
      /\ Forall (fun t => exists i, In i inv /\ item_name i = itemName
                                    /\ toss_type t = item_type i
                                    /\ toss_amount t <= item_count i) log
      /\ (forall c i rest, count = Some c -> c <> 0 ->
            stacks_of itemName inv = i :: rest -> c < item_count i ->
            log = [mkToss (item_type i) c])
  | (Throw msg, log) =>
      (stacks_of itemName inv = [] /\ log = []) \/ exists k, outcome k = Some msg
  end.
Proof.
  intros Hpos held. unfold dropItem.
  assert (Hst : Forall (fun i => 0 <= item_count i) (stacks_of itemName inv)).
  { apply List.Forall_forall. intros i Hin.
    unfold stacks_of in Hin. apply filter_In in Hin as [Hin _].
    rewrite List.Forall_forall in Hpos. now apply Hpos. }
  subst held. destruct (stacks_of itemName inv) as [|i0 rest0] eqn:Hs; [now left|].
  pose proof (toss_loop_spec count outcome (i0 :: rest0) 0 [] Hst) as H.
  destruct (toss_loop count outcome (i0 :: rest0) 0 []) as [r log] eqn:Hl.
  destruct H as (more & H1 & H2 & H3 & H4). simpl in H1. subst more.
  destruct r as [[]|msg]; [|now right].
  split; [exact H2|]. split; [exact H4|]. split.
  - eapply List.Forall_impl; [|exact H3]. intros t (i & Hin & Ht & Ha).
    rewrite <- Hs in Hin. unfold stacks_of in Hin. apply filter_In in Hin as [Hin Hn].
    apply String.eqb_eq in Hn. exists i. auto.
  - intros c i rest -> Hc Heq Hlt. inversion Heq. subst i0 rest0.
    simpl in Hl. unfold more_than in Hl.
    destruct (Z.eqb_spec c 0); [contradiction|]. simpl in Hl.
    destruct (Z.gtb_spec (item_count i) c); [|lia].
    destruct (outcome 0%nat); inversion Hl. reflexivity.
Qed.

(** Three arrows in the first stack, a full stack behind it: asked to drop
    five, the bot drops eight. *)
Lemma dropItem_amount_witness :
  let inv := [mkItem "arrow" 802 3; mkItem "bow" 700 1; mkItem "arrow" 802 64] in
  dropItem "arrow" (Some 5) (fun _ => None) inv
    = (Ok tt, [mkToss 802 3; mkToss 802 5])
  /\ Z.min 5 (total (stacks_of "arrow" inv))
     <= tossed (snd (dropItem "arrow" (Some 5) (fun _ => None) inv)).
Proof.
  intros inv.
  assert (Hpos : Forall (fun i => 0 <= item_count i) inv).
  { unfold inv. repeat constructor; simpl; lia. }
  pose proof (dropItem_amount "arrow" (Some 5) (fun _ => None) inv Hpos) as H.
  split; [reflexivity|].
  change (dropItem "arrow" (Some 5) (fun _ => None) inv)
    with (Ok tt, [mkToss 802 3; mkToss 802 5]) in H |- *.
  cbv zeta in H. destruct H as (_ & H & _). exact H.
Defined.

End Dropping.

(** ** Hunting ([hunt]) *)

Module Hunting.

Local Open Scope Z_scope.

(** What one turn of the outer loop reads from the world. *)
Record Round := mkRound {
  t_cond : Z;                 (* [Date.now()] of the loop condition *)
  acquired : bool;            (* a target was found within the 10 s wait *)
  fight : Result bool;        (* the attack: [Ok dead], or what it threw *)
  t_progress : Z;             (* [Date.now()] stored after a kill *)
  t_stall : Z                 (* [Date.now()] of the stall test *)
}.

Record Tally := mkTally {
  kills : Z;
  lastProgressAt : Z;
  errors : list string
}.

(** [while (kills < countTarget && Date.now() - start < maxMs)]; [None]:
    still running when the readings end. *)
Fixpoint hunt_loop (countTarget maxMs start : Z) (st : Tally) (rounds : list Round)
  : option (Result Tally) :=
  if negb (kills st <? countTarget) then Some (Ok st)
  else
    match rounds with
    | [] => None
    | r :: rest =>
        if negb (t_cond r - start <? maxMs) then Some (Ok st)
        else if negb (acquired r)
        then Some (Ok (mkTally (kills st) (lastProgressAt st)
                               (errors st ++ ["no_target_found"%string])))
        else
          match fight r with
          | Throw msg => Some (Throw msg)
          | Ok true =>
              hunt_loop countTarget maxMs start
                        (mkTally (kills st + 1) (t_progress r) (errors st)) rest
          | Ok false =>
              let st' := mkTally (kills st) (lastProgressAt st)
                                 (errors st ++ ["target_escaped_or_timeout"%string]) in
              if t_stall r - lastProgressAt st' >? 20000 then Some (Ok st')
              else hunt_loop countTarget maxMs start st' rest
          end
    end.

Record HuntResult := mkHunt {
  ok : bool;
  requested : Z;
  res_kills : Z;
  remaining : Z;
  timedOut : bool;
  stalled : bool;
  res_errors : list string
}.

(** [hunt], from [const start = Date.now()] on.  [count] is
    [Number(params.count ?? 1)]; [maxMs = None] is an absent [params.maxMs]. *)
Definition hunt (count : Z) (maxMs : option Z) (t_start : Z) (rounds : list Round)
    (t_end t_end' : Z) : option (Result HuntResult) :=
  let countTarget := Z.max 1 count in
  let maxMs := match maxMs with Some m => m | None => 120000 end in
  match hunt_loop countTarget maxMs t_start (mkTally 0 t_start []) rounds with
  | None => None
  | Some (Throw msg) => Some (Throw msg)
  | Some (Ok st) =>
      let timedOut := (kills st <? countTarget) && (t_end - t_start >=? maxMs) in
      let stalled := (kills st <? countTarget) && (t_end' - lastProgressAt st >? 20000) in
      Some (Ok (mkHunt (0 <? kills st) countTarget (kills st)
                       (Z.max 0 (countTarget - kills st)) timedOut stalled (errors st)))
  end.

(** The rounds that ended with a kill. *)
Definition won (r : Round) : bool :=
  acquired r && match fight r with Ok true => true | _ => false end.

Definition hunt_errors : list string :=
  ["no_target_found"; "target_escaped_or_timeout"]%string.

Lemma hunt_loop_spec (countTarget maxMs start : Z) (rounds : list Round) (st st' : Tally) :
  kills st <= countTarget ->
  hunt_loop countTarget maxMs start st rounds = Some (Ok st') ->
  kills st <= kills st' <= countTarget
  /\ kills st' - kills st <= Z.of_nat (length (List.filter won rounds))
  /\ exists more, errors st' = errors st ++ more
                  /\ Forall (fun e => In e hunt_errors) more
                  /\ (length more <= length (List.filter (fun r => negb (won r)) rounds))%nat.
Proof.
  assert (Hstay : forall rs st0, kills st0 <= countTarget ->
            kills st0 <= kills st0 <= countTarget
            /\ kills st0 - kills st0 <= Z.of_nat (length (List.filter won rs))
            /\ exists more, errors st0 = errors st0 ++ more
                  /\ Forall (fun e => In e hunt_errors) more
                  /\ (length more <= length (List.filter (fun r => negb (won r)) rs))%nat).
  { intros rs st0 H. split; [lia|]. split; [lia|].
    exists []. rewrite app_nil_r. repeat split; auto. simpl. lia. }
  revert st. induction rounds as [|r rest IH]; intros st Hle.
  - cbn [hunt_loop]. destruct (negb (kills st <? countTarget)); [|discriminate].
    intros H. inversion H. subst st'. now apply Hstay.
  - cbn [hunt_loop].
    destruct (Z.ltb_spec (kills st) countTarget) as [Hlt|Hge]; cbn [negb].
    2:{ intros H. inversion H. subst st'. now apply Hstay. }
    destruct (negb (t_cond r - start <? maxMs)).
    { intros H. inversion H. subst st'. now apply Hstay. }
    cbn [List.filter].
    destruct (acquired r) eqn:Hacq; cbn [negb].
    2:{ assert (Hw : won r = false) by (unfold won; now rewrite Hacq). rewrite Hw.
        intros H. inversion H. subst st'. cbn [kills errors negb length].
        split; [lia|]. split; [lia|].
        exists ["no_target_found"%string]. repeat split; auto.
        - constructor; [simpl; tauto | constructor].
        - simpl. lia. }
    destruct (fight r) as [[|]|msg] eqn:Hf; [| |discriminate].
    + assert (Hw : won r = true) by (unfold won; now rewrite Hacq, Hf). rewrite Hw.
      intros H. apply IH in H; [|simpl; lia]. cbn [kills errors] in H.
      destruct H as (H1 & H2 & more & H3 & H4 & H5).
      cbn [negb length]. split; [lia|]. split; [lia|]. exists more. auto.
    + assert (Hw : won r = false) by (unfold won; now rewrite Hacq, Hf). rewrite Hw.
      cbn [negb length]. destruct (_ >? 20000).
      * intros H. inversion H. subst st'. cbn [kills errors]. split; [lia|]. split; [lia|].
        exists ["target_escaped_or_timeout"%string]. repeat split; auto.
        -- constructor; [simpl; tauto | constructor].
        -- simpl. lia.
      * intros H. apply IH in H; [|simpl; lia]. cbn [kills errors] in H.
        destruct H as (H1 & H2 & more & H3 & H4 & H5).
        split; [lia|]. split; [lia|].
        exists ("target_escaped_or_timeout"%string :: more).
        rewrite H3, <- app_assoc. repeat split; auto.
        -- constructor; [simpl; tauto | exact H4].
        -- simpl. lia.
Qed.

Lemma hunt_loop_returns (countTarget maxMs start : Z) (rounds : list Round) (st : Tally) :
  Exists (fun r => maxMs <= t_cond r - start) rounds ->
  hunt_loop countTarget maxMs start st rounds <> None.
Proof.
  intros H. revert st. induction H as [r rest Hr|r rest _ IH]; intros st; cbn [hunt_loop].
  - destruct (negb (kills st <? countTarget)); [discriminate|].
    replace (t_cond r - start <? maxMs) with false by (symmetry; apply Z.ltb_ge; lia).
    discriminate.
  - destruct (negb (kills st <? countTarget)); [discriminate|].
    destruct (negb (t_cond r - start <? maxMs)); [discriminate|].
    destruct (negb (acquired r)); [discriminate|].
    destruct (fight r) as [[|]|msg]; [apply IH | | discriminate].
    destruct (_ >? 20000); [discriminate | apply IH].
Qed.

(** X17. [hunt] never counts more kills than were asked for, and its answer
    adds up.  The target count is at least 1; [kills] lies between 0 and
    the target and is at most the number of rounds that ended with the
    target dead; [remaining] is the target minus [kills]; [ok] says that
    something was killed; [errors] holds at most one entry per round
    without a kill, each 'no_target_found' or
    'target_escaped_or_timeout'.  When the target is reached neither
    [timedOut] nor [stalled] is set.  The call comes back once the clock
    is read past [maxMs], and it rejects only with what the attack threw. *)
Theorem hunt_accounting (count : Z) (maxMs : option Z) (t_start : Z)
    (rounds : list Round) (t_end t_end' : Z) :
  match hunt count maxMs t_start rounds t_end t_end' with
  | Some (Ok r) =>
      1 <= requested r /\ requested r = Z.max 1 count
      /\ 0 <= res_kills r <= requested r
      /\ res_kills r <= Z.of_nat (length (List.filter won rounds))
      /\ remaining r = requested r - res_kills r
      /\ ok r = (0 <? res_kills r)
      /\ Forall (fun e => In e hunt_errors) (res_errors r)
      /\ (length (res_errors r) <= length (List.filter (fun x => negb (won x)) rounds))%nat
      /\ (res_kills r = requested r -> timedOut r = false /\ stalled r = false)
  | Some (Throw msg) => exists x, In x rounds /\ fight x = Throw msg
  | None =>
      ~ Exists (fun x => match maxMs with Some m => m | None => 120000 end
                         <= t_cond x - t_start) rounds
  end.
Proof.
  unfold hunt.
  set (m := match maxMs with Some m => m | None => 120000 end).
  destruct (hunt_loop (Z.max 1 count) m t_start (mkTally 0 t_start []) rounds)
    as [[st|msg]|] eqn:Hl.
  - apply hunt_loop_spec in Hl; [|simpl; lia]. cbn [kills errors] in Hl.
    destruct Hl as (H1 & H2 & more & H3 & H4 & H5). simpl in H3. subst more.
    cbn [requested res_kills remaining ok res_errors timedOut stalled].
    repeat split; auto; try lia;
      (replace (kills st <? Z.max 1 count) with false
         by (symmetry; apply Z.ltb_ge; lia)); reflexivity.
  - clear -Hl. revert Hl. generalize (mkTally 0 t_start []).
    induction rounds as [|x rest IH]; intros st; cbn [hunt_loop].
    + destruct (negb (kills st <? Z.max 1 count)); discriminate.
    + destruct (negb (kills st <? Z.max 1 count)); [discriminate|].
      destruct (negb (t_cond x - t_start <? m)); [discriminate|].
      destruct (negb (acquired x)); [discriminate|].
      destruct (fight x) as [[|]|e] eqn:Hf.
      * intros H. destruct (IH _ H) as (y & Hin & Hy). exists y. split; [now right|exact Hy].
      * destruct (_ >? 20000); [discriminate|].
        intros H. destruct (IH _ H) as (y & Hin & Hy). exists y. split; [now right|exact Hy].
      * intros H. inversion H. subst e. exists x. split; [now left|exact Hf].
  - intros Hex. now apply (hunt_loop_returns (Z.max 1 count) m t_start rounds
                             (mkTally 0 t_start [])) in Hex.
Qed.

End Hunting.

(** ** Scanning the surroundings ([scanArea]) *)

Module Scan.

Local Open Scope Z_scope.



(** [for (let i = lo; i <= hi; i++)] *)
Definition range (lo hi : Z) : list Z :=
  map (fun i => lo + Z.of_nat i) (seq 0 (Z.to_nat (hi - lo + 1))).















End Scan.

(** ** Status effects (the [entityEffect] / [entityEffectEnd] handlers and
    the [effects] list of [getStatus]) *)

Module Effects.

Import Status.
Local Open Scope Z_scope.

(** [bot.__effects]: an object keyed by effect id. *)
Definition EffectMap : Type := gmap Z Effect.

Inductive Event :=
| Started (self : bool) (e : Effect)      (* ['entityEffect'];  [self]: [entity === bot.entity] *)
| Ended (self : bool) (e : Effect).       (* ['entityEffectEnd'] *)

Definition handle (m : EffectMap) (ev : Event) : EffectMap :=
  match ev with
  | Started self e =>
      if self then <[eff_id e := mkEffect (eff_id e) (eff_amplifier e) (eff_duration e)]> m
      else m
  | Ended self e => if self then delete (eff_id e) m else m
  end.

(** From [__effects = {}] at join time. *)
Definition run (evs : list Event) : EffectMap := fold_left handle evs ∅.

(** [Object.values(bot.__effects).map(e => ({ id, amplifier, duration }))] *)
Definition status_effects (m : EffectMap) : list Effect :=
  map (fun '(_, e) => mkEffect (eff_id e) (eff_amplifier e) (eff_duration e)) (map_to_list m).

(** What the events say about effect [id]: the last event of the bot's own
    about it decides. *)
Definition track (id : Z) (cur : option Effect) (ev : Event) : option Effect :=
  match ev with
  | Started true e => if eff_id e =? id then Some e else cur
  | Ended true e => if eff_id e =? id then None else cur
  | _ => cur
  end.

Definition active (id : Z) (evs : list Event) : option Effect :=
  fold_left (track id) evs None.

Lemma effect_eta (e : Effect) : mkEffect (eff_id e) (eff_amplifier e) (eff_duration e) = e.
Proof. now destruct e. Qed.

Lemma handle_lookup (m : EffectMap) (ev : Event) (id : Z) :
  handle m ev !! id = track id (m !! id) ev.
Proof.
  destruct ev as [[|] e|[|] e]; simpl; try reflexivity.
  - rewrite effect_eta. destruct (Z.eqb_spec (eff_id e) id) as [->|Hne].
    + apply lookup_insert_eq.
    + now apply lookup_insert_ne.
  - destruct (Z.eqb_spec (eff_id e) id) as [->|Hne].
    + apply lookup_delete_eq.
    + now apply lookup_delete_ne.
Qed.

Lemma run_lookup (evs : list Event) (id : Z) : run evs !! id = active id evs.
Proof.
  unfold run, active.
  assert (H : forall m cur, m !! id = cur ->
            fold_left handle evs m !! id = fold_left (track id) evs cur).
  { induction evs as [|ev rest IH]; intros m cur Hm; simpl; [exact Hm|].
    apply IH. rewrite handle_lookup. now rewrite Hm. }
  apply H. apply lookup_empty.
Qed.

Lemma active_id (id : Z) (evs : list Event) (e : Effect) :
  active id evs = Some e -> eff_id e = id.
Proof.
  unfold active.
  assert (H : forall cur, (forall x, cur = Some x -> eff_id x = id) ->
            fold_left (track id) evs cur = Some e -> eff_id e = id).
  { induction evs as [|ev rest IH]; intros cur Hcur; simpl; [apply Hcur|].
    apply IH. intros x. destruct ev as [[|] e'|[|] e']; simpl; try apply Hcur.
    - destruct (Z.eqb_spec (eff_id e') id); [|apply Hcur]. intros Hx. now inversion Hx; subst.
    - destruct (Z.eqb_spec (eff_id e') id); [discriminate | apply Hcur]. }
  apply H. discriminate.
Qed.

(** X19. The [effects] list of a status report holds exactly the effects
    that are active on the bot: an effect is listed if and only if the last
    event about its id, among the bot's own, was a start, and then with the
    amplifier and duration of that start.  No id is listed twice, an effect
    that ended is not listed, and effect events of other entities change
    nothing. *)
Theorem status_effects_are_active (evs : list Event) (e : Effect) :
  (In e (status_effects (run evs)) <-> active (eff_id e) evs = Some e)
  /\ NoDup (map eff_id (status_effects (run evs)))
  /\ (forall other, In other (status_effects (run evs)) ->
        eff_id other = eff_id e -> In e (status_effects (run evs)) -> other = e)
  /\ (forall e' pre post, evs = pre ++ Started false e' :: post
                          \/ evs = pre ++ Ended false e' :: post ->
        run evs = run (pre ++ post)).
Proof.
  assert (Hin : forall x, In x (status_effects (run evs)) <-> active (eff_id x) evs = Some x).
  { intros x. unfold status_effects. rewrite in_map_iff. split.
    - intros ([k v] & Hv & Hkv). rewrite effect_eta in Hv. subst v.
      apply list_elem_of_In, elem_of_map_to_list in Hkv.
      rewrite run_lookup in Hkv. pose proof (active_id _ _ _ Hkv) as Hid. now rewrite Hid.
    - intros Ha. exists (eff_id x, x). split; [apply effect_eta|].
      apply list_elem_of_In, elem_of_map_to_list. now rewrite run_lookup. }
  split; [apply Hin|]. split; [|split].
  - assert (Heq : map eff_id (status_effects (run evs)) = (map_to_list (run evs)).*1).
    { unfold status_effects. rewrite map_map.
      assert (Hall : forall l : list (Z * Effect),
                (forall k v, In (k, v) l -> eff_id v = k) ->
                map (fun x => eff_id (let '(_, e0) := x in
                         mkEffect (eff_id e0) (eff_amplifier e0) (eff_duration e0))) l = l.*1).
      { induction l as [|[k v] l IH]; intros H; simpl; [reflexivity|].
        rewrite (H k v) by now left. f_equal. apply IH. intros; apply H; now right. }
      apply Hall. intros k v Hkv. apply list_elem_of_In, elem_of_map_to_list in Hkv.
      rewrite run_lookup in Hkv. now apply active_id in Hkv. }
    rewrite Heq. apply NoDup_fst_map_to_list.
  - intros other Ho Hid He. apply Hin in Ho. apply Hin in He.
    rewrite Hid in Ho. congruence.
  - intros e' pre post H. unfold run.
    destruct H as [->| ->]; rewrite !fold_left_app; reflexivity.
Qed.

End Effects.
